(** * PruneNonEscapingScopes: a shallow embedding of the reactive-scope pruner

    The development follows
    [compiler/forget/src/ReactiveScopes/PruneNonEscapingScopes.ts]:
    the memoization-level lattice, the identifier/scope graph ([State]),
    the escape solver ([computeMemoizedIdentifiers]), the classification of
    values ([computeMemoizationInputs]), the dependency collector
    ([CollectDependenciesVisitor]) and the pruning transform
    ([PruneScopesTransform]).

    JavaScript [Map]s are finite maps ([gmap]); JavaScript [Set]s that the
    pass iterates over are duplicate-free lists in insertion order; the set
    that is only queried with [has] is a [gset].  Objects that the source
    mutates through a reference (identifier and scope nodes) live in the
    maps of the state and are updated there. *)

From stdpp Require Import gmap list.

Set Default Proof Using "Type".
Set Warnings "-register-all,-clear-no-such-hyp".

(** ** Identifiers of the HIR *)

Abbreviation IdentifierId := nat (only parsing).
Abbreviation ScopeId := nat (only parsing).
Abbreviation InstructionId := nat (only parsing).

(** ** Outcome of a computation

    [invariant(...)] and [CompilerError.invariant(...)] abort the pass;
    [OutOfFuel] only arises in the fuelled presentation of the recursive
    solver. *)

Inductive error : Type :=
| ExpectedIdentifierInitialized   (* State.visitOperand *)
| ExpectedNodeForIdentifier       (* computeMemoizedIdentifiers.visit *)
| ExpectedNodeForScope            (* forceMemoizeScopeDependencies *)
| UnexpectedUnsupportedNode.      (* computeMemoizationInputs *)

Inductive result (A : Type) : Type :=
| Ok (a : A)
| Throw (e : error)
| OutOfFuel.
Arguments Ok {A} a.
Arguments Throw {A} e.
Arguments OutOfFuel {A}.

#[global] Instance result_ret : MRet result := λ A a, Ok a.
#[global] Instance result_bind : MBind result := λ A B f m,
  match m with
  | Ok a => f a
  | Throw e => Throw e
  | OutOfFuel => OutOfFuel
  end.

(** [for (const x of xs) body(x)] over a state. *)
Definition for_of {A S : Type} (body : A → S → result S) : list A → S → result S :=
  fix go (xs : list A) (s : S) : result S :=
    match xs with
    | [] => Ok s
    | x :: xs' => s' ← body x s; go xs' s'
    end.

(** [Set.prototype.add] on an insertion-ordered set. *)
Definition set_add (x : nat) (xs : list nat) : list nat :=
  if decide (x ∈ xs) then xs else xs ++ [x].

(** ** The memoization-level lattice *)

Inductive MemoizationLevel : Type :=
| Memoized
| Conditional
| Unmemoized
| Never.

#[global] Instance MemoizationLevel_eq_dec : EqDecision MemoizationLevel.
Proof. solve_decision. Defined.

Definition joinAliases (kind1 kind2 : MemoizationLevel) : MemoizationLevel :=
  if bool_decide (kind1 = Memoized) || bool_decide (kind2 = Memoized) then Memoized
  else if bool_decide (kind1 = Conditional) || bool_decide (kind2 = Conditional) then Conditional
  else if bool_decide (kind1 = Unmemoized) || bool_decide (kind2 = Unmemoized) then Unmemoized
  else Never.

(** The order [Never < Unmemoized < Conditional < Memoized] of the
    specification, and its maximum. *)
Definition level_rank (l : MemoizationLevel) : nat :=
  match l with
  | Never => 0
  | Unmemoized => 1
  | Conditional => 2
  | Memoized => 3
  end.

Definition level_le (a b : MemoizationLevel) : Prop := level_rank a ≤ level_rank b.

Definition level_max (a b : MemoizationLevel) : MemoizationLevel :=
  if decide (level_rank a ≤ level_rank b) then b else a.

(** ** Graph nodes and the state of the pass *)

Record IdentifierNode : Type := mkIdentifierNode {
  level : MemoizationLevel;
  memoized : bool;
  dependencies : list IdentifierId;
  scopes : list ScopeId;
  seen : bool;
}.

Record ScopeNode : Type := mkScopeNode {
  scope_dependencies : list IdentifierId;
  scope_seen : bool;
}.

Record State : Type := mkState {
  definitions : gmap nat nat;
  identifiers : gmap nat IdentifierNode;
  state_scopes : gmap nat ScopeNode;
  returned : list IdentifierId;
}.

Definition empty_State : State :=
  {| definitions := ∅; identifiers := ∅; state_scopes := ∅; returned := [] |}.

Definition set_identifiers (f : gmap nat IdentifierNode → gmap nat IdentifierNode)
    (st : State) : State :=
  {| definitions := definitions st; identifiers := f (identifiers st);
     state_scopes := state_scopes st; returned := returned st |}.

Definition set_scopes (f : gmap nat ScopeNode → gmap nat ScopeNode) (st : State) : State :=
  {| definitions := definitions st; identifiers := identifiers st;
     state_scopes := f (state_scopes st); returned := returned st |}.

Definition fresh_node : IdentifierNode :=
  {| level := Never; memoized := false; dependencies := []; scopes := []; seen := false |}.

(** [State.declare] *)
Definition declare (id : IdentifierId) (st : State) : State :=
  set_identifiers (insert id fresh_node) st.

(** ** The escape solver

    [computeMemoizedIdentifiers] closes over the state and over the local
    set [memoized]; both are threaded explicitly. *)

Record Solver : Type := mkSolver {
  graph : State;
  memoized_set : gset nat;
}.

Definition mark_identifier_seen (n : IdentifierNode) : IdentifierNode :=
  {| level := level n; memoized := false; dependencies := dependencies n;
     scopes := scopes n; seen := true |}.

Definition mark_identifier_memoized (n : IdentifierNode) : IdentifierNode :=
  {| level := level n; memoized := true; dependencies := dependencies n;
     scopes := scopes n; seen := seen n |}.

Definition mark_scope_seen (n : ScopeNode) : ScopeNode :=
  {| scope_dependencies := scope_dependencies n; scope_seen := true |}.

Definition update_identifier (id : IdentifierId) (f : IdentifierNode → IdentifierNode)
    (s : Solver) : Solver :=
  {| graph := set_identifiers (alter f id) (graph s); memoized_set := memoized_set s |}.

Definition update_scope (id : ScopeId) (f : ScopeNode → ScopeNode) (s : Solver) : Solver :=
  {| graph := set_scopes (alter f id) (graph s); memoized_set := memoized_set s |}.

Definition add_memoized (id : IdentifierId) (s : Solver) : Solver :=
  {| graph := graph s; memoized_set := {[id]} ∪ memoized_set s |}.

(** Reading [node.memoized] through the reference held by [visit]. *)
Definition read_memoized (id : IdentifierId) (s : Solver) : bool :=
  match identifiers (graph s) !! id with
  | Some n => memoized n
  | None => false
  end.

(** The condition of the [if] at the end of [visit]. *)
Definition should_memoize (l : MemoizationLevel) (hasMemoizedDependency forceMemoize : bool)
    : bool :=
  bool_decide (l = Memoized)
  || (bool_decide (l = Conditional) && (hasMemoizedDependency || forceMemoize))
  || (bool_decide (l = Unmemoized) && forceMemoize).

(** The loop over [node.dependencies]: every dependency is visited, and the
    results are or-ed together. *)
Definition visit_dependencies (visit : IdentifierId → bool → Solver → result (bool * Solver))
    (deps : list IdentifierId) (s : Solver) : result (bool * Solver) :=
  for_of (λ dep acc,
            r ← visit dep false acc.2;
            Ok (acc.1 || r.1, r.2))
         deps (false, s).

Fixpoint visit (fuel : nat) (id : IdentifierId) (forceMemoize : bool) (s : Solver)
    {struct fuel} : result (bool * Solver) :=
  match fuel with
  | 0 => OutOfFuel
  | S fuel' =>
    match identifiers (graph s) !! id with
    | None => Throw ExpectedNodeForIdentifier
    | Some node =>
      if seen node then Ok (memoized node, s)
      else
        let s1 := update_identifier id mark_identifier_seen s in
        r ← visit_dependencies (visit fuel') (dependencies node) s1;
        let hasMemoizedDependency := r.1 in
        if should_memoize (level node) hasMemoizedDependency forceMemoize then
          let s2 := add_memoized id (update_identifier id mark_identifier_memoized r.2) in
          s3 ← for_of (forceMemoizeScopeDependencies fuel') (scopes node) s2;
          Ok (read_memoized id s3, s3)
        else Ok (read_memoized id r.2, r.2)
    end
  end
with forceMemoizeScopeDependencies (fuel : nat) (id : ScopeId) (s : Solver)
    {struct fuel} : result Solver :=
  match fuel with
  | 0 => OutOfFuel
  | S fuel' =>
    match state_scopes (graph s) !! id with
    | None => Throw ExpectedNodeForScope
    | Some node =>
      if scope_seen node then Ok s
      else
        let s1 := update_scope id mark_scope_seen s in
        for_of (λ dep acc, r ← visit fuel' dep true acc; Ok r.2)
               (scope_dependencies node) s1
    end
  end.

(** The walk from the roots, with the final solver state. *)
Definition solve (fuel : nat) (state : State) : result Solver :=
  for_of (λ r acc, v ← visit fuel r false acc; Ok v.2)
         (returned state) {| graph := state; memoized_set := ∅ |}.

Definition computeMemoizedIdentifiers_fuel (fuel : nat) (state : State) : result (gset nat) :=
  s ← solve fuel state; Ok (memoized_set s).

(** ** The HIR consumed by the pass

    The declarations of [../HIR] are not among the sources of this pass;
    the types below keep the fields that the pass reads, under the names the
    pass uses for them. *)

(** Modelled from the spec: the [Effect] enumeration.  The pass names
    [Capture], [Mutate] and [Store]; every other member is non-mutable. *)
Inductive Effect : Type :=
| Unknown
| Freeze
| Read
| Capture
| Mutate
| Store.

Record Identifier : Type := mkIdentifier {
  identifier_id : IdentifierId;
}.

Record Place : Type := mkPlace {
  identifier : Identifier;
  effect : Effect;
}.

Record ReactiveScopeDependency : Type := mkDependency {
  dependency_identifier : Identifier;
}.

(** [declarations] is a [Map] from identifier ids; [reassignments] and
    [dependencies] are [Set]s, kept in insertion order. *)
Record ReactiveScope : Type := mkReactiveScope {
  scope_id : ScopeId;
  scope_range : InstructionId * InstructionId;
  scope_declarations : list (IdentifierId * Identifier);
  scope_reassignments : list Identifier;
  scope_scope_dependencies : list ReactiveScopeDependency;
}.

Inductive JsxProp : Type :=
| JsxAttribute (place : Place)
| JsxSpreadAttribute (argument : Place).

Inductive ArrayPatternItem : Type :=
| ArrayItemIdentifier (item : Place)
| ArrayItemSpread (place : Place).

Inductive ObjectPatternProperty : Type :=
| ObjectProperty (place : Place)
| ObjectSpread (place : Place).

Inductive Pattern : Type :=
| ArrayPattern (items : list ArrayPatternItem)
| ObjectPattern (properties : list ObjectPatternProperty).

(** Values.  Kinds whose operands the pass obtains from
    [eachReactiveValueOperand] carry their operand places; kinds whose
    fields the pass never reads carry none. *)
Inductive ReactiveValue : Type :=
| ConditionalExpression (test consequent alternate : ReactiveValue)
| LogicalExpression (left_ right_ : ReactiveValue)
| SequenceExpression (instructions : list ReactiveInstruction) (value : ReactiveValue)
| JsxExpression (tag : Place) (props : list JsxProp) (children : option (list Place))
| JsxFragment (children : list Place)
| ComputedDelete
| PropertyDelete
| LoadGlobal
| TemplateLiteral
| Primitive
| JSXText
| BinaryExpression
| UnaryExpression
| TypeCastExpression (value : Place)
| LoadLocal (place : Place)
| DeclareLocal (lvalue_place : Place)
| StoreLocal (lvalue_place : Place) (value : Place)
| Destructure (lvalue_pattern : Pattern) (value : Place)
| ComputedLoad (object property : Place)
| PropertyLoad (object : Place)
| ComputedStore (object property value : Place)
| OptionalCall (fields : list Place)
| RegExpLiteral
| FunctionExpression (fields : list Place)
| TaggedTemplateExpression (fields : list Place)
| CallExpression (fields : list Place)
| ArrayExpression (fields : list Place)
| NewExpression (fields : list Place)
| ObjectExpression (fields : list Place)
| MethodCall (fields : list Place)
| PropertyStore (fields : list Place)
| UnsupportedNode
with ReactiveInstruction : Type :=
| mkInstruction (id : InstructionId) (lvalue : option Place) (value : ReactiveValue).

Definition instruction_id (i : ReactiveInstruction) : InstructionId :=
  match i with mkInstruction id _ _ => id end.
Definition instruction_lvalue (i : ReactiveInstruction) : option Place :=
  match i with mkInstruction _ lvalue _ => lvalue end.
Definition instruction_value (i : ReactiveInstruction) : ReactiveValue :=
  match i with mkInstruction _ _ value => value end.

(** Modelled from the spec: the statement tree of a reactive function
    (blocks, scopes, terminals, instructions).  A terminal other than
    [return] is kept as the sequence of the values and blocks it contains,
    in the order in which an in-order traversal meets them. *)
Inductive ReactiveStatement : Type :=
| InstructionStatement (instruction : ReactiveInstruction)
| ScopeStatement (scope : ReactiveScope) (instructions : list ReactiveStatement)
| TerminalStatement (terminal : ReactiveTerminal)
with ReactiveTerminal : Type :=
| ReturnTerminal (value : option Place)
| ControlTerminal (children : list TerminalChild)
with TerminalChild : Type :=
| ChildValue (value : ReactiveValue)
| ChildBlock (block : list ReactiveStatement).

Record ReactiveFunction : Type := mkReactiveFunction {
  fn_id : option Identifier;
  params : list Place;
  body : list ReactiveStatement;
}.

Record MemoizationOptions : Type := mkOptions {
  memoizeJsxElements : bool;
}.

(** ** Classification of values *)

Definition isMutableEffect (e : Effect) : bool :=
  match e with
  | Capture | Mutate | Store => true
  | _ => false
  end.

Record LValueMemoization : Type := mkLValue {
  lv_place : Place;
  lv_level : MemoizationLevel;
}.

Record MemoizationInputs : Type := mkInputs {
  lvalues : list LValueMemoization;
  rvalues : list Place;
}.

(** [lvalue !== null ? [{place: lvalue, level}] : []] *)
Definition lvalue_if_present (lvalue : option Place) (l : MemoizationLevel)
    : list LValueMemoization :=
  match lvalue with
  | Some p => [mkLValue p l]
  | None => []
  end.

Definition computePatternLValues (pattern : Pattern) : list LValueMemoization :=
  match pattern with
  | ArrayPattern items =>
      foldl (λ lvalues item,
               match item with
               | ArrayItemIdentifier p => lvalues ++ [mkLValue p Conditional]
               | ArrayItemSpread p => lvalues ++ [mkLValue p Memoized]
               end) [] items
  | ObjectPattern properties =>
      foldl (λ lvalues property,
               match property with
               | ObjectProperty p => lvalues ++ [mkLValue p Conditional]
               | ObjectSpread p => lvalues ++ [mkLValue p Memoized]
               end) [] properties
  end.

(** The operand list that the [JsxExpression] case builds with [push]. *)
Definition jsx_operands (tag : Place) (props : list JsxProp) (children : option (list Place))
    : list Place :=
  let operands := [tag] in
  let operands :=
    foldl (λ operands prop,
             match prop with
             | JsxAttribute p => operands ++ [p]
             | JsxSpreadAttribute a => operands ++ [a]
             end) operands props in
  match children with
  | Some cs => foldl (λ operands child, operands ++ [child]) operands cs
  | None => operands
  end.

Definition jsx_level (options : MemoizationOptions) : MemoizationLevel :=
  if memoizeJsxElements options then Memoized else Unmemoized.

Section Collector.

(** The two host functions of the pass: [getPlaceScope] of
    [BuildReactiveBlocks] and [eachReactiveValueOperand] of [visitors]. *)
Variable getPlaceScope : InstructionId → Place → option ReactiveScope.
Variable eachReactiveValueOperand : ReactiveValue → list Place.

Fixpoint computeMemoizationInputs (value : ReactiveValue) (lvalue : option Place)
    (options : MemoizationOptions) {struct value} : result MemoizationInputs :=
  match value with
  | ConditionalExpression _ consequent alternate =>
      c ← computeMemoizationInputs consequent None options;
      a ← computeMemoizationInputs alternate None options;
      Ok {| lvalues := lvalue_if_present lvalue Conditional;
            rvalues := rvalues c ++ rvalues a |}
  | LogicalExpression left_ right_ =>
      l ← computeMemoizationInputs left_ None options;
      r ← computeMemoizationInputs right_ None options;
      Ok {| lvalues := lvalue_if_present lvalue Conditional;
            rvalues := rvalues l ++ rvalues r |}
  | SequenceExpression _ value =>
      v ← computeMemoizationInputs value None options;
      Ok {| lvalues := lvalue_if_present lvalue Conditional;
            rvalues := rvalues v |}
  | JsxExpression tag props children =>
      let operands := jsx_operands tag props children in
      let level := jsx_level options in
      Ok {| lvalues := lvalue_if_present lvalue level; rvalues := operands |}
  | JsxFragment children =>
      let level := jsx_level options in
      Ok {| lvalues := lvalue_if_present lvalue level; rvalues := children |}
  | ComputedDelete | PropertyDelete | LoadGlobal | TemplateLiteral
  | Primitive | JSXText | BinaryExpression | UnaryExpression =>
      Ok {| lvalues := lvalue_if_present lvalue Never; rvalues := [] |}
  | TypeCastExpression value =>
      Ok {| lvalues := lvalue_if_present lvalue Conditional; rvalues := [value] |}
  | LoadLocal place =>
      Ok {| lvalues := lvalue_if_present lvalue Conditional; rvalues := [place] |}
  | DeclareLocal lvalue_place =>
      Ok {| lvalues := [mkLValue lvalue_place Unmemoized]
                         ++ lvalue_if_present lvalue Unmemoized;
            rvalues := [] |}
  | StoreLocal lvalue_place value =>
      Ok {| lvalues := [mkLValue lvalue_place Conditional]
                         ++ lvalue_if_present lvalue Conditional;
            rvalues := [value] |}
  | Destructure pattern value =>
      Ok {| lvalues := lvalue_if_present lvalue Conditional
                         ++ computePatternLValues pattern;
            rvalues := [value] |}
  | ComputedLoad object _ | PropertyLoad object =>
      Ok {| lvalues := lvalue_if_present lvalue Conditional; rvalues := [object] |}
  | ComputedStore object _ value =>
      Ok {| lvalues := [mkLValue object Conditional]
                         ++ lvalue_if_present lvalue Conditional;
            rvalues := [value] |}
  | OptionalCall _ | RegExpLiteral | FunctionExpression _
  | TaggedTemplateExpression _ | CallExpression _ | ArrayExpression _
  | NewExpression _ | ObjectExpression _ | MethodCall _ | PropertyStore _ =>
      let operands := eachReactiveValueOperand value in
      let lvalues :=
        map (λ place, mkLValue place Memoized)
            (filter (λ operand, isMutableEffect (effect operand) = true) operands) in
      Ok {| lvalues := lvalues ++ lvalue_if_present lvalue Memoized;
            rvalues := operands |}
  | UnsupportedNode => Throw UnexpectedUnsupportedNode
  end.

(** *** The collector's view of the state *)

(** [state.definitions.get(id) ?? id] *)
Definition resolve (st : State) (id : IdentifierId) : IdentifierId :=
  match definitions st !! id with
  | Some source => source
  | None => id
  end.

Definition add_scope (s : ScopeId) (n : IdentifierNode) : IdentifierNode :=
  {| level := level n; memoized := memoized n; dependencies := dependencies n;
     scopes := set_add s (scopes n); seen := seen n |}.

(** [State.visitOperand] *)
Definition visitOperand (id : InstructionId) (place : Place) (identifier : IdentifierId)
    (st : State) : result State :=
  match getPlaceScope id place with
  | Some scope =>
      let st :=
        match state_scopes st !! scope_id scope with
        | None =>
            let node :=
              {| scope_dependencies :=
                   map (λ dep, identifier_id (dependency_identifier dep))
                       (scope_scope_dependencies scope);
                 scope_seen := false |} in
            set_scopes (insert (scope_id scope) node) st
        | Some _ => st
        end in
      match identifiers st !! identifier with
      | None => Throw ExpectedIdentifierInitialized
      | Some identifierNode =>
          Ok (set_identifiers (insert identifier (add_scope (scope_id scope) identifierNode)) st)
      end
  | None => Ok st
  end.

Definition set_level (l : MemoizationLevel) (n : IdentifierNode) : IdentifierNode :=
  {| level := l; memoized := memoized n; dependencies := dependencies n;
     scopes := scopes n; seen := seen n |}.

Definition add_dependency (d : IdentifierId) (n : IdentifierNode) : IdentifierNode :=
  {| level := level n; memoized := memoized n; dependencies := set_add d (dependencies n);
     scopes := scopes n; seen := seen n |}.

(** The loop that associates the rvalues with the instruction's scope. *)
Definition visit_rvalues (id : InstructionId) (rvalues : list Place) (st : State)
    : result State :=
  for_of (λ operand st,
            let operandId := resolve st (identifier_id (identifier operand)) in
            visitOperand id operand operandId st)
         rvalues st.

(** One iteration of the loop over [aliasing.lvalues]. *)
Definition visit_lvalue (id : InstructionId) (rvalues : list Place)
    (lv : LValueMemoization) (st : State) : result State :=
  let lvalueId := resolve st (identifier_id (identifier (lv_place lv))) in
  let node :=
    match identifiers st !! lvalueId with
    | Some node => node
    | None => fresh_node
    end in
  let node := set_level (joinAliases (level node) (lv_level lv)) node in
  let node :=
    foldl (λ node operand,
             let operandId := resolve st (identifier_id (identifier operand)) in
             if decide (operandId = lvalueId) then node
             else add_dependency operandId node)
          node rvalues in
  let st := set_identifiers (insert lvalueId node) st in
  visitOperand id (lv_place lv) lvalueId st.

Definition set_definition (k v : IdentifierId) (st : State) : State :=
  {| definitions := <[k := v]> (definitions st); identifiers := identifiers st;
     state_scopes := state_scopes st; returned := returned st |}.

(** The tail of [visitInstruction]: the [LoadLocal] indirection. *)
Definition record_definition (instruction : ReactiveInstruction) (st : State) : State :=
  match instruction_value instruction, instruction_lvalue instruction with
  | LoadLocal place, Some lvalue =>
      set_definition (identifier_id (identifier lvalue)) (identifier_id (identifier place)) st
  | _, _ => st
  end.

(** [CollectDependenciesVisitor.visitInstruction] after its call of
    [traverseInstruction]. *)
Definition collectInstruction (options : MemoizationOptions)
    (instruction : ReactiveInstruction) (st : State) : result State :=
  aliasing ← computeMemoizationInputs (instruction_value instruction)
                (instruction_lvalue instruction) options;
  st ← visit_rvalues (instruction_id instruction) (rvalues aliasing) st;
  st ← for_of (visit_lvalue (instruction_id instruction) (rvalues aliasing))
         (lvalues aliasing) st;
  Ok (record_definition instruction st).

(** Modelled from the spec: the in-order traversal of the visitor framework
    ([ReactiveFunctionVisitor] of [visitors], not among the sources).
    [traverseValue] descends into the values nested in a value and calls the
    instruction hook on the instructions of a sequence expression; places
    and ids have no hook in this pass. *)
Fixpoint traverseValue (options : MemoizationOptions) (value : ReactiveValue) (st : State)
    {struct value} : result State :=
  match value with
  | ConditionalExpression test consequent alternate =>
      st ← traverseValue options test st;
      st ← traverseValue options consequent st;
      traverseValue options alternate st
  | LogicalExpression left_ right_ =>
      st ← traverseValue options left_ st;
      traverseValue options right_ st
  | SequenceExpression instructions value =>
      st ← for_of (visitInstruction options) instructions st;
      traverseValue options value st
  | _ => Ok st
  end
with visitInstruction (options : MemoizationOptions) (instruction : ReactiveInstruction)
    (st : State) {struct instruction} : result State :=
  match instruction with
  | mkInstruction id lvalue value =>
      st ← traverseValue options value st;
      collectInstruction options (mkInstruction id lvalue value) st
  end.

Definition add_returned (id : IdentifierId) (st : State) : State :=
  {| definitions := definitions st; identifiers := identifiers st;
     state_scopes := state_scopes st; returned := set_add id (returned st) |}.

(** Modelled from the spec: the traversal of statements, blocks and
    terminals of the visitor framework.  [visitTerminal] is the hook the
    collector overrides: it traverses the terminal and then records a
    returned identifier. *)
Fixpoint visitStatement (options : MemoizationOptions) (stmt : ReactiveStatement) (st : State)
    {struct stmt} : result State :=
  match stmt with
  | InstructionStatement instruction => visitInstruction options instruction st
  | ScopeStatement _ instructions => for_of (visitStatement options) instructions st
  | TerminalStatement terminal => visitTerminal options terminal st
  end
with visitTerminal (options : MemoizationOptions) (terminal : ReactiveTerminal) (st : State)
    {struct terminal} : result State :=
  match terminal with
  | ReturnTerminal value =>
      match value with
      | Some place => Ok (add_returned (identifier_id (identifier place)) st)
      | None => Ok st
      end
  | ControlTerminal children => for_of (visitTerminalChild options) children st
  end
with visitTerminalChild (options : MemoizationOptions) (child : TerminalChild) (st : State)
    {struct child} : result State :=
  match child with
  | ChildValue value => traverseValue options value st
  | ChildBlock block => for_of (visitStatement options) block st
  end.

Definition visitBlock (options : MemoizationOptions) (block : list ReactiveStatement)
    (st : State) : result State :=
  for_of (visitStatement options) block st.

(** The first phase of [pruneNonEscapingScopes]: declare the function's own
    id and its parameters, then collect. *)
Definition declare_function (fn : ReactiveFunction) : State :=
  let state := empty_State in
  let state :=
    match fn_id fn with
    | Some f => declare (identifier_id f) state
    | None => state
    end in
  foldl (λ state param, declare (identifier_id (identifier param)) state) state (params fn).

Definition collectDependencies (fn : ReactiveFunction) (options : MemoizationOptions)
    : result State :=
  visitBlock options (body fn) (declare_function fn).

(** ** The solver without fuel

    Every call of [visit] or [forceMemoizeScopeDependencies] that gets past
    its [seen] test marks a node that was not marked before, so the nesting
    depth of the calls is bounded by the number of unmarked nodes. *)

Definition unseen_identifiers (st : State) : gset nat :=
  dom (filter (λ kv, seen kv.2 = false) (identifiers st)).

Definition unseen_scopes (st : State) : gset nat :=
  dom (filter (λ kv, scope_seen kv.2 = false) (state_scopes st)).

Definition unseen_nodes (st : State) : nat :=
  size (unseen_identifiers st) + size (unseen_scopes st).

Definition computeMemoizedIdentifiers (state : State) : result (gset nat) :=
  computeMemoizedIdentifiers_fuel (S (unseen_nodes state)) state.

(** ** The pruning transform *)

Inductive Transformed : Type :=
| Keep
| ReplaceMany (value : list ReactiveStatement).

Definition hasMemoizedOutput (scope : ReactiveScope) (state : gset nat) : bool :=
  existsb (λ id, bool_decide (id ∈ state)) (map fst (scope_declarations scope))
  || existsb (λ identifier, bool_decide (identifier_id identifier ∈ state))
       (scope_reassignments scope).

(** [PruneScopesTransform.transformScope]; [instructions] is
    [scope.instructions] as [this.visitScope] leaves it. *)
Definition transformScope (scope : ReactiveScope) (instructions : list ReactiveStatement)
    (state : gset nat) : Transformed :=
  if hasMemoizedOutput scope state then Keep else ReplaceMany instructions.

(** Modelled from the spec: the transform variant of the visitor framework.
    A block is rebuilt statement by statement; [keep] leaves the statement
    in place and [replace-many] splices the given statements in its place. *)
Definition splice {A : Type} (f : A → list A) : list A → list A :=
  fix go (xs : list A) : list A :=
    match xs with
    | [] => []
    | x :: xs' => f x ++ go xs'
    end.

Fixpoint transformStatement (state : gset nat) (stmt : ReactiveStatement)
    {struct stmt} : list ReactiveStatement :=
  match stmt with
  | InstructionStatement instruction => [InstructionStatement instruction]
  | ScopeStatement scope instructions =>
      let instructions := splice (transformStatement state) instructions in
      match transformScope scope instructions state with
      | Keep => [ScopeStatement scope instructions]
      | ReplaceMany value => value
      end
  | TerminalStatement terminal => [TerminalStatement (transformTerminal state terminal)]
  end
with transformTerminal (state : gset nat) (terminal : ReactiveTerminal)
    {struct terminal} : ReactiveTerminal :=
  match terminal with
  | ReturnTerminal value => ReturnTerminal value
  | ControlTerminal children => ControlTerminal (map (transformTerminalChild state) children)
  end
with transformTerminalChild (state : gset nat) (child : TerminalChild)
    {struct child} : TerminalChild :=
  match child with
  | ChildValue value => ChildValue value
  | ChildBlock block => ChildBlock (splice (transformStatement state) block)
  end.

Definition transformBlock (state : gset nat) (block : list ReactiveStatement)
    : list ReactiveStatement :=
  splice (transformStatement state) block.

(** ** The pass *)

Definition pruneNonEscapingScopes (fn : ReactiveFunction) (options : MemoizationOptions)
    : result ReactiveFunction :=
  state ← collectDependencies fn options;
  memoized ← computeMemoizedIdentifiers state;
  Ok {| fn_id := fn_id fn; params := params fn;
        body := transformBlock memoized (body fn) |}.

End Collector.

(** A reactive scope is active on the half-open range of instruction ids
    recorded in it; used to instantiate [getPlaceScope] on examples. *)
Definition scope_active (scope : ReactiveScope) (id : InstructionId) : bool :=
  bool_decide ((scope_range scope).1 ≤ id) && bool_decide (id < (scope_range scope).2).

(** * Vocabulary of the properties *)

(** ** What a call of the solver may change

    [node_step n n'] relates a node before and after a call of [visit] or
    of [forceMemoizeScopeDependencies]: the call never touches a level, a
    dependency set or a scope set; it leaves a node that is already marked
    [seen], and a node that it does not mark, as it is; and a node that it
    marks ends up memoized when its level is [Memoized] and is never
    memoized when its level is [Never]. *)

Definition node_step (n n' : IdentifierNode) : Prop :=
  level n' = level n ∧ dependencies n' = dependencies n ∧ scopes n' = scopes n
  ∧ (seen n = true → n' = n)
  ∧ (seen n = false → seen n' = true → level n = Memoized → memoized n' = true)
  ∧ (seen n = false → seen n' = true → memoized n' = true → level n ≠ Never)
  ∧ (seen n' = false → n' = n).

(** A scope node keeps its dependencies and its mark. *)
Definition scope_node_step (n n' : ScopeNode) : Prop :=
  scope_dependencies n' = scope_dependencies n
  ∧ (scope_seen n = true → scope_seen n' = true).

(** [id] was not marked in [s] and is marked and memoized in [s']. *)
Definition newly_memoized (s s' : Solver) (id : IdentifierId) : Prop :=
  ∃ n n', identifiers (graph s) !! id = Some n ∧ seen n = false
          ∧ identifiers (graph s') !! id = Some n'
          ∧ seen n' = true ∧ memoized n' = true.

(** The states before and after a call: nodes and scope nodes change as
    above, none is added or removed, and the output set grows exactly by
    the identifiers that the call marks and memoizes. *)
Definition solver_step (s s' : Solver) : Prop :=
  (∀ id, option_Forall2 node_step
           (identifiers (graph s) !! id) (identifiers (graph s') !! id))
  ∧ (∀ id, option_Forall2 scope_node_step
             (state_scopes (graph s) !! id) (state_scopes (graph s') !! id))
  ∧ memoized_set s ⊆ memoized_set s'
  ∧ definitions (graph s') = definitions (graph s)
  ∧ returned (graph s') = returned (graph s)
  ∧ (∀ id, id ∈ memoized_set s' → id ∈ memoized_set s ∨ newly_memoized s s' id)
  ∧ (∀ id, newly_memoized s s' id → id ∈ memoized_set s').

(** ** Why an identifier is in the output set *)

(** [id] is a dependency of a scope that has been forced. *)
Definition forced_by_scope (s : Solver) (id : IdentifierId) : Prop :=
  ∃ sid n, state_scopes (graph s) !! sid = Some n ∧ scope_seen n = true
           ∧ id ∈ scope_dependencies n.

(** The reason for which [visit] memoizes a node, read off the state. *)
Definition justified (s : Solver) (id : IdentifierId) (n : IdentifierNode) : Prop :=
  level n = Memoized
  ∨ (level n = Conditional
     ∧ (forced_by_scope s id ∨ ∃ dep, dep ∈ dependencies n ∧ dep ∈ memoized_set s))
  ∨ (level n = Unmemoized ∧ forced_by_scope s id).

(** Every node whose flag is set is in the output set. *)
Definition flags_in_set (s : Solver) : Prop :=
  ∀ id n, identifiers (graph s) !! id = Some n → memoized n = true → id ∈ memoized_set s.

(** Every identifier in the output set has a node and a reason. *)
Definition set_justified (s : Solver) : Prop :=
  ∀ id, id ∈ memoized_set s →
        ∃ n, identifiers (graph s) !! id = Some n ∧ justified s id n.

(** The state that the collector hands to the solver: no node is marked
    and no node is memoized. *)
Definition fresh_state (state : State) : Prop :=
  (∀ id n, identifiers state !! id = Some n → seen n = false ∧ memoized n = false)
  ∧ (∀ id n, state_scopes state !! id = Some n → scope_seen n = false).

(** The return-coverage property as the specification words it: a
    returned identifier is in the memoized set unless its level is [Never],
    or its level is [Unmemoized] and no forced scope reaches it. *)
Definition return_coverage_as_stated (state : State) : Prop :=
  ∀ s, solve (S (unseen_nodes state)) state = Ok s →
  ∀ id node, id ∈ returned state → identifiers state !! id = Some node →
    level node = Never
    ∨ (level node = Unmemoized ∧ ¬ forced_by_scope s id)
    ∨ id ∈ memoized_set s.

(** ** The collector as a sequence of events

    The traversal calls [collectInstruction] on every instruction, the
    instructions nested in a value before the instruction that holds the
    value, and records the value of every [return]. *)

Inductive CollectorEvent : Type :=
| InstructionEvent (instruction : ReactiveInstruction)
| ReturnEvent (id : IdentifierId).

(** The events of a value and of an instruction, in the order of the
    traversal. *)
Fixpoint value_events (value : ReactiveValue) {struct value} : list CollectorEvent :=
  match value with
  | ConditionalExpression test consequent alternate =>
      value_events test ++ value_events consequent ++ value_events alternate
  | LogicalExpression left_ right_ => value_events left_ ++ value_events right_
  | SequenceExpression instructions value =>
      concat (map instruction_events instructions) ++ value_events value
  | _ => []
  end
with instruction_events (instruction : ReactiveInstruction) {struct instruction}
    : list CollectorEvent :=
  match instruction with
  | mkInstruction id lvalue value =>
      value_events value ++ [InstructionEvent (mkInstruction id lvalue value)]
  end.

(** The events of a statement, of a terminal and of its children. *)
Fixpoint statement_events (stmt : ReactiveStatement) {struct stmt} : list CollectorEvent :=
  match stmt with
  | InstructionStatement instruction => instruction_events instruction
  | ScopeStatement _ instructions => concat (map statement_events instructions)
  | TerminalStatement terminal => terminal_events terminal
  end
with terminal_events (terminal : ReactiveTerminal) {struct terminal} : list CollectorEvent :=
  match terminal with
  | ReturnTerminal (Some place) => [ReturnEvent (identifier_id (identifier place))]
  | ReturnTerminal None => []
  | ControlTerminal children => concat (map child_events children)
  end
with child_events (child : TerminalChild) {struct child} : list CollectorEvent :=
  match child with
  | ChildValue value => value_events value
  | ChildBlock block => concat (map statement_events block)
  end.

(** The events of a block. *)
Definition block_events (block : list ReactiveStatement) : list CollectorEvent :=
  concat (map statement_events block).

(** ** What the collector may change and what it maintains *)

(** The level of an identifier in a state; an identifier without a node
    has had no classification yet. *)
Definition level_of (st : State) (id : IdentifierId) : MemoizationLevel :=
  match identifiers st !! id with
  | Some n => level n
  | None => Never
  end.

(** The collector only ever adds: nodes stay, with their flags, and their
    level, dependencies and scopes can only grow; scope nodes stay as they
    were created; returned identifiers stay. *)
Definition node_grows (n n' : IdentifierNode) : Prop :=
  level_le (level n) (level n')
  ∧ dependencies n ⊆ dependencies n'
  ∧ scopes n ⊆ scopes n'
  ∧ seen n' = seen n ∧ memoized n' = memoized n.

(** The states before and after an event of the collector. *)
Definition collect_step (st st' : State) : Prop :=
  (∀ id n, identifiers st !! id = Some n →
           ∃ n', identifiers st' !! id = Some n' ∧ node_grows n n')
  ∧ (∀ sid n, state_scopes st !! sid = Some n → state_scopes st' !! sid = Some n)
  ∧ (∀ k, is_Some (definitions st !! k) → is_Some (definitions st' !! k))
  ∧ returned st ⊆ returned st'.

(** What the collector maintains: nothing is marked or memoized, every
    scope recorded on a node has a scope node, every identifier that
    [definitions] redirects has a node, and no node depends on itself. *)
Definition collector_inv (st : State) : Prop :=
  fresh_state st
  ∧ (∀ id n, identifiers st !! id = Some n →
             ∀ sid, sid ∈ scopes n → is_Some (state_scopes st !! sid))
  ∧ (∀ k, is_Some (definitions st !! k) → is_Some (identifiers st !! k))
  ∧ (∀ id n, identifiers st !! id = Some n → id ∉ dependencies n).

(** The scope node that [visitOperand] creates. *)
Definition new_scope_node (scope : ReactiveScope) : ScopeNode :=
  {| scope_dependencies :=
       map (λ dep, identifier_id (dependency_identifier dep))
           (scope_scope_dependencies scope);
     scope_seen := false |}.

(** The state in which [visitOperand] has recorded the scope. *)
Definition with_scope (scope : ReactiveScope) (st : State) : State :=
  match state_scopes st !! scope_id scope with
  | None => set_scopes (insert (scope_id scope) (new_scope_node scope)) st
  | Some _ => st
  end.

(** [definitions.get(id) ?? id] on the map alone. *)
Definition resolve_with (d : gmap nat nat) (id : IdentifierId) : IdentifierId :=
  match d !! id with
  | Some source => source
  | None => id
  end.

(** The loop of [visit_lvalue] that adds the operands as dependencies. *)
Definition add_dependencies (st : State) (lvalueId : IdentifierId) (node : IdentifierNode)
    (rvalues : list Place) : IdentifierNode :=
  foldl (λ node operand,
           let operandId := resolve st (identifier_id (identifier operand)) in
           if decide (operandId = lvalueId) then node
           else add_dependency operandId node)
        node rvalues.

(** The node that [visit_lvalue] stores before it visits the operand. *)
Definition lvalue_node (st : State) (rvalues : list Place) (lv : LValueMemoization)
    : IdentifierNode :=
  let lvalueId := resolve st (identifier_id (identifier (lv_place lv))) in
  let node :=
    match identifiers st !! lvalueId with
    | Some node => node
    | None => fresh_node
    end in
  add_dependencies st lvalueId
    (set_level (joinAliases (level node) (lv_level lv)) node) rvalues.

(** The levels that a list of lvalues reports for the identifier [x]. *)
Definition lvalue_levels (d : gmap nat nat) (lvs : list LValueMemoization)
    (x : IdentifierId) : list MemoizationLevel :=
  lv_level <$>
    filter (λ lv, resolve_with d (identifier_id (identifier (lv_place lv))) = x) lvs.

(** [definitions] after an instruction. *)
Definition definitions_after (instruction : ReactiveInstruction) (d : gmap nat nat)
    : gmap nat nat :=
  match instruction_value instruction, instruction_lvalue instruction with
  | LoadLocal place, Some lvalue =>
      <[identifier_id (identifier lvalue) := identifier_id (identifier place)]> d
  | _, _ => d
  end.

(** ** Closed graphs *)

(** Every scope recorded on a node has a scope node. *)
Definition scopes_closed (st : State) : Prop :=
  ∀ id n, identifiers st !! id = Some n →
          ∀ sid, sid ∈ scopes n → is_Some (state_scopes st !! sid).

(** Every dependency of a node and of a scope node has a node. *)
Definition identifiers_closed (st : State) : Prop :=
  (∀ id n, identifiers st !! id = Some n →
           ∀ d, d ∈ dependencies n → is_Some (identifiers st !! d))
  ∧ (∀ sid n, state_scopes st !! sid = Some n →
              ∀ d, d ∈ scope_dependencies n → is_Some (identifiers st !! d)).

(** ** Values and scopes in the words of the specification *)

(** The operand of a JSX prop, as the specification lists it: the place of
    an attribute, the argument of a spread. *)
Definition jsx_prop_operand (prop : JsxProp) : Place :=
  match prop with
  | JsxAttribute place => place
  | JsxSpreadAttribute argument => argument
  end.

(** The scope has an output in the memoized set, in the words of the
    specification. *)
Definition has_memoized_output (scope : ReactiveScope) (state : gset nat) : Prop :=
  ∃ id, (id ∈ (scope_declarations scope).*1
         ∨ id ∈ identifier_id <$> scope_reassignments scope)
        ∧ id ∈ state.

(** The scopes of a statement, at any depth. *)
Fixpoint statement_scopes (stmt : ReactiveStatement) {struct stmt} : list ReactiveScope :=
  match stmt with
  | InstructionStatement _ => []
  | ScopeStatement scope instructions =>
      scope :: concat (map statement_scopes instructions)
  | TerminalStatement terminal => terminal_scopes terminal
  end
with terminal_scopes (terminal : ReactiveTerminal) {struct terminal} : list ReactiveScope :=
  match terminal with
  | ReturnTerminal _ => []
  | ControlTerminal children => concat (map child_scopes children)
  end
with child_scopes (child : TerminalChild) {struct child} : list ReactiveScope :=
  match child with
  | ChildValue _ => []
  | ChildBlock block => concat (map statement_scopes block)
  end.

(** The scopes of a block, at any depth. *)
Definition block_scopes (block : list ReactiveStatement) : list ReactiveScope :=
  concat (map statement_scopes block).

(** ** Pruning, as a relation between blocks *)

(** [pruned_block memoized block block'] : [block'] is [block] in which
    every scope with an output in [memoized] is still there, around its own
    pruned instructions, every other scope has given way, where it was, to
    its pruned instructions, and every instruction, terminal and value is
    what and where it was. *)
Inductive pruned_block (memoized : gset nat)
    : list ReactiveStatement → list ReactiveStatement → Prop :=
| pruned_block_nil : pruned_block memoized [] []
| pruned_block_instruction instruction rest rest' :
    pruned_block memoized rest rest' →
    pruned_block memoized (InstructionStatement instruction :: rest)
      (InstructionStatement instruction :: rest')
| pruned_block_kept scope instructions instructions' rest rest' :
    has_memoized_output scope memoized →
    pruned_block memoized instructions instructions' →
    pruned_block memoized rest rest' →
    pruned_block memoized (ScopeStatement scope instructions :: rest)
      (ScopeStatement scope instructions' :: rest')
| pruned_block_gone scope instructions instructions' rest rest' :
    ¬ has_memoized_output scope memoized →
    pruned_block memoized instructions instructions' →
    pruned_block memoized rest rest' →
    pruned_block memoized (ScopeStatement scope instructions :: rest)
      (instructions' ++ rest')
| pruned_block_terminal terminal terminal' rest rest' :
    pruned_terminal memoized terminal terminal' →
    pruned_block memoized rest rest' →
    pruned_block memoized (TerminalStatement terminal :: rest)
      (TerminalStatement terminal' :: rest')
with pruned_terminal (memoized : gset nat) : ReactiveTerminal → ReactiveTerminal → Prop :=
| pruned_terminal_return value :
    pruned_terminal memoized (ReturnTerminal value) (ReturnTerminal value)
| pruned_terminal_control children children' :
    pruned_children memoized children children' →
    pruned_terminal memoized (ControlTerminal children) (ControlTerminal children')
with pruned_children (memoized : gset nat)
    : list TerminalChild → list TerminalChild → Prop :=
| pruned_children_nil : pruned_children memoized [] []
| pruned_children_value value rest rest' :
    pruned_children memoized rest rest' →
    pruned_children memoized (ChildValue value :: rest) (ChildValue value :: rest')
| pruned_children_block block block' rest rest' :
    pruned_block memoized block block' →
    pruned_children memoized rest rest' →
    pruned_children memoized (ChildBlock block :: rest) (ChildBlock block' :: rest').

(** The node invariant as the specification words it: every lvalue and
    every rvalue of every instruction has a node after the collector. *)
Definition nodes_for_all_operands_as_stated
    (eachReactiveValueOperand : ReactiveValue → list Place)
    (options : MemoizationOptions) (fn : ReactiveFunction) (st : State) : Prop :=
  ∀ instruction aliasing,
    InstructionEvent instruction ∈ block_events (body fn) →
    computeMemoizationInputs eachReactiveValueOperand (instruction_value instruction)
      (instruction_lvalue instruction) options = Ok aliasing →
    (∀ lv, lv ∈ lvalues aliasing →
           is_Some (identifiers st !! identifier_id (identifier (lv_place lv))))
    ∧ (∀ operand, operand ∈ rvalues aliasing →
                  is_Some (identifiers st !! identifier_id (identifier operand))).

(** ** Events and reported levels, over the host functions *)

Section CollectorVocabulary.

Variable getPlaceScope : InstructionId → Place → option ReactiveScope.
Variable eachReactiveValueOperand : ReactiveValue → list Place.
Variable options : MemoizationOptions.

(** What the collector does at an event. *)
Definition run_event (e : CollectorEvent) (st : State) : result State :=
  match e with
  | InstructionEvent instruction =>
      collectInstruction getPlaceScope eachReactiveValueOperand options instruction st
  | ReturnEvent id => Ok (add_returned id st)
  end.

(** What the collector does over a sequence of events. *)
Definition run_events (es : list CollectorEvent) (st : State) : result State :=
  for_of run_event es st.

(** The levels that an instruction reports for [x] under the definitions
    [d]. *)
Definition instruction_levels (d : gmap nat nat) (instruction : ReactiveInstruction)
    (x : IdentifierId) : list MemoizationLevel :=
  match computeMemoizationInputs eachReactiveValueOperand (instruction_value instruction)
          (instruction_lvalue instruction) options with
  | Ok aliasing => lvalue_levels d (lvalues aliasing) x
  | _ => []
  end.

(** The levels that a sequence of events reports for [x], each
    instruction under the definitions in force when it is reached. *)
Fixpoint classifications (d : gmap nat nat) (es : list CollectorEvent) (x : IdentifierId)
    : list MemoizationLevel :=
  match es with
  | [] => []
  | InstructionEvent instruction :: es' =>
      instruction_levels d instruction x
        ++ classifications (definitions_after instruction d) es' x
  | ReturnEvent _ :: es' => classifications d es' x
  end.

End CollectorVocabulary.

(** ** Kinds of values *)

(** An [UnsupportedNode] sits where the classification looks: at the value
    itself, in a branch of a conditional (not in its test), on a side of a
    logical expression, or at the final value of a sequence. *)
Fixpoint unsupported_result (value : ReactiveValue) {struct value} : bool :=
  match value with
  | ConditionalExpression _ consequent alternate =>
      unsupported_result consequent || unsupported_result alternate
  | LogicalExpression left_ right_ => unsupported_result left_ || unsupported_result right_
  | SequenceExpression _ value => unsupported_result value
  | UnsupportedNode => true
  | _ => false
  end.

(** The kinds of the last group of cases of [computeMemoizationInputs]:
    values that may produce a new object. *)
Definition allocates (value : ReactiveValue) : bool :=
  match value with
  | OptionalCall _ | RegExpLiteral | FunctionExpression _ | TaggedTemplateExpression _
  | CallExpression _ | ArrayExpression _ | NewExpression _ | ObjectExpression _
  | MethodCall _ | PropertyStore _ => true
  | _ => false
  end.

(** A JSX element or fragment. *)
Definition is_jsx (value : ReactiveValue) : bool :=
  match value with
  | JsxExpression _ _ _ | JsxFragment _ => true
  | _ => false
  end.

(** The lvalue that a pattern item and a pattern property stand for. *)
Definition array_item_lvalue (item : ArrayPatternItem) : LValueMemoization :=
  match item with
  | ArrayItemIdentifier p => mkLValue p Conditional
  | ArrayItemSpread p => mkLValue p Memoized
  end.

Definition object_property_lvalue (property : ObjectPatternProperty) : LValueMemoization :=
  match property with
  | ObjectProperty p => mkLValue p Conditional
  | ObjectSpread p => mkLValue p Memoized
  end.

(** ** Returned identifiers and outputs of scopes *)

(** The identifiers of the [return]s among the events, in their order. *)
Definition returned_ids (es : list CollectorEvent) : list IdentifierId :=
  omap (λ e, match e with
             | ReturnEvent id => Some id
             | InstructionEvent _ => None
             end) es.

(** The identifiers that a scope declares or reassigns. *)
Definition scope_outputs (scope : ReactiveScope) : list IdentifierId :=
  (scope_declarations scope).*1 ++ (identifier_id <$> scope_reassignments scope).

(** ** The walk of the solver over the graph *)

(** The moves of the solver: from an identifier to a dependency of its
    node, and from an identifier in the memoized set to a dependency of a
    scope recorded on its node. *)
Inductive solver_edge (state : State) (memo : gset nat) (a b : IdentifierId) : Prop :=
| edge_dependency (node : IdentifierNode) :
    identifiers state !! a = Some node →
    b ∈ dependencies node →
    solver_edge state memo a b
| edge_scope (node : IdentifierNode) (sid : ScopeId) (scope : ScopeNode) :
    a ∈ memo →
    identifiers state !! a = Some node →
    sid ∈ scopes node →
    state_scopes state !! sid = Some scope →
    b ∈ scope_dependencies scope →
    solver_edge state memo a b.

(** [id] can be reached from a returned identifier by such moves. *)
Definition solver_reaches (state : State) (memo : gset nat) (id : IdentifierId) : Prop :=
  ∃ root, root ∈ returned state ∧ rtc (solver_edge state memo) root id.

(** The node of [id] is marked; the node of the scope [sid] is marked. *)
Definition identifier_seen (s : Solver) (id : IdentifierId) : Prop :=
  ∃ n, identifiers (graph s) !! id = Some n ∧ seen n = true.

Definition scope_forced (s : Solver) (sid : ScopeId) : Prop :=
  ∃ n, state_scopes (graph s) !! sid = Some n ∧ scope_seen n = true.

(** Every node of [g'] is a node of [g] with the same dependencies and
    scopes, and every scope node of [g'] is one of [g] with the same
    dependencies. *)
Definition same_edges (g g' : State) : Prop :=
  (∀ id n', identifiers g' !! id = Some n' →
            ∃ n, identifiers g !! id = Some n
                 ∧ dependencies n = dependencies n' ∧ scopes n = scopes n')
  ∧ (∀ sid n', state_scopes g' !! sid = Some n' →
               ∃ n, state_scopes g !! sid = Some n
                    ∧ scope_dependencies n = scope_dependencies n').

(** Every marked node satisfies [T]. *)
Definition seen_in (T : IdentifierId → Prop) (s : Solver) : Prop :=
  ∀ id n, identifiers (graph s) !! id = Some n → seen n = true → T id.

(** The walk is complete at [id]: when its node is marked, its
    dependencies are marked, and when its node is memoized, the scopes
    recorded on it are marked. *)
Definition node_closed (s : Solver) (id : IdentifierId) : Prop :=
  ∀ n, identifiers (graph s) !! id = Some n →
       (seen n = true → ∀ d, d ∈ dependencies n → identifier_seen s d)
       ∧ (memoized n = true → ∀ sid, sid ∈ scopes n → scope_forced s sid).

(** The walk is complete at the scope [sid]: when its node is marked, its
    dependencies are marked. *)
Definition scope_closed (s : Solver) (sid : ScopeId) : Prop :=
  ∀ n, state_scopes (graph s) !! sid = Some n → scope_seen n = true →
       ∀ d, d ∈ scope_dependencies n → identifier_seen s d.

(** The walk is complete everywhere but at the identifiers and scopes
    whose visit is under way. *)
Definition visited_closed (pending : IdentifierId → Prop) (pending_scopes : ScopeId → Prop)
    (s : Solver) : Prop :=
  (∀ id, ¬ pending id → node_closed s id)
  ∧ (∀ sid, ¬ pending_scopes sid → scope_closed s sid).

(** ** Functions that define what they use *)

Section Defined.

Variable getPlaceScope : InstructionId → Place → option ReactiveScope.
Variable eachReactiveValueOperand : ReactiveValue → list Place.
Variable options : MemoizationOptions.

(** The identifier is the function's own, a parameter, or an lvalue that
    the classification reports for some instruction of the function. *)
Definition defined_in (fn : ReactiveFunction) (x : IdentifierId) : Prop :=
  fn_id fn = Some (mkIdentifier x)
  ∨ x ∈ (λ p, identifier_id (identifier p)) <$> params fn
  ∨ ∃ instruction aliasing lv,
      InstructionEvent instruction ∈ block_events (body fn)
      ∧ computeMemoizationInputs eachReactiveValueOperand (instruction_value instruction)
          (instruction_lvalue instruction) options = Ok aliasing
      ∧ lv ∈ lvalues aliasing
      ∧ identifier_id (identifier (lv_place lv)) = x.

(** Every identifier that the function uses is defined in it: the rvalues
    that the classification reports, the returned identifiers, and the
    dependencies of the scopes of its places. *)
Definition uses_defined (fn : ReactiveFunction) : Prop :=
  (∀ instruction aliasing operand,
     InstructionEvent instruction ∈ block_events (body fn) →
     computeMemoizationInputs eachReactiveValueOperand (instruction_value instruction)
       (instruction_lvalue instruction) options = Ok aliasing →
     operand ∈ rvalues aliasing →
     defined_in fn (identifier_id (identifier operand)))
  ∧ (∀ id, ReturnEvent id ∈ block_events (body fn) → defined_in fn id)
  ∧ (∀ id place scope dep,
       getPlaceScope id place = Some scope →
       dep ∈ scope_scope_dependencies scope →
       defined_in fn (identifier_id (dependency_identifier dep))).

End Defined.

(** Every identifier that the graph mentions satisfies [R]: the
    dependencies of the nodes and of the scope nodes, and the identifiers
    that [definitions] redirects to. *)
Definition mentions_only (R : IdentifierId → Prop) (st : State) : Prop :=
  (∀ id n, identifiers st !! id = Some n → ∀ d, d ∈ dependencies n → R d)
  ∧ (∀ k v, definitions st !! k = Some v → R v)
  ∧ (∀ sid n, state_scopes st !! sid = Some n → ∀ d, d ∈ scope_dependencies n → R d).

(** * Concrete inputs *)

(** [eachReactiveValueOperand] on the values of the examples. *)
Definition example_operands (value : ReactiveValue) : list Place :=
  match value with
  | OptionalCall fields | FunctionExpression fields | TaggedTemplateExpression fields
  | CallExpression fields | ArrayExpression fields | NewExpression fields
  | ObjectExpression fields | MethodCall fields | PropertyStore fields => fields
  | _ => []
  end.

(** [getPlaceScope] on the examples: the scope that the table gives to the
    identifier of the place, when it is active at the instruction. *)
Definition example_getPlaceScope (table : gmap nat ReactiveScope) (id : InstructionId)
    (place : Place) : option ReactiveScope :=
  match table !! identifier_id (identifier place) with
  | Some scope => if scope_active scope id then Some scope else None
  | None => None
  end.

Definition default_options : MemoizationOptions := {| memoizeJsxElements := false |}.

(** [function f(x) { return x; }]: the parameter is loaded into a
    temporary, which is returned. *)
Definition identity_x : Place := mkPlace (mkIdentifier 0) Read.
Definition identity_t : Place := mkPlace (mkIdentifier 1) Read.
Definition identity_load : ReactiveInstruction :=
  mkInstruction 1 (Some identity_t) (LoadLocal identity_x).
Definition identity_fn : ReactiveFunction :=
  {| fn_id := None;
     params := [identity_x];
     body := [InstructionStatement identity_load;
              TerminalStatement (ReturnTerminal (Some identity_t))] |}.
Definition identity_state : State :=
  {| definitions := {[1 := 0]};
     identifiers :=
       {[0 := fresh_node;
         1 := {| level := Conditional; memoized := false; dependencies := [0];
                 scopes := []; seen := false |}]};
     state_scopes := ∅;
     returned := [1] |}.

(** A temporary loaded from an identifier that is neither a parameter nor
    the lvalue of any instruction. *)
Definition free_x : Place := mkPlace (mkIdentifier 7) Read.
Definition free_load : ReactiveInstruction :=
  mkInstruction 1 (Some identity_t) (LoadLocal free_x).
Definition free_variable_fn : ReactiveFunction :=
  {| fn_id := None;
     params := [];
     body := [InstructionStatement free_load;
              TerminalStatement (ReturnTerminal (Some identity_t))] |}.
Definition free_variable_state : State :=
  {| definitions := {[1 := 7]};
     identifiers :=
       {[1 := {| level := Conditional; memoized := false; dependencies := [7];
                 scopes := []; seen := false |}]};
     state_scopes := ∅;
     returned := [1] |}.

(** A temporary loaded from a free identifier, and a store into the
    temporary: the store is recorded under the identifier that the temporary
    was loaded from. *)
Definition alias_object : Place := mkPlace (mkIdentifier 1) Store.
Definition alias_value : Place := mkPlace (mkIdentifier 0) Read.
Definition alias_store : ReactiveInstruction :=
  mkInstruction 2 None (PropertyStore [alias_object; alias_value]).
Definition alias_store_fn : ReactiveFunction :=
  {| fn_id := None;
     params := [alias_value];
     body := [InstructionStatement free_load; InstructionStatement alias_store] |}.
Definition alias_store_state : State :=
  {| definitions := {[1 := 7]};
     identifiers :=
       {[0 := fresh_node;
         1 := {| level := Conditional; memoized := false; dependencies := [7];
                 scopes := []; seen := false |};
         7 := {| level := Memoized; memoized := false; dependencies := [0];
                 scopes := []; seen := false |}]};
     state_scopes := ∅;
     returned := [] |}.

(** [function f(p) { const u = <></>; const m = [u]; return m; }] with one
    scope for the JSX value and one scope, depending on [u], for the array;
    the JSX value is frozen, so the array reads it. *)
Definition jsx_u : Place := mkPlace (mkIdentifier 1) Read.
Definition array_m : Place := mkPlace (mkIdentifier 2) Read.
Definition scope_u : ReactiveScope :=
  {| scope_id := 1; scope_range := (1, 2);
     scope_declarations := [(1, mkIdentifier 1)]; scope_reassignments := [];
     scope_scope_dependencies := [] |}.
Definition scope_m : ReactiveScope :=
  {| scope_id := 2; scope_range := (2, 3);
     scope_declarations := [(2, mkIdentifier 2)]; scope_reassignments := [];
     scope_scope_dependencies := [mkDependency (mkIdentifier 1)] |}.
Definition jsx_scopes : gmap nat ReactiveScope := {[1 := scope_u; 2 := scope_m]}.
Definition jsx_instruction : ReactiveInstruction :=
  mkInstruction 1 (Some jsx_u) (JsxFragment []).
Definition array_instruction : ReactiveInstruction :=
  mkInstruction 2 (Some array_m) (ArrayExpression [jsx_u]).
Definition jsx_in_array_fn : ReactiveFunction :=
  {| fn_id := None;
     params := [mkPlace (mkIdentifier 0) Read];
     body := [ScopeStatement scope_u [InstructionStatement jsx_instruction];
              ScopeStatement scope_m [InstructionStatement array_instruction];
              TerminalStatement (ReturnTerminal (Some array_m))] |}.
Definition jsx_in_array_state : State :=
  {| definitions := ∅;
     identifiers :=
       {[0 := fresh_node;
         1 := {| level := Unmemoized; memoized := false; dependencies := [];
                 scopes := [1]; seen := false |};
         2 := {| level := Memoized; memoized := false; dependencies := [1];
                 scopes := [2]; seen := false |}]};
     state_scopes :=
       {[1 := {| scope_dependencies := []; scope_seen := false |};
         2 := {| scope_dependencies := [1]; scope_seen := false |}]};
     returned := [2] |}.
Definition jsx_in_array_pruned : ReactiveFunction :=
  {| fn_id := None;
     params := [mkPlace (mkIdentifier 0) Read];
     body := [InstructionStatement jsx_instruction;
              ScopeStatement scope_m [InstructionStatement array_instruction];
              TerminalStatement (ReturnTerminal (Some array_m))] |}.

(** Two [Conditional] identifiers that alias each other, both returned. *)
Definition cyclic_state : State :=
  {| definitions := ∅;
     identifiers :=
       {[1 := {| level := Conditional; memoized := false; dependencies := [2];
                 scopes := []; seen := false |};
         2 := {| level := Conditional; memoized := false; dependencies := [1];
                 scopes := []; seen := false |}]};
     state_scopes := ∅;
     returned := [1; 2] |}.

(** [function f() { const u = <></>; }]: a scope and no [return]. *)
Definition no_return_fn : ReactiveFunction :=
  {| fn_id := None;
     params := [];
     body := [ScopeStatement scope_u [InstructionStatement jsx_instruction]] |}.
Definition no_return_pruned : ReactiveFunction :=
  {| fn_id := None;
     params := [];
     body := [InstructionStatement jsx_instruction] |}.

(** A destructuring [const [a, ...b] = x] with an lvalue for its result. *)
Definition destructure_a : Place := mkPlace (mkIdentifier 3) Store.
Definition destructure_b : Place := mkPlace (mkIdentifier 4) Store.
Definition destructure_value : ReactiveValue :=
  Destructure (ArrayPattern [ArrayItemIdentifier destructure_a; ArrayItemSpread destructure_b])
    identity_x.

(** * Properties *)

(** ** The result monad and loops *)

Lemma bind_Ok {A B : Type} (m : result A) (f : A → result B) (b : B) :
  m ≫= f = Ok b → ∃ a, m = Ok a ∧ f a = Ok b.
Proof. destruct m as [a| |]; simpl; [eauto | done | done]. Qed.

Lemma for_of_nil {A S : Type} (body : A → S → result S) (s : S) :
  for_of body [] s = Ok s.
Proof. reflexivity. Qed.

Lemma for_of_cons {A S : Type} (body : A → S → result S) (x : A) (xs : list A) (s : S) :
  for_of body (x :: xs) s = body x s ≫= for_of body xs.
Proof. reflexivity. Qed.

Lemma for_of_app {A S : Type} (body : A → S → result S) (xs ys : list A) (s : S) :
  for_of body (xs ++ ys) s = for_of body xs s ≫= for_of body ys.
Proof.
  revert s. induction xs as [|x xs IH]; intros s; [done|].
  rewrite <- app_comm_cons, !for_of_cons.
  destruct (body x s) as [s'| |]; simpl; [apply IH | done | done].
Qed.

(** A loop whose iterations each respect a preorder respects it. *)
Lemma for_of_preorder {A S : Type} (body : A → S → result S) (R : S → S → Prop)
    `{!PreOrder R} (xs : list A) :
  (∀ x s s', x ∈ xs → body x s = Ok s' → R s s') →
  ∀ s s', for_of body xs s = Ok s' → R s s'.
Proof.
  induction xs as [|x xs IH]; intros Hbody s s' Hrun.
  - rewrite for_of_nil in Hrun. by simplify_eq.
  - rewrite for_of_cons in Hrun. apply bind_Ok in Hrun as (s1 & H1 & H2).
    transitivity s1.
    + eapply Hbody; [left | done].
    + apply IH; [|done]. intros y t t' Hy. apply Hbody. by right.
Qed.

(** A loop whose iterations each preserve an invariant preserves it. *)
Lemma for_of_invariant {A S : Type} (P : S → Prop) (body : A → S → result S)
    (xs : list A) (s s' : S) :
  for_of body xs s = Ok s' →
  P s →
  (∀ x s s', x ∈ xs → P s → body x s = Ok s' → P s') →
  P s'.
Proof.
  revert s. induction xs as [|x xs IH]; intros s Hrun HP Hbody.
  - rewrite for_of_nil in Hrun. by simplify_eq.
  - rewrite for_of_cons in Hrun. apply bind_Ok in Hrun as (s1 & H1 & H2).
    eapply IH; [done|eapply Hbody; [left | done | done]|].
    intros y t t' Hy. apply Hbody. by right.
Qed.

(** ** The lattice *)

Lemma joinAliases_max (a b : MemoizationLevel) : joinAliases a b = level_max a b.
Proof. by destruct a, b. Qed.

Lemma joinAliases_comm (a b : MemoizationLevel) : joinAliases a b = joinAliases b a.
Proof. by destruct a, b. Qed.

Lemma joinAliases_assoc (a b c : MemoizationLevel) :
  joinAliases a (joinAliases b c) = joinAliases (joinAliases a b) c.
Proof. by destruct a, b, c. Qed.

Lemma joinAliases_idemp (a : MemoizationLevel) : joinAliases a a = a.
Proof. by destruct a. Qed.

Lemma joinAliases_Never_l (a : MemoizationLevel) : joinAliases Never a = a.
Proof. by destruct a. Qed.

Lemma joinAliases_Never_r (a : MemoizationLevel) : joinAliases a Never = a.
Proof. by destruct a. Qed.

Lemma level_rank_inj (a b : MemoizationLevel) : level_rank a = level_rank b → a = b.
Proof. by destruct a, b. Qed.

Lemma level_rank_joinAliases (a b : MemoizationLevel) :
  level_rank (joinAliases a b) = level_rank a `max` level_rank b.
Proof. by destruct a, b. Qed.

(** ** The solver: equations *)

Lemma visit_0 id force s : visit 0 id force s = OutOfFuel.
Proof. reflexivity. Qed.

Lemma visit_S fuel id force s :
  visit (S fuel) id force s =
    match identifiers (graph s) !! id with
    | None => Throw ExpectedNodeForIdentifier
    | Some node =>
      if seen node then Ok (memoized node, s)
      else
        r ← visit_dependencies (visit fuel) (dependencies node)
              (update_identifier id mark_identifier_seen s);
        if should_memoize (level node) r.1 force then
          s3 ← for_of (forceMemoizeScopeDependencies fuel) (scopes node)
                 (add_memoized id (update_identifier id mark_identifier_memoized r.2));
          Ok (read_memoized id s3, s3)
        else Ok (read_memoized id r.2, r.2)
    end.
Proof. reflexivity. Qed.

Lemma forceMemoizeScopeDependencies_S fuel id s :
  forceMemoizeScopeDependencies (S fuel) id s =
    match state_scopes (graph s) !! id with
    | None => Throw ExpectedNodeForScope
    | Some node =>
      if scope_seen node then Ok s
      else
        for_of (λ dep acc, r ← visit fuel dep true acc; Ok r.2)
               (scope_dependencies node) (update_scope id mark_scope_seen s)
    end.
Proof. reflexivity. Qed.

Lemma should_memoize_spec l hasMemoizedDependency forceMemoize :
  should_memoize l hasMemoizedDependency forceMemoize = true ↔
    l = Memoized
    ∨ (l = Conditional ∧ (hasMemoizedDependency = true ∨ forceMemoize = true))
    ∨ (l = Unmemoized ∧ forceMemoize = true).
Proof.
  destruct l, hasMemoizedDependency, forceMemoize; cbn;
    intuition (try discriminate; auto).
Qed.

Lemma should_memoize_Never h f : should_memoize Never h f = false.
Proof. reflexivity. Qed.

Lemma should_memoize_Memoized h f : should_memoize Memoized h f = true.
Proof. reflexivity. Qed.

(** ** The solver: what a call may change

    Every call of [visit] and of [forceMemoizeScopeDependencies] that
    returns is a [solver_step]. *)

#[global] Instance node_step_preorder : PreOrder node_step.
Proof.
  split.
  - intros n. unfold node_step. intuition congruence.
  - intros a b c (Hl1 & Hd1 & Hs1 & Hf1 & Hm1 & Hn1 & Hu1)
      (Hl2 & Hd2 & Hs2 & Hf2 & Hm2 & Hn2 & Hu2).
    unfold node_step. split_and!; try congruence.
    + intros Ha. rewrite Hf2; [by apply Hf1 | by rewrite (Hf1 Ha)].
    + intros Ha Hc Hlev. destruct (seen b) eqn:Hb.
      * rewrite (Hf2 eq_refl). by apply Hm1.
      * apply Hm2; [done | done | congruence].
    + intros Ha Hc Hmem. destruct (seen b) eqn:Hb.
      * rewrite (Hf2 eq_refl) in Hmem. by apply Hn1.
      * rewrite <- Hl1. by apply Hn2.
    + intros Hc. pose proof (Hu2 Hc) as Hcb. subst c. by apply Hu1.
Qed.

#[global] Instance scope_node_step_preorder : PreOrder scope_node_step.
Proof.
  split.
  - intros n. by split.
  - intros a b c [Hd1 Hs1] [Hd2 Hs2]. split; [congruence | auto].
Qed.

Lemma solver_step_lookup s s' id n :
  solver_step s s' → identifiers (graph s) !! id = Some n →
  ∃ n', identifiers (graph s') !! id = Some n' ∧ node_step n n'.
Proof.
  intros (Hi & _) Hn. specialize (Hi id). rewrite Hn in Hi.
  inversion Hi; subst. eauto.
Qed.

Lemma solver_step_lookup_inv s s' id n' :
  solver_step s s' → identifiers (graph s') !! id = Some n' →
  ∃ n, identifiers (graph s) !! id = Some n ∧ node_step n n'.
Proof.
  intros (Hi & _) Hn. specialize (Hi id). rewrite Hn in Hi.
  inversion Hi; subst. eauto.
Qed.

Lemma solver_step_seen s s' id n :
  solver_step s s' → identifiers (graph s) !! id = Some n → seen n = true →
  identifiers (graph s') !! id = Some n.
Proof.
  intros Hstep Hn Hseen.
  destruct (solver_step_lookup _ _ _ _ Hstep Hn) as (n' & Hn' & Hns).
  destruct Hns as (_ & _ & _ & Hf & _). by rewrite <- (Hf Hseen).
Qed.

Lemma solver_step_unseen_inv s s' id n' :
  solver_step s s' → identifiers (graph s') !! id = Some n' → seen n' = false →
  ∃ n, identifiers (graph s) !! id = Some n ∧ seen n = false.
Proof.
  intros Hstep Hn' Hseen.
  destruct (solver_step_lookup_inv _ _ _ _ Hstep Hn') as (n & Hn & Hns).
  exists n. split; [done|]. destruct (seen n) eqn:Hs; [|done].
  destruct Hns as (_ & _ & _ & Hf & _). rewrite (Hf Hs) in Hseen. congruence.
Qed.

Lemma solver_step_scope_lookup s s' id n :
  solver_step s s' → state_scopes (graph s) !! id = Some n →
  ∃ n', state_scopes (graph s') !! id = Some n' ∧ scope_node_step n n'.
Proof.
  intros (_ & Hs & _) Hn. specialize (Hs id). rewrite Hn in Hs.
  inversion Hs; subst. eauto.
Qed.

Lemma solver_step_scope_lookup_inv s s' id n' :
  solver_step s s' → state_scopes (graph s') !! id = Some n' →
  ∃ n, state_scopes (graph s) !! id = Some n ∧ scope_node_step n n'.
Proof.
  intros (_ & Hs & _) Hn. specialize (Hs id). rewrite Hn in Hs.
  inversion Hs; subst. eauto.
Qed.

Lemma solver_step_refl s : solver_step s s.
Proof.
  repeat split; try done; try (intros id; reflexivity).
  - intros id Hid. by left.
  - intros id (n & n' & Hn & Hseen & Hn' & Hseen' & _). congruence.
Qed.

Lemma solver_step_trans a b c : solver_step a b → solver_step b c → solver_step a c.
Proof.
  intros Hab Hbc.
  pose proof Hab as (Hi1 & Hs1 & Hm1 & Hd1 & Hr1 & Hc1 & Hn1).
  pose proof Hbc as (Hi2 & Hs2 & Hm2 & Hd2 & Hr2 & Hc2 & Hn2).
  repeat split; try congruence.
  - intros id. by transitivity (identifiers (graph b) !! id).
  - intros id. by transitivity (state_scopes (graph b) !! id).
  - set_solver.
  - intros id Hid. destruct (Hc2 id Hid) as [Hb|(n & n' & Hn & Hseen & Hn' & Hseen' & Hmem)].
    + destruct (Hc1 id Hb) as [Ha|(n & n' & Hn & Hseen & Hn' & Hseen' & Hmem)]; [by left|].
      right. exists n, n'. repeat split; try done.
      by eapply solver_step_seen.
    + right. destruct (solver_step_unseen_inv _ _ _ _ Hab Hn Hseen) as (n0 & Hn0 & Hseen0).
      by exists n0, n'.
  - intros id (n & n'' & Hn & Hseen & Hn'' & Hseen'' & Hmem).
    destruct (solver_step_lookup _ _ _ _ Hab Hn) as (n' & Hn' & _).
    destruct (seen n') eqn:Hseen'.
    + apply Hm2, Hn1. exists n, n'. repeat split; try done.
      pose proof (solver_step_seen _ _ _ _ Hbc Hn' Hseen'). congruence.
    + apply Hn2. by exists n', n''.
Qed.

#[global] Instance solver_step_preorder : PreOrder solver_step.
Proof. split; [exact solver_step_refl | exact solver_step_trans]. Qed.

#[global] Instance solver_step_snd_preorder :
  PreOrder (λ a b : bool * Solver, solver_step a.2 b.2).
Proof.
  split.
  - intros a. reflexivity.
  - intros a b c Hab Hbc. by etransitivity.
Qed.

(** Lookups after the elementary updates. *)

Lemma lookup_update_identifier id f s id' :
  identifiers (graph (update_identifier id f s)) !! id' =
    if decide (id = id') then f <$> identifiers (graph s) !! id
    else identifiers (graph s) !! id'.
Proof. apply lookup_alter. Qed.

Lemma lookup_update_identifier_eq id f s n :
  identifiers (graph s) !! id = Some n →
  identifiers (graph (update_identifier id f s)) !! id = Some (f n).
Proof. intros Hn. rewrite lookup_update_identifier, decide_True, Hn; done. Qed.

Lemma lookup_update_identifier_ne id f s id' :
  id ≠ id' →
  identifiers (graph (update_identifier id f s)) !! id' = identifiers (graph s) !! id'.
Proof. intros Hne. by rewrite lookup_update_identifier, decide_False. Qed.

Lemma lookup_update_scope id f s id' :
  state_scopes (graph (update_scope id f s)) !! id' =
    if decide (id = id') then f <$> state_scopes (graph s) !! id
    else state_scopes (graph s) !! id'.
Proof. apply lookup_alter. Qed.

Lemma graph_add_memoized id s : graph (add_memoized id s) = graph s.
Proof. reflexivity. Qed.

(** Marking a scope is a step. *)
Lemma update_scope_step id s n :
  state_scopes (graph s) !! id = Some n →
  solver_step s (update_scope id mark_scope_seen s).
Proof.
  intros Hn. split; [intros id'; reflexivity|].
  split; [|repeat split; try done].
  - intros id'. rewrite lookup_update_scope. case_decide; [subst|reflexivity].
    rewrite Hn. constructor. by split.
  - intros id' Hid. by left.
  - intros id' (m & m' & Hm & Hseen & Hm' & Hseen' & _).
    change (identifiers (graph (update_scope id mark_scope_seen s)))
      with (identifiers (graph s)) in Hm'. congruence.
Qed.

(** The state in which the dependencies of an unmarked node have been
    visited: the node itself is marked and not memoized. *)
Lemma visit_dependencies_keep s id node sd :
  identifiers (graph s) !! id = Some node →
  solver_step (update_identifier id mark_identifier_seen s) sd →
  identifiers (graph sd) !! id = Some (mark_identifier_seen node).
Proof.
  intros Hn Hstep. eapply solver_step_seen; [done| |done].
  by apply lookup_update_identifier_eq.
Qed.

(** The body of [visit] on a node that is not yet marked, when the node is
    not memoized. *)
Lemma visit_step_unmemoized s id node sd :
  identifiers (graph s) !! id = Some node → seen node = false →
  level node ≠ Memoized →
  solver_step (update_identifier id mark_identifier_seen s) sd →
  solver_step s sd.
Proof.
  intros Hn Hseen Hlev Hstep.
  pose proof (visit_dependencies_keep _ _ _ _ Hn Hstep) as Hkeep.
  destruct Hstep as (Hi & Hs & Hm & Hd & Hr & Hc & Hnw).
  split; [|split; [exact Hs|split; [exact Hm|split; [exact Hd|split; [exact Hr|split]]]]].
  - intros id'. specialize (Hi id'). rewrite lookup_update_identifier in Hi.
    case_decide; [subst id'|done].
    rewrite Hn, Hkeep. constructor.
    unfold node_step; simpl; repeat split; try done; congruence.
  - intros id' Hid.
    destruct (Hc id' Hid) as [|(n & n' & Hn1 & Hs1 & Hn' & Hs' & Hmem)]; [by left|].
    right. rewrite lookup_update_identifier in Hn1.
    case_decide; [subst id'|by exists n, n'].
    rewrite Hn in Hn1. simpl in Hn1. by simplify_eq.
  - intros id' (n & n' & Hn0 & Hs0 & Hn' & Hs' & Hmem).
    destruct (decide (id = id')) as [->|Hne].
    + rewrite Hkeep in Hn'. by simplify_eq.
    + apply Hnw. exists n, n'. by rewrite lookup_update_identifier_ne.
Qed.

Lemma lookup_memoize_eq id sd n :
  identifiers (graph sd) !! id = Some n →
  identifiers (graph (add_memoized id (update_identifier id mark_identifier_memoized sd)))
    !! id = Some (mark_identifier_memoized n).
Proof. intros Hn. rewrite graph_add_memoized. by apply lookup_update_identifier_eq. Qed.

Lemma lookup_memoize_ne id sd id' :
  id ≠ id' →
  identifiers (graph (add_memoized id (update_identifier id mark_identifier_memoized sd)))
    !! id' = identifiers (graph sd) !! id'.
Proof. intros Hne. rewrite graph_add_memoized. by apply lookup_update_identifier_ne. Qed.

(** The state in which the scopes of a memoized node have been forced: the
    node itself is marked and memoized. *)
Lemma visit_scopes_keep s id node sd s3 :
  identifiers (graph s) !! id = Some node →
  solver_step (update_identifier id mark_identifier_seen s) sd →
  solver_step (add_memoized id (update_identifier id mark_identifier_memoized sd)) s3 →
  identifiers (graph s3) !! id
    = Some (mark_identifier_memoized (mark_identifier_seen node)).
Proof.
  intros Hn Hstep1 Hstep2.
  eapply solver_step_seen; [done| |done].
  apply lookup_memoize_eq. by eapply visit_dependencies_keep.
Qed.

(** The body of [visit] on a node that is not yet marked, when the node is
    memoized and its scopes are forced. *)
Lemma visit_step_memoized s id node sd s3 :
  identifiers (graph s) !! id = Some node → seen node = false →
  level node ≠ Never →
  solver_step (update_identifier id mark_identifier_seen s) sd →
  solver_step (add_memoized id (update_identifier id mark_identifier_memoized sd)) s3 →
  solver_step s s3.
Proof.
  intros Hn Hseen Hlev Hstep1 Hstep2.
  pose proof (visit_dependencies_keep _ _ _ _ Hn Hstep1) as Hkeep.
  pose proof (visit_scopes_keep _ _ _ _ _ Hn Hstep1 Hstep2) as Hkeep3.
  pose proof Hstep1 as (Hi1 & Hs1 & Hm1 & Hd1 & Hr1 & Hc1 & Hnw1).
  pose proof Hstep2 as (Hi2 & Hs2 & Hm2 & Hd2 & Hr2 & Hc2 & Hnw2).
  assert (id ∈ memoized_set s3) as Hin by (apply Hm2; simpl; set_solver).
  split; [|split; [|split; [|split; [|split; [|split]]]]].
  - intros id'. destruct (decide (id = id')) as [<-|Hne].
    + rewrite Hn, Hkeep3. constructor.
      unfold node_step; simpl; repeat split; try done; congruence.
    + specialize (Hi1 id'). specialize (Hi2 id').
      rewrite lookup_update_identifier_ne in Hi1 by done.
      rewrite lookup_memoize_ne in Hi2 by done.
      by etransitivity.
  - intros id'. etransitivity; [apply Hs1|apply Hs2].
  - simpl in *. set_solver.
  - simpl in *. congruence.
  - simpl in *. congruence.
  - intros id' Hid. destruct (decide (id = id')) as [<-|Hne].
    { right. by exists node, (mark_identifier_memoized (mark_identifier_seen node)). }
    destruct (Hc2 id' Hid) as [Hold|(n2 & n3 & Hn2 & Hseen2 & Hn3 & Hseen3 & Hmem3)].
    + assert (id' ∈ memoized_set sd) as Hsd by (simpl in Hold; set_solver).
      destruct (Hc1 id' Hsd) as [|(n & n' & Hn1 & Hseen1 & Hn' & Hseen' & Hmem)]; [by left|].
      right. rewrite lookup_update_identifier_ne in Hn1 by done.
      exists n, n'. repeat split; try done.
      eapply solver_step_seen; [done| |done]. by rewrite lookup_memoize_ne.
    + right. rewrite lookup_memoize_ne in Hn2 by done.
      destruct (solver_step_unseen_inv _ _ _ _ Hstep1 Hn2 Hseen2) as (n1 & Hn1 & Hseen1).
      rewrite lookup_update_identifier_ne in Hn1 by done.
      by exists n1, n3.
  - intros id' (n & n3 & Hn0 & Hseen0 & Hn3 & Hseen3 & Hmem3).
    destruct (decide (id = id')) as [<-|Hne]; [done|].
    assert (identifiers (graph (update_identifier id mark_identifier_seen s)) !! id'
            = Some n) as Hn1 by (by rewrite lookup_update_identifier_ne).
    destruct (solver_step_lookup _ _ _ _ Hstep1 Hn1) as (nd & Hnd & _).
    assert (identifiers
              (graph (add_memoized id (update_identifier id mark_identifier_memoized sd)))
              !! id' = Some nd) as Hnd2 by (by rewrite lookup_memoize_ne).
    destruct (seen nd) eqn:Hseend.
    + pose proof (solver_step_seen _ _ _ _ Hstep2 Hnd2 Hseend) as Heq.
      rewrite Hn3 in Heq. simplify_eq.
      apply Hm2. simpl. apply elem_of_union_r. apply Hnw1. by exists n, nd.
    + apply Hnw2. by exists nd, n3.
Qed.

(** The loop over the dependencies, as a loop on the solver state. *)
Lemma visit_dependencies_step (v : IdentifierId → bool → Solver → result (bool * Solver))
    deps s r :
  (∀ id force s r, v id force s = Ok r → solver_step s r.2) →
  visit_dependencies v deps s = Ok r → solver_step s r.2.
Proof.
  intros Hv Hrun. unfold visit_dependencies in Hrun.
  change s with ((false, s).2).
  revert Hrun. generalize (false, s). intros acc Hrun.
  eapply (for_of_preorder _ (λ a b : bool * Solver, solver_step a.2 b.2)); [|apply Hrun].
  intros x a a' _ Hbody. apply bind_Ok in Hbody as (r' & Hr' & Heq).
  simplify_eq. simpl. eauto.
Qed.

Lemma should_memoize_not_Never l h f : should_memoize l h f = true → l ≠ Never.
Proof. by destruct l. Qed.

Lemma should_memoize_not_Memoized l h f : should_memoize l h f = false → l ≠ Memoized.
Proof. by destruct l. Qed.

Lemma visit_force_step fuel :
  (∀ id force s r, visit fuel id force s = Ok r → solver_step s r.2)
  ∧ (∀ id s s', forceMemoizeScopeDependencies fuel id s = Ok s' → solver_step s s').
Proof.
  induction fuel as [|fuel [IHv IHf]]; [by split|].
  split.
  - intros id force s r Hrun. rewrite visit_S in Hrun.
    destruct (identifiers (graph s) !! id) as [node|] eqn:Hnode; [|done].
    destruct (seen node) eqn:Hseen; [by simplify_eq|].
    apply bind_Ok in Hrun as (rd & Hdeps & Hrun).
    apply visit_dependencies_step in Hdeps; [|done].
    destruct (should_memoize (level node) rd.1 force) eqn:Hdec.
    + apply bind_Ok in Hrun as (s3 & Hscopes & Hrun). simplify_eq. simpl.
      eapply visit_step_memoized; [done|done|by eapply should_memoize_not_Never|done|].
      eapply (for_of_preorder _ solver_step); [|apply Hscopes]. eauto.
    + simplify_eq. simpl.
      eapply visit_step_unmemoized; [done|done|by eapply should_memoize_not_Memoized|done].
  - intros id s s' Hrun. rewrite forceMemoizeScopeDependencies_S in Hrun.
    destruct (state_scopes (graph s) !! id) as [node|] eqn:Hnode; [|done].
    destruct (scope_seen node) eqn:Hseen; [by simplify_eq|].
    etransitivity; [by eapply update_scope_step|].
    eapply (for_of_preorder _ solver_step); [|apply Hrun].
    intros x a a' _ Hbody. apply bind_Ok in Hbody as (r' & Hr' & Heq).
    simplify_eq. eauto.
Qed.

Lemma visit_step fuel id force s r :
  visit fuel id force s = Ok r → solver_step s r.2.
Proof. apply visit_force_step. Qed.

Lemma forceMemoizeScopeDependencies_step fuel id s s' :
  forceMemoizeScopeDependencies fuel id s = Ok s' → solver_step s s'.
Proof. apply visit_force_step. Qed.

(** ** The solver: what a call returns *)



(** After a visit the node is marked, and the value returned is its flag. *)
Lemma visit_result fuel id force s r :
  visit fuel id force s = Ok r →
  ∃ n', identifiers (graph r.2) !! id = Some n' ∧ seen n' = true ∧ memoized n' = r.1.
Proof.
  destruct fuel as [|fuel]; [done|]. intros Hrun. rewrite visit_S in Hrun.
  destruct (identifiers (graph s) !! id) as [node|] eqn:Hnode; [|done].
  destruct (seen node) eqn:Hseen; [simplify_eq; by exists node|].
  apply bind_Ok in Hrun as (rd & Hdeps & Hrun).
  apply visit_dependencies_step in Hdeps; [|apply visit_step].
  pose proof (visit_dependencies_keep _ _ _ _ Hnode Hdeps) as Hkeep.
  destruct (should_memoize (level node) rd.1 force) eqn:Hdec.
  - apply bind_Ok in Hrun as (s3 & Hscopes & Hrun). simplify_eq. simpl.
    assert (solver_step
              (add_memoized id (update_identifier id mark_identifier_memoized rd.2)) s3)
      as Hstep2.
    { eapply (for_of_preorder _ solver_step); [|apply Hscopes].
      intros x a a' _. apply forceMemoizeScopeDependencies_step. }
    pose proof (visit_scopes_keep _ _ _ _ _ Hnode Hdeps Hstep2) as Hkeep3.
    unfold read_memoized. rewrite Hkeep3. eauto.
  - simplify_eq. simpl. unfold read_memoized. rewrite Hkeep. eauto.
Qed.

Lemma visit_result_read fuel id force s r :
  visit fuel id force s = Ok r → read_memoized id r.2 = r.1.
Proof.
  intros Hrun. destruct (visit_result _ _ _ _ _ Hrun) as (n' & Hn' & _ & Hmem).
  unfold read_memoized. by rewrite Hn'.
Qed.

Lemma read_memoized_step s s' id n :
  solver_step s s' → identifiers (graph s) !! id = Some n → seen n = true →
  read_memoized id s' = read_memoized id s.
Proof.
  intros Hstep Hn Hseen. unfold read_memoized.
  by rewrite (solver_step_seen _ _ _ _ Hstep Hn Hseen), Hn.
Qed.

(** The flag computed by the loop over the dependencies says whether some
    dependency is memoized in the state the loop ends in. *)
Lemma visit_dependencies_loop fuel deps :
  ∀ (pre : list IdentifierId) (acc d : bool * Solver),
    (acc.1 = true ↔ ∃ dep, dep ∈ pre ∧ read_memoized dep acc.2 = true) →
    (∀ dep, dep ∈ pre →
       ∃ n, identifiers (graph acc.2) !! dep = Some n ∧ seen n = true) →
    for_of (λ dep acc, r ← visit fuel dep false acc.2; Ok (acc.1 || r.1, r.2)) deps acc
      = Ok d →
    (d.1 = true ↔ ∃ dep, dep ∈ pre ++ deps ∧ read_memoized dep d.2 = true).
Proof.
  induction deps as [|x deps IH]; intros pre acc d Hacc Hpre Hrun.
  - rewrite for_of_nil in Hrun. simplify_eq. by rewrite app_nil_r.
  - rewrite for_of_cons in Hrun. apply bind_Ok in Hrun as (acc' & Hbody & Hrun).
    apply bind_Ok in Hbody as (r & Hvisit & Heq). simplify_eq.
    pose proof (visit_step _ _ _ _ _ Hvisit) as Hstep.
    pose proof (visit_result _ _ _ _ _ Hvisit) as (nx & Hnx & Hseenx & Hmemx).
    replace (pre ++ x :: deps) with ((pre ++ [x]) ++ deps) by (by rewrite <- app_assoc).
    eapply IH; [| |exact Hrun]; simpl.
    + rewrite orb_true_iff, Hacc. split.
      * intros [(dep & Hin & Hmem)|Hr].
        -- exists dep. split; [set_solver|].
           destruct (Hpre dep Hin) as (n & Hn & Hseen).
           by rewrite (read_memoized_step _ _ _ _ Hstep Hn Hseen).
        -- exists x. split; [set_solver|].
           unfold read_memoized. rewrite Hnx. congruence.
      * intros (dep & Hin & Hmem). apply elem_of_app in Hin as [Hin|Hin].
        -- left. exists dep. split; [done|].
           destruct (Hpre dep Hin) as (n & Hn & Hseen).
           by rewrite <- (read_memoized_step _ _ _ _ Hstep Hn Hseen).
        -- apply list_elem_of_singleton in Hin as ->. right.
           unfold read_memoized in Hmem. rewrite Hnx in Hmem. congruence.
    + intros dep Hin. apply elem_of_app in Hin as [Hin|Hin].
      * destruct (Hpre dep Hin) as (n & Hn & Hseen). exists n. split; [|done].
        by eapply solver_step_seen.
      * apply list_elem_of_singleton in Hin as ->. eauto.
Qed.

Lemma visit_dependencies_result fuel deps s d :
  visit_dependencies (visit fuel) deps s = Ok d →
  (d.1 = true ↔ ∃ dep, dep ∈ deps ∧ read_memoized dep d.2 = true).
Proof.
  intros Hrun. unfold visit_dependencies in Hrun.
  apply (visit_dependencies_loop fuel deps [] (false, s) d); [| |done].
  - simpl. split; [done|]. intros (dep & Hin & _). by apply not_elem_of_nil in Hin.
  - intros dep Hin. by apply not_elem_of_nil in Hin.
Qed.

(** The visit that finds its node unmarked: the dependencies are visited,
    then the node is memoized or not by the condition of the source. *)
Lemma visit_unseen fuel id forceMemoize s node r :
  identifiers (graph s) !! id = Some node →
  seen node = false →
  id ∉ memoized_set s →
  visit (S fuel) id forceMemoize s = Ok r →
  ∃ d,
    visit_dependencies (visit fuel) (dependencies node)
      (update_identifier id mark_identifier_seen s) = Ok d
    ∧ r.1 = should_memoize (level node) d.1 forceMemoize
    ∧ read_memoized id r.2 = r.1
    ∧ (id ∈ memoized_set r.2 ↔ r.1 = true).
Proof.
  intros Hnode Hseen Hnotin Hrun.
  pose proof (visit_result_read _ _ _ _ _ Hrun) as Hread.
  rewrite visit_S, Hnode, Hseen in Hrun.
  apply bind_Ok in Hrun as (d & Hdeps & Hrun).
  exists d. split; [done|].
  pose proof (visit_dependencies_step _ _ _ _ (visit_step fuel) Hdeps) as Hstep.
  pose proof (visit_dependencies_keep _ _ _ _ Hnode Hstep) as Hkeep.
  destruct (should_memoize (level node) d.1 forceMemoize) eqn:Hdec.
  - apply bind_Ok in Hrun as (s3 & Hscopes & Hrun). simplify_eq. simpl in *.
    assert (solver_step
              (add_memoized id (update_identifier id mark_identifier_memoized d.2)) s3)
      as Hstep2.
    { eapply (for_of_preorder _ solver_step); [|apply Hscopes].
      intros x a a' _. apply forceMemoizeScopeDependencies_step. }
    pose proof (visit_scopes_keep _ _ _ _ _ Hnode Hstep Hstep2) as Hkeep3.
    assert (read_memoized id s3 = true) as Hr by (unfold read_memoized; by rewrite Hkeep3).
    rewrite Hr. split_and!; try done. split; [done|].
    intros _. destruct Hstep2 as (_ & _ & Hsub & _). apply Hsub. simpl.
    apply elem_of_union_l. by apply elem_of_singleton.
  - simplify_eq. simpl in *.
    assert (read_memoized id d.2 = false) as Hr by (unfold read_memoized; by rewrite Hkeep).
    rewrite Hr. split_and!; try done. split; [|done].
    intros Hin. destruct Hstep as (_ & _ & _ & _ & _ & Hc & _).
    destruct (Hc id Hin) as [Hold|(n & n' & Hn & Hs & _)]; [done|].
    erewrite lookup_update_identifier_eq in Hn by done. by simplify_eq.
Qed.


(** ** The solver terminates *)

Lemma elem_of_unseen_identifiers st id :
  id ∈ unseen_identifiers st ↔ ∃ n, identifiers st !! id = Some n ∧ seen n = false.
Proof.
  unfold unseen_identifiers. rewrite elem_of_dom. unfold is_Some.
  setoid_rewrite map_lookup_filter_Some. simpl. naive_solver.
Qed.

Lemma elem_of_unseen_scopes st id :
  id ∈ unseen_scopes st ↔ ∃ n, state_scopes st !! id = Some n ∧ scope_seen n = false.
Proof.
  unfold unseen_scopes. rewrite elem_of_dom. unfold is_Some.
  setoid_rewrite map_lookup_filter_Some. simpl. naive_solver.
Qed.

Lemma unseen_identifiers_step s s' :
  solver_step s s' → unseen_identifiers (graph s') ⊆ unseen_identifiers (graph s).
Proof.
  intros Hstep id. rewrite !elem_of_unseen_identifiers.
  intros (n' & Hn' & Hseen). by eapply solver_step_unseen_inv.
Qed.

Lemma unseen_scopes_step s s' :
  solver_step s s' → unseen_scopes (graph s') ⊆ unseen_scopes (graph s).
Proof.
  intros Hstep id. rewrite !elem_of_unseen_scopes.
  intros (n' & Hn' & Hseen).
  destruct (solver_step_scope_lookup_inv _ _ _ _ Hstep Hn') as (n & Hn & _ & Hmono).
  exists n. split; [done|]. destruct (scope_seen n); [|done].
  rewrite Hmono in Hseen; done.
Qed.

Lemma unseen_nodes_step s s' :
  solver_step s s' → unseen_nodes (graph s') ≤ unseen_nodes (graph s).
Proof.
  intros Hstep. unfold unseen_nodes.
  pose proof (subseteq_size _ _ (unseen_identifiers_step _ _ Hstep)).
  pose proof (subseteq_size _ _ (unseen_scopes_step _ _ Hstep)).
  lia.
Qed.

(** Marking an unmarked identifier node lowers the measure. *)
Lemma unseen_nodes_mark_identifier s id node :
  identifiers (graph s) !! id = Some node → seen node = false →
  unseen_nodes (graph (update_identifier id mark_identifier_seen s))
    < unseen_nodes (graph s).
Proof.
  intros Hn Hseen. unfold unseen_nodes.
  assert (unseen_identifiers (graph (update_identifier id mark_identifier_seen s))
            ⊂ unseen_identifiers (graph s)) as Hsub.
  { apply strict_spec_alt. split.
    - intros id'. rewrite !elem_of_unseen_identifiers, lookup_update_identifier.
      case_decide; [subst id'|done].
      rewrite Hn. simpl. intros (n & ? & ?). by simplify_eq.
    - intros Heq.
      assert (id ∈ unseen_identifiers (graph s)) as Hin
        by (apply elem_of_unseen_identifiers; eauto).
      rewrite <- Heq in Hin. apply elem_of_unseen_identifiers in Hin as (n & Hn' & Hs).
      erewrite lookup_update_identifier_eq in Hn' by done. by simplify_eq. }
  apply subset_size in Hsub.
  change (unseen_scopes (graph (update_identifier id mark_identifier_seen s)))
    with (unseen_scopes (graph s)).
  lia.
Qed.

(** Marking an unmarked scope node lowers the measure. *)
Lemma unseen_nodes_mark_scope s id node :
  state_scopes (graph s) !! id = Some node → scope_seen node = false →
  unseen_nodes (graph (update_scope id mark_scope_seen s)) < unseen_nodes (graph s).
Proof.
  intros Hn Hseen. unfold unseen_nodes.
  assert (unseen_scopes (graph (update_scope id mark_scope_seen s))
            ⊂ unseen_scopes (graph s)) as Hsub.
  { apply strict_spec_alt. split.
    - intros id'. rewrite !elem_of_unseen_scopes, lookup_update_scope.
      case_decide; [subst id'|done].
      rewrite Hn. simpl. intros (n & ? & ?). by simplify_eq.
    - intros Heq.
      assert (id ∈ unseen_scopes (graph s)) as Hin
        by (apply elem_of_unseen_scopes; eauto).
      rewrite <- Heq in Hin. apply elem_of_unseen_scopes in Hin as (n & Hn' & Hs).
      rewrite lookup_update_scope, decide_True, Hn in Hn' by done.
      simpl in Hn'. by simplify_eq. }
  apply subset_size in Hsub.
  change (unseen_identifiers (graph (update_scope id mark_scope_seen s)))
    with (unseen_identifiers (graph s)).
  lia.
Qed.

(** Memoizing a node does not change the measure upwards. *)
Lemma unseen_nodes_memoize s id :
  unseen_nodes (graph (add_memoized id (update_identifier id mark_identifier_memoized s)))
    ≤ unseen_nodes (graph s).
Proof.
  unfold unseen_nodes. rewrite graph_add_memoized.
  assert (unseen_identifiers (graph (update_identifier id mark_identifier_memoized s))
            ⊆ unseen_identifiers (graph s)) as Hsub.
  { intros id'. rewrite !elem_of_unseen_identifiers, lookup_update_identifier.
    case_decide; [subst id'|done].
    destruct (identifiers (graph s) !! id) as [n|]; simpl; [|naive_solver].
    intros (n' & ? & ?). simplify_eq. eauto. }
  apply subseteq_size in Hsub.
  change (unseen_scopes (graph (update_identifier id mark_identifier_memoized s)))
    with (unseen_scopes (graph s)).
  lia.
Qed.

(** A loop does not run out of fuel when its iterations do not, on the
    states that an invariant of the loop describes. *)
Lemma for_of_fuel {A S : Type} (body : A → S → result S) (P : S → Prop) (xs : list A) :
  (∀ x s, P s → body x s ≠ OutOfFuel) →
  (∀ x s s', P s → body x s = Ok s' → P s') →
  ∀ s, P s → for_of body xs s ≠ OutOfFuel.
Proof.
  intros Hfuel Hinv. induction xs as [|x xs IH]; intros s HP; [done|].
  rewrite for_of_cons. specialize (Hfuel x s HP).
  destruct (body x s) as [s'| |] eqn:Hbody; simpl; [|done|done].
  apply IH. by eapply Hinv.
Qed.

Lemma visit_force_terminates fuel :
  (∀ id force s, unseen_nodes (graph s) < fuel → visit fuel id force s ≠ OutOfFuel)
  ∧ (∀ id s, unseen_nodes (graph s) < fuel →
       forceMemoizeScopeDependencies fuel id s ≠ OutOfFuel).
Proof.
  induction fuel as [|fuel [IHv IHf]]; [split; intros; lia|].
  split.
  - intros id force s Hlt. rewrite visit_S.
    destruct (identifiers (graph s) !! id) as [node|] eqn:Hnode; [|done].
    destruct (seen node) eqn:Hseen; [done|].
    pose proof (unseen_nodes_mark_identifier _ _ _ Hnode Hseen) as Hmark.
    destruct (visit_dependencies (visit fuel) (dependencies node)
                (update_identifier id mark_identifier_seen s)) as [d| |] eqn:Hdeps;
      simpl; [|done|].
    + pose proof (visit_dependencies_step _ _ _ _ (visit_step fuel) Hdeps) as Hstep.
      apply unseen_nodes_step in Hstep.
      destruct (should_memoize (level node) d.1 force); [|done].
      pose proof (unseen_nodes_memoize d.2 id) as Hmem.
      destruct (for_of (forceMemoizeScopeDependencies fuel) (scopes node)
                  (add_memoized id (update_identifier id mark_identifier_memoized d.2)))
        as [s3| |] eqn:Hscopes; simpl; [done|done|].
      exfalso. revert Hscopes.
      apply (for_of_fuel _ (λ s', unseen_nodes (graph s') < fuel)); [|  |lia].
      * intros x s' Hs'. by apply IHf.
      * intros x s' s'' Hs' Hrun.
        apply forceMemoizeScopeDependencies_step, unseen_nodes_step in Hrun. lia.
    + exfalso. revert Hdeps. unfold visit_dependencies.
      apply (for_of_fuel _ (λ acc : bool * Solver, unseen_nodes (graph acc.2) < fuel));
        [| |cbn [snd]; lia].
      * intros x acc Hacc. specialize (IHv x false acc.2 Hacc).
        by destruct (visit fuel x false acc.2).
      * intros x acc acc' Hacc Hrun. apply bind_Ok in Hrun as (r & Hr & Heq).
        simplify_eq. simpl. apply visit_step, unseen_nodes_step in Hr. lia.
  - intros id s Hlt. rewrite forceMemoizeScopeDependencies_S.
    destruct (state_scopes (graph s) !! id) as [node|] eqn:Hnode; [|done].
    destruct (scope_seen node) eqn:Hseen; [done|].
    pose proof (unseen_nodes_mark_scope _ _ _ Hnode Hseen) as Hmark.
    apply (for_of_fuel _ (λ s', unseen_nodes (graph s') < fuel)); [| |lia].
    + intros x s' Hs'. specialize (IHv x true s' Hs').
      by destruct (visit fuel x true s').
    + intros x s' s'' Hs' Hrun. apply bind_Ok in Hrun as (r & Hr & Heq).
      simplify_eq. apply visit_step, unseen_nodes_step in Hr. lia.
Qed.




Lemma solve_terminates fuel state :
  unseen_nodes state < fuel → solve fuel state ≠ OutOfFuel.
Proof.
  intros Hlt. unfold solve.
  apply (for_of_fuel _ (λ s', unseen_nodes (graph s') < fuel)); [| |done].
  - intros x s' Hs'. pose proof (proj1 (visit_force_terminates fuel) x false s' Hs').
    by destruct (visit fuel x false s').
  - intros x s' s'' Hs' Hrun. apply bind_Ok in Hrun as (r & Hr & Heq).
    simplify_eq. apply visit_step, unseen_nodes_step in Hr. lia.
Qed.


Lemma solve_step fuel state s :
  solve fuel state = Ok s → solver_step {| graph := state; memoized_set := ∅ |} s.
Proof.
  unfold solve. apply (for_of_preorder _ solver_step).
  intros x a a' _ Hrun. apply bind_Ok in Hrun as (r & Hr & Heq).
  simplify_eq. by eapply visit_step.
Qed.



Lemma computeMemoizedIdentifiers_fuelled (state : State) :
  computeMemoizedIdentifiers state ≠ OutOfFuel.
Proof.
  unfold computeMemoizedIdentifiers, computeMemoizedIdentifiers_fuel.
  pose proof (solve_terminates (S (unseen_nodes state)) state) as Hsolve.
  destruct (solve (S (unseen_nodes state)) state); [done|done|].
  exfalso. apply Hsolve; [lia|done].
Qed.


(** ** Levels and the output set *)

(** Whatever the solver puts into its output set is an identifier whose
    node was unmarked and is now marked and memoized. *)
Lemma solve_memoized fuel state s id :
  solve fuel state = Ok s → id ∈ memoized_set s →
  ∃ n n', identifiers state !! id = Some n ∧ seen n = false
          ∧ identifiers (graph s) !! id = Some n' ∧ seen n' = true
          ∧ memoized n' = true ∧ node_step n n'.
Proof.
  intros Hsolve Hin. pose proof (solve_step _ _ _ Hsolve) as Hstep.
  pose proof Hstep as (_ & _ & _ & _ & _ & Hc & _).
  destruct (Hc id Hin) as [Hold|(n & n' & Hn & Hseen & Hn' & Hseen' & Hmem)].
  { by apply not_elem_of_empty in Hold. }
  exists n, n'. split_and!; try done.
  destruct (solver_step_lookup _ _ _ _ Hstep Hn) as (m & Hm & Hnode).
  rewrite Hn' in Hm. by simplify_eq.
Qed.

(** ** Why an identifier is in the output set *)

Lemma forced_by_scope_step s s' id :
  solver_step s s' → forced_by_scope s id → forced_by_scope s' id.
Proof.
  intros Hstep (sid & n & Hn & Hseen & Hin).
  destruct (solver_step_scope_lookup _ _ _ _ Hstep Hn) as (n' & Hn' & Hdeps & Hmono).
  exists sid, n'. split_and!; [done|auto|by rewrite Hdeps].
Qed.

Lemma justified_ext s s' id n n' :
  justified s id n → level n' = level n → dependencies n' = dependencies n →
  (∀ x, forced_by_scope s x → forced_by_scope s' x) →
  memoized_set s ⊆ memoized_set s' →
  justified s' id n'.
Proof.
  intros Hj Hl Hd Hf Hm. unfold justified in *. rewrite Hl, Hd.
  destruct Hj as [?|[[? [?|(dep & ? & ?)]]|[? ?]]]; [by left| | |].
  - right; left. split; [done|]. left. auto.
  - right; left. split; [done|]. right. exists dep. split; [done|]. by apply Hm.
  - right; right. auto.
Qed.

Lemma flags_in_set_step s s' :
  solver_step s s' → flags_in_set s → flags_in_set s'.
Proof.
  intros Hstep Hflags id n' Hn' Hmem.
  destruct (solver_step_lookup_inv _ _ _ _ Hstep Hn') as (n & Hn & Hnode).
  pose proof Hstep as (_ & _ & Hsub & _ & _ & _ & Hnew).
  pose proof Hnode as (_ & _ & _ & Hfrozen & _ & _ & Hunseen).
  destruct (seen n') eqn:Hseen'.
  - destruct (seen n) eqn:Hseen.
    + rewrite (Hfrozen eq_refl) in Hmem. apply Hsub. by eapply Hflags.
    + apply Hnew. by exists n, n'.
  - rewrite (Hunseen eq_refl) in Hmem. apply Hsub. by eapply Hflags.
Qed.

Lemma flags_in_set_mark_seen s id :
  flags_in_set s → flags_in_set (update_identifier id mark_identifier_seen s).
Proof.
  intros Hflags id' n. rewrite lookup_update_identifier.
  case_decide; [subst id'|apply Hflags].
  destruct (identifiers (graph s) !! id); simpl; intros; by simplify_eq.
Qed.

Lemma set_justified_mark_seen s id :
  set_justified s → set_justified (update_identifier id mark_identifier_seen s).
Proof.
  intros Hj id' Hin. destruct (Hj id' Hin) as (n & Hn & Hjn).
  rewrite lookup_update_identifier. case_decide; [subst id'|by exists n].
  rewrite Hn. simpl. eexists. split; [done|].
  by eapply justified_ext.
Qed.

Lemma flags_in_set_memoize s id :
  flags_in_set s →
  flags_in_set (add_memoized id (update_identifier id mark_identifier_memoized s)).
Proof.
  intros Hflags id' n. rewrite graph_add_memoized, lookup_update_identifier. simpl.
  case_decide; [subst id'; set_solver|].
  intros Hn Hmem. apply elem_of_union_r. by eapply Hflags.
Qed.

Lemma set_justified_memoize s id n :
  set_justified s → identifiers (graph s) !! id = Some n → justified s id n →
  set_justified (add_memoized id (update_identifier id mark_identifier_memoized s)).
Proof.
  intros Hj Hn Hjn id' Hin.
  rewrite graph_add_memoized, lookup_update_identifier.
  assert (memoized_set s
            ⊆ memoized_set (add_memoized id (update_identifier id mark_identifier_memoized s)))
    as Hsub by (simpl; set_solver).
  case_decide; [subst id'|].
  - rewrite Hn. simpl. eexists. split; [done|]. by eapply justified_ext.
  - assert (id' ∈ memoized_set s) as Hin' by (simpl in Hin; set_solver).
    destruct (Hj id' Hin') as (n' & Hn' & Hjn'). exists n'. split; [done|].
    by eapply justified_ext.
Qed.

Lemma set_justified_mark_scope s sid :
  set_justified s → set_justified (update_scope sid mark_scope_seen s).
Proof.
  intros Hj id' Hin. destruct (Hj id' Hin) as (n & Hn & Hjn).
  exists n. split; [done|]. eapply justified_ext; [done..| |done].
  intros x (sid' & m & Hm & Hseen & Hx).
  exists sid'. rewrite lookup_update_scope. case_decide; [subst sid'|eauto].
  rewrite Hm. simpl. eauto.
Qed.

(** The memoized dependency that makes a [Conditional] node memoized is in
    the output set. *)
Lemma should_memoize_justified s sd id node d force :
  flags_in_set sd →
  (d = true ↔ ∃ dep, dep ∈ dependencies node ∧ read_memoized dep sd = true) →
  (force = true → forced_by_scope s id) →
  (∀ x, forced_by_scope s x → forced_by_scope sd x) →
  should_memoize (level node) d force = true →
  justified sd id (mark_identifier_seen node).
Proof.
  intros Hflags Hd Hforce Hmono Hdec. apply should_memoize_spec in Hdec.
  unfold justified. simpl.
  destruct Hdec as [?|[[? [Hdep|Hf]]|[? Hf]]]; [by left| | |].
  - right; left. split; [done|]. right.
    apply Hd in Hdep as (dep & Hin & Hread). exists dep. split; [done|].
    unfold read_memoized in Hread.
    destruct (identifiers (graph sd) !! dep) as [nd|] eqn:Hnd; [|done].
    by eapply Hflags.
  - right; left. split; [done|]. left. auto.
  - right; right. auto.
Qed.

Lemma visit_force_justified fuel :
  (∀ id force s r,
     flags_in_set s → set_justified s → (force = true → forced_by_scope s id) →
     visit fuel id force s = Ok r → set_justified r.2)
  ∧ (∀ sid s s',
       flags_in_set s → set_justified s →
       forceMemoizeScopeDependencies fuel sid s = Ok s' → set_justified s').
Proof.
  induction fuel as [|fuel [IHv IHf]]; [by split|].
  split.
  - intros id force s r Hflags Hj Hforce Hrun. rewrite visit_S in Hrun.
    destruct (identifiers (graph s) !! id) as [node|] eqn:Hnode; [|done].
    destruct (seen node) eqn:Hseen; [by simplify_eq|].
    apply bind_Ok in Hrun as (d & Hdeps & Hrun).
    pose proof (visit_dependencies_step _ _ _ _ (visit_step fuel) Hdeps) as Hstep.
    pose proof (visit_dependencies_keep _ _ _ _ Hnode Hstep) as Hkeep.
    pose proof (visit_dependencies_result _ _ _ _ Hdeps) as Hres.
    assert (flags_in_set d.2) as Hflagsd
      by (eapply flags_in_set_step; [done|by apply flags_in_set_mark_seen]).
    assert (set_justified d.2) as Hjd.
    { unfold visit_dependencies in Hdeps.
      apply (for_of_invariant
               (λ acc : bool * Solver, flags_in_set acc.2 ∧ set_justified acc.2)
               _ _ _ _ Hdeps); simpl.
      - split; [by apply flags_in_set_mark_seen|by apply set_justified_mark_seen].
      - intros x acc acc' _ [Hf1 Hj1] Hbody.
        apply bind_Ok in Hbody as (r' & Hr' & Heq). simplify_eq. simpl. split.
        + eapply flags_in_set_step; [by eapply visit_step|done].
        + by eapply (IHv x false acc.2 r'). }
    destruct (should_memoize (level node) d.1 force) eqn:Hdec; [|by simplify_eq].
    apply bind_Ok in Hrun as (s3 & Hscopes & Hrun). simplify_eq. simpl.
    apply (for_of_invariant (λ acc : Solver, flags_in_set acc ∧ set_justified acc)
             _ _ _ _ Hscopes).
    + split; [by apply flags_in_set_memoize|].
      eapply set_justified_memoize; [done|done|].
      eapply (should_memoize_justified s); [done|done|done| |done].
      intros x Hx.
      apply (forced_by_scope_step (update_identifier id mark_identifier_seen s)); done.
    + intros x acc acc' _ [Hf1 Hj1] Hbody. split.
      * eapply flags_in_set_step; [by eapply forceMemoizeScopeDependencies_step|done].
      * by eapply IHf.
  - intros sid s s' Hflags Hj Hrun. rewrite forceMemoizeScopeDependencies_S in Hrun.
    destruct (state_scopes (graph s) !! sid) as [node|] eqn:Hnode; [|done].
    destruct (scope_seen node) eqn:Hseen; [by simplify_eq|].
    apply (for_of_invariant
             (λ acc : Solver, flags_in_set acc ∧ set_justified acc
                              ∧ solver_step (update_scope sid mark_scope_seen s) acc)
             _ _ _ _ Hrun).
    + split_and!; [done|by apply set_justified_mark_scope|reflexivity].
    + intros x acc acc' Hx (Hf1 & Hj1 & Hs1) Hbody.
      apply bind_Ok in Hbody as (r' & Hr' & Heq). simplify_eq.
      pose proof (visit_step _ _ _ _ _ Hr') as Hstep'.
      split_and!.
      * by eapply flags_in_set_step.
      * eapply (IHv x true acc r'); [done|done| |done].
        intros _. eapply forced_by_scope_step; [exact Hs1|].
        exists sid, (mark_scope_seen node). split_and!; [|done|done].
        by rewrite lookup_update_scope, decide_True, Hnode.
      * by etransitivity.
Qed.

(** ** Returned identifiers *)

(** What holds of an element of the list after its own iteration, and is
    kept by the other iterations, holds of every element after the loop. *)
Lemma for_of_each {A S : Type} (Q : A → S → Prop) (body : A → S → result S)
    (xs : list A) (s s' : S) :
  for_of body xs s = Ok s' →
  (∀ x s s', body x s = Ok s' → Q x s') →
  (∀ x y s s', Q x s → body y s = Ok s' → Q x s') →
  ∀ x, x ∈ xs → Q x s'.
Proof.
  intros Hrun Hestablish Hkeep. revert s Hrun.
  induction xs as [|x0 xs IH]; intros s Hrun x Hin.
  - by apply not_elem_of_nil in Hin.
  - rewrite for_of_cons in Hrun. apply bind_Ok in Hrun as (s1 & H1 & H2).
    apply elem_of_cons in Hin as [->|Hin]; [|by eapply IH].
    apply (for_of_invariant (Q x0) _ _ _ _ H2); [by eapply Hestablish|].
    intros y t t' _ Ht Hbody. by eapply Hkeep.
Qed.

Lemma solve_returned_seen fuel state s id :
  solve fuel state = Ok s → id ∈ returned state →
  ∃ n', identifiers (graph s) !! id = Some n' ∧ seen n' = true.
Proof.
  intros Hsolve Hin. unfold solve in Hsolve.
  apply (for_of_each
           (λ id s, ∃ n', identifiers (graph s) !! id = Some n' ∧ seen n' = true)
           _ _ _ _ Hsolve); [| |done].
  - intros x a a' Hbody. apply bind_Ok in Hbody as (r & Hr & Heq). simplify_eq.
    destruct (visit_result _ _ _ _ _ Hr) as (n' & Hn' & Hseen' & _). eauto.
  - intros x y a a' (n' & Hn' & Hseen') Hbody.
    apply bind_Ok in Hbody as (r & Hr & Heq). simplify_eq.
    exists n'. split; [|done]. eapply solver_step_seen; [by eapply visit_step|done..].
Qed.

Lemma solve_justified fuel state s :
  fresh_state state → solve fuel state = Ok s → flags_in_set s ∧ set_justified s.
Proof.
  intros [Hfresh _] Hsolve. unfold solve in Hsolve.
  apply (for_of_invariant (λ acc : Solver, flags_in_set acc ∧ set_justified acc)
           _ _ _ _ Hsolve).
  - split.
    + intros id n Hn Hmem. destruct (Hfresh id n Hn) as [_ Hm]. congruence.
    + intros id Hin. by apply not_elem_of_empty in Hin.
  - intros x a a' _ [Hf Hj] Hbody. apply bind_Ok in Hbody as (r & Hr & Heq).
    simplify_eq. split.
    + eapply flags_in_set_step; [by eapply visit_step|done].
    + by eapply (proj1 (visit_force_justified fuel) x false a r).
Qed.

Lemma computeMemoizedIdentifiers_fuel_solve fuel state memo :
  computeMemoizedIdentifiers_fuel fuel state = Ok memo ↔
    ∃ s, solve fuel state = Ok s ∧ memo = memoized_set s.
Proof.
  unfold computeMemoizedIdentifiers_fuel. split.
  - intros Hrun. apply bind_Ok in Hrun as (s & Hs & Heq). simplify_eq. eauto.
  - intros (s & Hs & ->). by rewrite Hs.
Qed.

(** C4 (amended). When the solver has run on a freshly collected state,
    every returned identifier has a node; it is in the memoized set when
    its level is [Memoized] and is not when its level is [Never]; an
    [Unmemoized] one that no forced scope lists as a dependency is not in
    the set, and neither is a [Conditional] one that no forced scope lists
    and none of whose dependencies is in the set. *)
Theorem returned_coverage fuel state s id :
  fresh_state state → solve fuel state = Ok s → id ∈ returned state →
  ∃ node, identifiers state !! id = Some node
    ∧ (level node = Memoized → id ∈ memoized_set s)
    ∧ (level node = Never → id ∉ memoized_set s)
    ∧ (level node = Unmemoized → ¬ forced_by_scope s id → id ∉ memoized_set s)
    ∧ (level node = Conditional → ¬ forced_by_scope s id →
       (∀ dep, dep ∈ dependencies node → dep ∉ memoized_set s) →
       id ∉ memoized_set s).
Proof.
  intros Hfresh Hsolve Hret.
  destruct (solve_returned_seen _ _ _ _ Hsolve Hret) as (n' & Hn' & Hseen').
  pose proof (solve_step _ _ _ Hsolve) as Hstep.
  destruct (solver_step_lookup_inv _ _ _ _ Hstep Hn') as (node & Hnode & Hnstep).
  simpl in Hnode. exists node. split; [done|].
  destruct (proj1 Hfresh id node Hnode) as [Hunseen _].
  destruct (solve_justified _ _ _ Hfresh Hsolve) as [Hflags Hjust].
  pose proof Hnstep as (Hlev & Hdeps & _ & _ & Hmemo & Hnever & _).
  assert (∀ P : Prop, id ∈ memoized_set s → (justified s id n' → P) → P) as Hwhy.
  { intros P Hin HP. destruct (Hjust id Hin) as (m & Hm & Hj).
    rewrite Hn' in Hm. simplify_eq. auto. }
  split_and!.
  - intros Hl. eapply Hflags; [done|]. by apply Hmemo.
  - intros Hl Hin. destruct (solve_memoized _ _ _ _ Hsolve Hin)
      as (m & m' & Hm & _ & Hm' & _ & Hmem & _).
    rewrite Hn' in Hm'. simplify_eq. by apply Hnever.
  - intros Hl Hnf Hin. apply (Hwhy False Hin). unfold justified.
    rewrite Hlev, Hl. intros [?|[[? _]|[_ ?]]]; done.
  - intros Hl Hnf Hnd Hin. apply (Hwhy False Hin). unfold justified.
    rewrite Hlev, Hdeps, Hl. intros [?|[[_ [?|(dep & Hd & Hm)]]|[? _]]]; try done.
    by apply (Hnd dep).
Qed.

(** ** The collector as a sequence of events

    Which hooks the traversal calls does not depend on the state, so the
    traversal is a loop over the list of the events of the function. *)

Section Events.

Variable getPlaceScope : InstructionId → Place → option ReactiveScope.
Variable eachReactiveValueOperand : ReactiveValue → list Place.
Variable options : MemoizationOptions.

#[local] Abbreviation run := (run_events getPlaceScope eachReactiveValueOperand options).

Lemma run_events_app es1 es2 st :
  run (es1 ++ es2) st = run es1 st ≫= run es2.
Proof. apply for_of_app. Qed.

(** A loop over a list of lists of events. *)
Lemma for_of_events {A : Type} (f : A → State → result State) (ev : A → list CollectorEvent)
    (xs : list A) :
  Forall (λ x, ∀ st, f x st = run (ev x) st) xs →
  ∀ st, for_of f xs st = run (concat (map ev xs)) st.
Proof.
  induction 1 as [|x xs Hx Hxs IH]; intros st; [done|].
  rewrite for_of_cons. simpl. rewrite run_events_app, Hx.
  destruct (run (ev x) st); simpl; [apply IH|done|done].
Qed.

Fixpoint traverseValue_events (value : ReactiveValue) {struct value} :
  ∀ st, traverseValue getPlaceScope eachReactiveValueOperand options value st
        = run (value_events value) st
with visitInstruction_events (instruction : ReactiveInstruction) {struct instruction} :
  ∀ st, visitInstruction getPlaceScope eachReactiveValueOperand options instruction st
        = run (instruction_events instruction) st.
Proof.
  - destruct value; intros st; try reflexivity.
    + simpl. rewrite run_events_app, (traverseValue_events value1).
      destruct (run (value_events value1) st) as [st1| |]; simpl; [|done|done].
      rewrite run_events_app, (traverseValue_events value2).
      destruct (run (value_events value2) st1) as [st2| |]; simpl; [|done|done].
      apply traverseValue_events.
    + simpl. rewrite run_events_app, (traverseValue_events value1).
      destruct (run (value_events value1) st) as [st1| |]; simpl; [|done|done].
      apply traverseValue_events.
    + simpl. rewrite run_events_app.
      rewrite (for_of_events _ instruction_events).
      * destruct (run (concat (map instruction_events instructions)) st)
          as [st1| |]; simpl; [|done|done].
        apply traverseValue_events.
      * clear st. induction instructions as [|i rest IH]; constructor; [|exact IH].
        apply visitInstruction_events.
  - destruct instruction as [id lvalue value]. intros st.
    simpl. rewrite run_events_app, (traverseValue_events value).
    destruct (run (value_events value) st) as [st1| |]; simpl; [|done|done].
    by destruct (collectInstruction _ _ _ _ st1).
Qed.

Fixpoint visitStatement_events (stmt : ReactiveStatement) {struct stmt} :
  ∀ st, visitStatement getPlaceScope eachReactiveValueOperand options stmt st
        = run (statement_events stmt) st
with visitTerminal_events (terminal : ReactiveTerminal) {struct terminal} :
  ∀ st, visitTerminal getPlaceScope eachReactiveValueOperand options terminal st
        = run (terminal_events terminal) st
with visitTerminalChild_events (child : TerminalChild) {struct child} :
  ∀ st, visitTerminalChild getPlaceScope eachReactiveValueOperand options child st
        = run (child_events child) st.
Proof.
  - destruct stmt as [instruction|scope instructions|terminal]; intros st; simpl.
    + apply visitInstruction_events.
    + apply for_of_events.
      induction instructions as [|i rest IH]; constructor; [|exact IH].
      apply visitStatement_events.
    + apply visitTerminal_events.
  - destruct terminal as [[place|]|children]; intros st; simpl; [done|done|].
    apply for_of_events.
    induction children as [|c rest IH]; constructor; [|exact IH].
    apply visitTerminalChild_events.
  - destruct child as [value|block]; intros st; simpl.
    + apply traverseValue_events.
    + apply for_of_events.
      induction block as [|i rest IH]; constructor; [|exact IH].
      apply visitStatement_events.
Qed.

Lemma visitBlock_events (block : list ReactiveStatement) (st : State) :
  visitBlock getPlaceScope eachReactiveValueOperand options block st
  = run (block_events block) st.
Proof.
  unfold visitBlock, block_events. apply for_of_events.
  induction block as [|i rest IH]; constructor; [|exact IH].
  apply visitStatement_events.
Qed.

Lemma collectDependencies_events (fn : ReactiveFunction) :
  collectDependencies getPlaceScope eachReactiveValueOperand fn options
  = run (block_events (body fn)) (declare_function fn).
Proof. apply visitBlock_events. Qed.

End Events.

(** ** The collector: what an event may change *)

#[global] Instance node_grows_preorder : PreOrder node_grows.
Proof.
  split.
  - intros n. unfold node_grows, level_le. by split_and!.
  - intros a b c (Hl1 & Hd1 & Hs1 & Hseen1 & Hm1) (Hl2 & Hd2 & Hs2 & Hseen2 & Hm2).
    unfold node_grows, level_le in *. split_and!; [lia|set_solver|set_solver|congruence..].
Qed.

#[global] Instance collect_step_preorder : PreOrder collect_step.
Proof.
  split.
  - intros st. split_and!; try done. intros id n Hn. by exists n.
  - intros a b c (Hi1 & Hs1 & Hd1 & Hr1) (Hi2 & Hs2 & Hd2 & Hr2). split_and!.
    + intros id n Hn. destruct (Hi1 id n Hn) as (n1 & Hn1 & Hg1).
      destruct (Hi2 id n1 Hn1) as (n2 & Hn2 & Hg2).
      exists n2. split; [done|]. by etransitivity.
    + auto.
    + auto.
    + set_solver.
Qed.

Lemma elem_of_set_add x y xs : x ∈ set_add y xs ↔ x = y ∨ x ∈ xs.
Proof. unfold set_add. case_decide; set_solver. Qed.

Lemma set_add_subseteq y xs : xs ⊆ set_add y xs.
Proof. intros x Hx. apply elem_of_set_add. by right. Qed.

Lemma set_add_NoDup y xs : NoDup xs → NoDup (set_add y xs).
Proof.
  intros Hnd. unfold set_add. case_decide; [done|].
  apply NoDup_app. split_and!; [done| |apply NoDup_singleton].
  intros x Hx Hy. apply list_elem_of_singleton in Hy. by subst.
Qed.

Lemma level_le_joinAliases_l a b : level_le a (joinAliases a b).
Proof. unfold level_le. rewrite level_rank_joinAliases. lia. Qed.

Lemma level_le_joinAliases_r a b : level_le b (joinAliases a b).
Proof. unfold level_le. rewrite level_rank_joinAliases. lia. Qed.

Section CollectorFacts.

Variable getPlaceScope : InstructionId → Place → option ReactiveScope.
Variable eachReactiveValueOperand : ReactiveValue → list Place.
Variable options : MemoizationOptions.

#[local] Abbreviation reported := (classifications eachReactiveValueOperand options).

Lemma visitOperand_Ok id place identifier st st' :
  visitOperand getPlaceScope id place identifier st = Ok st' →
  (getPlaceScope id place = None ∧ st' = st)
  ∨ (∃ scope node,
       getPlaceScope id place = Some scope
       ∧ identifiers st !! identifier = Some node
       ∧ st' = set_identifiers
                 (insert identifier (add_scope (scope_id scope) node))
                 (with_scope scope st)).
Proof.
  unfold visitOperand. intros Hrun.
  destruct (getPlaceScope id place) as [scope|]; [|left; by simplify_eq].
  right. exists scope.
  change (match state_scopes st !! scope_id scope with
          | Some _ => st
          | None => _
          end) with (with_scope scope st) in Hrun.
  assert (identifiers (with_scope scope st) = identifiers st) as Hids
    by (unfold with_scope; by destruct (state_scopes st !! scope_id scope)).
  rewrite Hids in Hrun.
  destruct (identifiers st !! identifier) as [node|]; [|done].
  exists node. by simplify_eq.
Qed.

Lemma with_scope_lookup scope st :
  is_Some (state_scopes (with_scope scope st) !! scope_id scope).
Proof.
  unfold with_scope. destruct (state_scopes st !! scope_id scope) eqn:Hs; [by rewrite Hs|].
  simpl. rewrite lookup_insert_eq. eauto.
Qed.

Lemma with_scope_keeps scope st sid n :
  state_scopes st !! sid = Some n → state_scopes (with_scope scope st) !! sid = Some n.
Proof.
  intros Hn. unfold with_scope.
  destruct (state_scopes st !! scope_id scope) eqn:Hs; [done|].
  simpl. rewrite lookup_insert_ne; [done|]. intros Heq. rewrite Heq in Hs. congruence.
Qed.

Lemma with_scope_new scope st sid n :
  state_scopes (with_scope scope st) !! sid = Some n →
  state_scopes st !! sid = Some n ∨ n = new_scope_node scope.
Proof.
  unfold with_scope. destruct (state_scopes st !! scope_id scope) eqn:Hs; [by left|].
  simpl. rewrite lookup_insert. case_decide; [|by left].
  intros. simplify_eq. by right.
Qed.

Lemma visitOperand_step id place identifier st st' :
  visitOperand getPlaceScope id place identifier st = Ok st' → collect_step st st'.
Proof.
  intros Hrun.
  apply visitOperand_Ok in Hrun as [[_ ->]|(scope & node & _ & Hnode & ->)]; [reflexivity|].
  split_and!.
  - intros x n Hn. simpl.
    replace (identifiers (with_scope scope st)) with (identifiers st)
      by (unfold with_scope; by destruct (state_scopes st !! scope_id scope)).
    rewrite lookup_insert. case_decide; [subst x|by exists n].
    rewrite Hnode in Hn. simplify_eq. eexists. split; [done|].
    unfold node_grows, level_le. simpl. split_and!; try done. apply set_add_subseteq.
  - intros sid n Hn. simpl. by apply with_scope_keeps.
  - intros k Hk. simpl. unfold with_scope.
    by destruct (state_scopes st !! scope_id scope).
  - simpl. unfold with_scope. by destruct (state_scopes st !! scope_id scope).
Qed.

Lemma visitOperand_definitions id place identifier st st' :
  visitOperand getPlaceScope id place identifier st = Ok st' →
  definitions st' = definitions st ∧ returned st' = returned st.
Proof.
  intros Hrun.
  apply visitOperand_Ok in Hrun as [[_ ->]|(scope & node & _ & Hnode & ->)]; [done|].
  simpl. unfold with_scope. by destruct (state_scopes st !! scope_id scope).
Qed.

Lemma visitOperand_level id place identifier st st' x :
  visitOperand getPlaceScope id place identifier st = Ok st' →
  level_of st' x = level_of st x
  ∧ (is_Some (identifiers st' !! x) ↔ is_Some (identifiers st !! x)).
Proof.
  intros Hrun.
  apply visitOperand_Ok in Hrun as [[_ ->]|(scope & node & _ & Hnode & ->)]; [done|].
  unfold level_of. simpl.
  replace (identifiers (with_scope scope st)) with (identifiers st)
    by (unfold with_scope; by destruct (state_scopes st !! scope_id scope)).
  rewrite lookup_insert. case_decide; [subst x|done].
  rewrite Hnode. simpl. split; [done|]. split; eauto.
Qed.

Lemma visitOperand_inv id place identifier st st' :
  visitOperand getPlaceScope id place identifier st = Ok st' →
  collector_inv st → collector_inv st'.
Proof.
  intros Hrun ([Hfresh Hfreshs] & Hclosed & Hdefs & Hself).
  apply visitOperand_Ok in Hrun as [[_ ->]|(scope & node & _ & Hnode & ->)]; [done|].
  assert (identifiers (with_scope scope st) = identifiers st) as Hids
    by (unfold with_scope; by destruct (state_scopes st !! scope_id scope)).
  assert (definitions (with_scope scope st) = definitions st) as Hd
    by (unfold with_scope; by destruct (state_scopes st !! scope_id scope)).
  split_and!; [split|..]; simpl; rewrite ?Hids, ?Hd.
  - intros x n. rewrite lookup_insert. case_decide; [subst x|by apply Hfresh].
    intros. simplify_eq. simpl. by apply (Hfresh identifier).
  - intros sid n Hn. apply with_scope_new in Hn as [Hn| ->]; [by eapply Hfreshs|done].
  - intros x n. rewrite lookup_insert. case_decide; [subst x|].
    + intros ? sid Hsid. simplify_eq. simpl in Hsid.
      apply elem_of_set_add in Hsid as [->|Hsid]; [apply with_scope_lookup|].
      destruct (Hclosed _ _ Hnode _ Hsid) as [m Hm]. exists m. by apply with_scope_keeps.
    + intros Hn sid Hsid. destruct (Hclosed _ _ Hn _ Hsid) as [m Hm].
      exists m. by apply with_scope_keeps.
  - intros k Hk. rewrite lookup_insert. case_decide; [eauto|by apply Hdefs].
  - intros x n. rewrite lookup_insert. case_decide; [subst x|by apply Hself].
    intros. simplify_eq. simpl. by apply (Hself identifier).
Qed.

Lemma resolve_resolve_with st id : resolve st id = resolve_with (definitions st) id.
Proof. reflexivity. Qed.

Lemma visit_rvalues_facts id rvalues st st' :
  visit_rvalues getPlaceScope id rvalues st = Ok st' →
  collect_step st st'
  ∧ definitions st' = definitions st ∧ returned st' = returned st
  ∧ (∀ x, level_of st' x = level_of st x
          ∧ (is_Some (identifiers st' !! x) ↔ is_Some (identifiers st !! x)))
  ∧ (collector_inv st → collector_inv st').
Proof.
  unfold visit_rvalues. intros Hrun.
  apply (for_of_invariant
           (λ st', collect_step st st'
                   ∧ definitions st' = definitions st ∧ returned st' = returned st
                   ∧ (∀ x, level_of st' x = level_of st x
                           ∧ (is_Some (identifiers st' !! x)
                              ↔ is_Some (identifiers st !! x)))
                   ∧ (collector_inv st → collector_inv st'))
           _ _ _ _ Hrun).
  - split_and!; try done; reflexivity.
  - intros operand a a' _ (Hstep & Hd & Hr & Hl & Hinv) Hbody.
    destruct (visitOperand_definitions _ _ _ _ _ Hbody) as [Hd' Hr'].
    split_and!; try congruence.
    + etransitivity; [done|]. by eapply visitOperand_step.
    + intros x. destruct (Hl x) as [Hl1 Hl2].
      destruct (visitOperand_level _ _ _ _ _ x Hbody) as [Hl3 Hl4].
      split; [congruence|]. by rewrite Hl4.
    + intros Hst. eapply visitOperand_inv; [done|]. auto.
Qed.

Lemma add_dependencies_facts st lvalueId rvalues node :
  let node' := add_dependencies st lvalueId node rvalues in
  level node' = level node ∧ scopes node' = scopes node
  ∧ seen node' = seen node ∧ memoized node' = memoized node
  ∧ (∀ x, x ∈ dependencies node' ↔
          x ∈ dependencies node
          ∨ (x ≠ lvalueId
             ∧ ∃ operand, operand ∈ rvalues
                          ∧ resolve st (identifier_id (identifier operand)) = x)).
Proof.
  unfold add_dependencies. revert node.
  induction rvalues as [|operand rvalues IH]; intros node; simpl.
  - split_and!; try done. intros x. split; [by left|].
    intros [?|(_ & operand & Hin & _)]; [done|]. by apply not_elem_of_nil in Hin.
  - match goal with |- context [foldl ?f ?n rvalues] => specialize (IH n) end.
    simpl in IH. destruct IH as (Hl & Hs & Hseen & Hm & Hd).
    case_decide as Hself; simpl in *.
    + split_and!; try done. intros x. rewrite Hd. split.
      * intros [?|(Hne & op & Hin & Hop)]; [by left|].
        right. split; [done|]. exists op. split; [by right|done].
      * intros [?|(Hne & op & Hin & Hop)]; [by left|].
        apply elem_of_cons in Hin as [->|Hin]; [congruence|].
        right. split; [done|]. by exists op.
    + split_and!; try done. intros x. rewrite Hd, elem_of_set_add. split.
      * intros [[->|?]|(Hne & op & Hin & Hop)].
        -- right. split; [done|]. exists operand. split; [by left|done].
        -- by left.
        -- right. split; [done|]. exists op. split; [by right|done].
      * intros [?|(Hne & op & Hin & Hop)]; [left; by right|].
        apply elem_of_cons in Hin as [->|Hin]; [left; by left|].
        right. split; [done|]. by exists op.
Qed.

Lemma visit_lvalue_unfold id rvalues lv st :
  visit_lvalue getPlaceScope id rvalues lv st
  = visitOperand getPlaceScope id (lv_place lv)
      (resolve st (identifier_id (identifier (lv_place lv))))
      (set_identifiers
         (insert (resolve st (identifier_id (identifier (lv_place lv))))
                 (lvalue_node st rvalues lv)) st).
Proof. reflexivity. Qed.

Lemma store_lvalue_node_step st rvalues lv :
  collect_step st
    (set_identifiers
       (insert (resolve st (identifier_id (identifier (lv_place lv))))
               (lvalue_node st rvalues lv)) st).
Proof.
  split_and!; try done. intros x n Hn. simpl.
  rewrite lookup_insert. case_decide; [subst x|by exists n].
  eexists. split; [done|]. unfold lvalue_node. rewrite Hn.
  match goal with |- context [add_dependencies ?s ?l ?n0 ?r] =>
    destruct (add_dependencies_facts s l r n0) as (Hl & Hs & Hseen & Hm & Hd) end.
  unfold node_grows. rewrite Hl, Hs, Hseen, Hm. simpl.
  split_and!; try done.
  - apply level_le_joinAliases_l.
  - intros d Hin. apply Hd. by left.
Qed.

Lemma store_lvalue_node_inv st rvalues lv :
  collector_inv st →
  collector_inv
    (set_identifiers
       (insert (resolve st (identifier_id (identifier (lv_place lv))))
               (lvalue_node st rvalues lv)) st).
Proof.
  intros ([Hfresh Hfreshs] & Hclosed & Hdefs & Hself).
  set (lvalueId := resolve st (identifier_id (identifier (lv_place lv)))).
  assert (∃ n0, lvalue_node st rvalues lv
                  = add_dependencies st lvalueId
                      (set_level (joinAliases (level n0) (lv_level lv)) n0) rvalues
                ∧ seen n0 = false ∧ memoized n0 = false
                ∧ (lvalueId ∉ dependencies n0)
                ∧ (∀ sid, sid ∈ scopes n0 → is_Some (state_scopes st !! sid)))
    as (n0 & Heq & Hs0 & Hm0 & Hd0 & Hc0).
  { unfold lvalue_node. fold lvalueId.
    destruct (identifiers st !! lvalueId) as [n|] eqn:Hn.
    - exists n. destruct (Hfresh _ _ Hn). split_and!; eauto.
    - exists fresh_node. split_and!; try done.
      + apply not_elem_of_nil.
      + intros sid Hsid. by apply not_elem_of_nil in Hsid. }
  rewrite Heq.
  match goal with |- context [add_dependencies ?s ?l ?n1 ?r] =>
    destruct (add_dependencies_facts s l r n1) as (Hl & Hs & Hseen & Hm & Hd) end.
  simpl in *.
  split_and!; [split|..]; simpl.
  - intros x n. rewrite lookup_insert. case_decide; [subst x|by apply Hfresh].
    intros. simplify_eq. by rewrite Hseen, Hm.
  - done.
  - intros x n. rewrite lookup_insert. case_decide; [subst x|by apply Hclosed].
    intros ? sid Hsid. simplify_eq. rewrite Hs in Hsid. auto.
  - intros k Hk. rewrite lookup_insert. case_decide; [eauto|by apply Hdefs].
  - intros x n. rewrite lookup_insert. case_decide; [subst x|by apply Hself].
    intros. simplify_eq. rewrite Hd. intros [?|[? _]]; done.
Qed.

Lemma store_lvalue_node_level st rvalues lv x :
  level_of
    (set_identifiers
       (insert (resolve st (identifier_id (identifier (lv_place lv))))
               (lvalue_node st rvalues lv)) st) x
  = if decide (resolve st (identifier_id (identifier (lv_place lv))) = x)
    then joinAliases (level_of st x) (lv_level lv)
    else level_of st x.
Proof.
  unfold level_of at 1. simpl. rewrite lookup_insert.
  case_decide; [subst x|done].
  unfold lvalue_node.
  match goal with |- context [add_dependencies ?s ?l ?n1 ?r] =>
    destruct (add_dependencies_facts s l r n1) as (Hl & _) end.
  rewrite Hl. simpl. unfold level_of.
  by destruct (identifiers st !! resolve st (identifier_id (identifier (lv_place lv)))).
Qed.

Lemma visit_lvalue_facts id rvalues lv st st' :
  visit_lvalue getPlaceScope id rvalues lv st = Ok st' →
  collect_step st st'
  ∧ definitions st' = definitions st ∧ returned st' = returned st
  ∧ (∀ x, level_of st' x
          = if decide (resolve st (identifier_id (identifier (lv_place lv))) = x)
            then joinAliases (level_of st x) (lv_level lv)
            else level_of st x)
  ∧ is_Some (identifiers st' !! resolve st (identifier_id (identifier (lv_place lv))))
  ∧ (collector_inv st → collector_inv st').
Proof.
  rewrite visit_lvalue_unfold. intros Hrun.
  destruct (visitOperand_definitions _ _ _ _ _ Hrun) as [Hd Hr].
  split_and!; try done.
  - etransitivity; [apply (store_lvalue_node_step st rvalues lv)|].
    by eapply visitOperand_step.
  - intros x. destruct (visitOperand_level _ _ _ _ _ x Hrun) as [Hl _].
    rewrite Hl. apply store_lvalue_node_level.
  - destruct (visitOperand_level _ _ _ _ _
                (resolve st (identifier_id (identifier (lv_place lv)))) Hrun) as [_ Hs].
    apply Hs. simpl. rewrite lookup_insert_eq. eauto.
  - intros Hinv. eapply visitOperand_inv; [done|]. by apply store_lvalue_node_inv.
Qed.

(** The check of [visitOperand] cannot fail on an lvalue: its node has
    just been stored. *)
Lemma visit_lvalue_Ok id rvalues lv st :
  ∃ st', visit_lvalue getPlaceScope id rvalues lv st = Ok st'.
Proof.
  rewrite visit_lvalue_unfold. unfold visitOperand.
  destruct (getPlaceScope id (lv_place lv)) as [scope|]; [|eauto].
  match goal with
  | |- context [identifiers ?st1 !! ?k] =>
      assert (is_Some (identifiers st1 !! k)) as [n Hn]
  end.
  { destruct (state_scopes _ !! scope_id scope); simpl; rewrite lookup_insert_eq; eauto. }
  rewrite Hn. eauto.
Qed.

Lemma visit_lvalues_facts id rvalues lvs st st' :
  for_of (visit_lvalue getPlaceScope id rvalues) lvs st = Ok st' →
  collect_step st st'
  ∧ definitions st' = definitions st ∧ returned st' = returned st
  ∧ (∀ x, level_of st' x
          = foldl joinAliases (level_of st x) (lvalue_levels (definitions st) lvs x))
  ∧ (∀ lv, lv ∈ lvs →
           is_Some (identifiers st'
                      !! resolve st (identifier_id (identifier (lv_place lv)))))
  ∧ (collector_inv st → collector_inv st').
Proof.
  revert st. induction lvs as [|lv lvs IH]; intros st Hrun.
  - rewrite for_of_nil in Hrun. simplify_eq.
    split_and!; [reflexivity|done|done|done| |done].
    intros lv Hin. by apply not_elem_of_nil in Hin.
  - rewrite for_of_cons in Hrun. apply bind_Ok in Hrun as (st1 & Hlv & Hrest).
    apply visit_lvalue_facts in Hlv as (Hs1 & Hd1 & Hr1 & Hl1 & Hn1 & Hi1).
    apply IH in Hrest as (Hs2 & Hd2 & Hr2 & Hl2 & Hn2 & Hi2).
    split_and!; try congruence.
    + by etransitivity.
    + intros x. rewrite Hl2, Hl1, Hd1. unfold lvalue_levels.
      rewrite filter_cons. rewrite resolve_resolve_with.
      case_decide; [|done]. by rewrite fmap_cons.
    + intros lv' Hin. apply elem_of_cons in Hin as [->|Hin].
      * destruct Hn1 as [n Hn]. destruct Hs2 as (Hids & _).
        destruct (Hids _ _ Hn) as (n' & Hn' & _). eauto.
      * specialize (Hn2 lv' Hin). unfold resolve in *. by rewrite <- Hd1.
    + auto.
Qed.

Lemma record_definition_definitions instruction st :
  definitions (record_definition instruction st)
  = definitions_after instruction (definitions st).
Proof.
  unfold record_definition, definitions_after.
  destruct (instruction_value instruction); try done.
  by destruct (instruction_lvalue instruction).
Qed.

Lemma record_definition_other instruction st :
  identifiers (record_definition instruction st) = identifiers st
  ∧ state_scopes (record_definition instruction st) = state_scopes st
  ∧ returned (record_definition instruction st) = returned st.
Proof.
  unfold record_definition.
  destruct (instruction_value instruction); try done.
  by destruct (instruction_lvalue instruction).
Qed.

Lemma collectInstruction_facts instruction st st' :
  collectInstruction getPlaceScope eachReactiveValueOperand options instruction st = Ok st' →
  ∃ aliasing,
    computeMemoizationInputs eachReactiveValueOperand (instruction_value instruction)
      (instruction_lvalue instruction) options = Ok aliasing
    ∧ collect_step st st'
    ∧ definitions st' = definitions_after instruction (definitions st)
    ∧ returned st' = returned st
    ∧ (∀ x, level_of st' x
            = foldl joinAliases (level_of st x)
                (lvalue_levels (definitions st) (lvalues aliasing) x))
    ∧ (∀ lv, lv ∈ lvalues aliasing →
             is_Some (identifiers st'
                        !! resolve st (identifier_id (identifier (lv_place lv))))
             ∧ (collector_inv st →
                is_Some (identifiers st' !! identifier_id (identifier (lv_place lv)))))
    ∧ (collector_inv st → collector_inv st').
Proof.
  unfold collectInstruction. intros Hrun.
  apply bind_Ok in Hrun as (aliasing & Hal & Hrun).
  apply bind_Ok in Hrun as (st1 & Hrv & Hrun).
  apply bind_Ok in Hrun as (st2 & Hlv & Hrun). simplify_eq.
  exists aliasing. split; [done|].
  apply visit_rvalues_facts in Hrv as (Hs1 & Hd1 & Hr1 & Hl1 & Hi1).
  apply visit_lvalues_facts in Hlv as (Hs2 & Hd2 & Hr2 & Hl2 & Hn2 & Hi2).
  destruct (record_definition_other instruction st2) as (Hids & Hscs & Hret).
  assert (∀ lv, lv ∈ lvalues aliasing →
                is_Some (identifiers st2
                           !! resolve st (identifier_id (identifier (lv_place lv)))))
    as Hres.
  { intros lv Hin. specialize (Hn2 lv Hin). unfold resolve in *. by rewrite <- Hd1. }
  assert (∀ lv, lv ∈ lvalues aliasing → collector_inv st →
                is_Some (identifiers st2 !! identifier_id (identifier (lv_place lv))))
    as Hraw.
  { intros lv Hin Hinv. specialize (Hres lv Hin). unfold resolve in Hres.
    destruct (definitions st !! identifier_id (identifier (lv_place lv))) eqn:Hdef; [|done].
    destruct Hinv as (_ & _ & Hk & _).
    destruct (Hk (identifier_id (identifier (lv_place lv)))) as [n0 Hn]; [by rewrite Hdef|].
    destruct Hs1 as (Hids1 & _). destruct (Hids1 _ _ Hn) as (n1 & Hn1 & _).
    destruct Hs2 as (Hids2 & _). destruct (Hids2 _ _ Hn1) as (n2 & Hn2' & _). eauto. }
  split_and!.
  - transitivity st2; [by etransitivity|].
    split_and!; try (rewrite ?Hids, ?Hscs, ?Hret; done).
    + intros x n Hn. rewrite Hids. by exists n.
    + intros k Hk. rewrite record_definition_definitions. unfold definitions_after.
      destruct (instruction_value instruction); try done.
      destruct (instruction_lvalue instruction); [|done].
      rewrite lookup_insert. case_decide; eauto.
  - rewrite record_definition_definitions. congruence.
  - congruence.
  - intros x. unfold level_of at 1. rewrite Hids.
    change (match identifiers st2 !! x with Some n => level n | None => Never end)
      with (level_of st2 x).
    rewrite Hl2, Hd1. by destruct (Hl1 x) as [-> _].
  - intros lv Hin. rewrite Hids. split; [by apply Hres|by apply Hraw].
  - intros Hinv. pose proof (Hi2 (Hi1 Hinv)) as ([Hf1 Hf2] & Hclosed & Hk & Hself).
    unfold collector_inv, fresh_state. rewrite Hids, Hscs.
    split_and!; [done|done|done| |done].
    intros k. rewrite record_definition_definitions. unfold definitions_after.
    destruct (instruction_value instruction) eqn:Hv; try apply Hk.
    destruct (instruction_lvalue instruction) as [lvalue|] eqn:Hlvalue; [|apply Hk].
    rewrite lookup_insert. case_decide; [subst k|apply Hk].
    intros _. apply (Hraw (mkLValue lvalue Conditional)); [|done].
    rewrite ?Hv, ?Hlvalue in Hal. simpl in Hal. simplify_eq. simpl. by left.
Qed.

Lemma run_events_facts es st st' :
  run_events getPlaceScope eachReactiveValueOperand options es st = Ok st' →
  collect_step st st'
  ∧ (collector_inv st → collector_inv st')
  ∧ (∀ x, level_of st' x
          = foldl joinAliases (level_of st x) (reported (definitions st) es x))
  ∧ (collector_inv st →
     ∀ instruction aliasing lv,
       InstructionEvent instruction ∈ es →
       computeMemoizationInputs eachReactiveValueOperand (instruction_value instruction)
         (instruction_lvalue instruction) options = Ok aliasing →
       lv ∈ lvalues aliasing →
       is_Some (identifiers st' !! identifier_id (identifier (lv_place lv))))
  ∧ (∀ id, ReturnEvent id ∈ es → id ∈ returned st').
Proof.
  revert st. induction es as [|e es IH]; intros st Hrun.
  - unfold run_events in Hrun. rewrite for_of_nil in Hrun. simplify_eq.
    split_and!; [reflexivity|done|done| |].
    + intros _ i a lv Hin. by apply not_elem_of_nil in Hin.
    + intros id Hin. by apply not_elem_of_nil in Hin.
  - unfold run_events in Hrun. rewrite for_of_cons in Hrun.
    apply bind_Ok in Hrun as (st1 & He & Hrest).
    apply IH in Hrest as (Hs2 & Hi2 & Hl2 & Hn2 & Hr2).
    destruct e as [instruction|id]; simpl in He.
    + apply collectInstruction_facts in He
        as (aliasing & Hal & Hs1 & Hd1 & Hr1 & Hl1 & Hn1 & Hi1).
      split_and!.
      * by etransitivity.
      * auto.
      * intros x. rewrite Hl2, Hl1, Hd1. simpl. unfold instruction_levels.
        rewrite Hal. by rewrite foldl_app.
      * intros Hinv i a lv Hin Ha Hlv.
        apply elem_of_cons in Hin as [Heq|Hin]; [|by eapply Hn2; eauto].
        simplify_eq. rewrite Hal in Ha. simplify_eq. destruct (Hn1 lv Hlv) as [_ Hraw].
        destruct (Hraw Hinv) as [n Hn]. destruct Hs2 as (Hids & _).
        destruct (Hids _ _ Hn) as (n' & Hn' & _). eauto.
      * intros id Hin. apply elem_of_cons in Hin as [?|Hin]; [done|auto].
    + simplify_eq. split_and!.
      * etransitivity; [|done]. split_and!; try done.
        -- intros x n Hn. by exists n.
        -- simpl. apply set_add_subseteq.
      * intros Hinv. apply Hi2. done.
      * intros x. by rewrite Hl2.
      * intros Hinv i a lv Hin Ha Hlv.
        apply elem_of_cons in Hin as [?|Hin]; [done|].
        eapply Hn2; eauto.
      * intros id' Hin. apply elem_of_cons in Hin as [Heq|Hin]; [|auto].
        simplify_eq. destruct Hs2 as (_ & _ & _ & Hsub). apply Hsub. simpl.
        apply elem_of_set_add. by left.
Qed.

(** The state in which the collector starts: the function's own id and the
    parameters are declared, with level [Never]. *)
Lemma foldl_declare_lookup (ps : list Place) (st : State) (x : IdentifierId) :
  identifiers (foldl (λ state param, declare (identifier_id (identifier param)) state) st ps)
    !! x
  = if decide (x ∈ (λ p, identifier_id (identifier p)) <$> ps) then Some fresh_node
    else identifiers st !! x.
Proof.
  revert st. induction ps as [|p ps IH]; intros st.
  - done.
  - cbn [foldl]. rewrite IH, fmap_cons. unfold declare. cbn [identifiers set_identifiers].
    destruct (decide (x ∈ (λ p, identifier_id (identifier p)) <$> ps)) as [Hin|Hnin].
    + rewrite decide_True; [done|]. by right.
    + rewrite lookup_insert. case_decide as Heq.
      * rewrite decide_True; [done|]. rewrite Heq. by left.
      * rewrite decide_False; [done|]. intros Hin.
        apply elem_of_cons in Hin as [?|?]; done.
Qed.

Lemma foldl_declare_other (ps : list Place) (st : State) :
  let st' := foldl (λ state param, declare (identifier_id (identifier param)) state) st ps in
  definitions st' = definitions st ∧ state_scopes st' = state_scopes st
  ∧ returned st' = returned st.
Proof.
  revert st. induction ps as [|p ps IH]; intros st; simpl; [done|].
  destruct (IH (declare (identifier_id (identifier p)) st)) as (-> & -> & ->). done.
Qed.

Lemma declare_function_lookup (fn : ReactiveFunction) (x : IdentifierId) (n : IdentifierNode) :
  identifiers (declare_function fn) !! x = Some n → n = fresh_node.
Proof.
  unfold declare_function. rewrite foldl_declare_lookup.
  case_decide; [by intros; simplify_eq|].
  destruct (fn_id fn) as [f|]; simpl; [|by rewrite lookup_empty].
  rewrite lookup_insert. case_decide; [by intros; simplify_eq|by rewrite lookup_empty].
Qed.

Lemma declare_function_declared (fn : ReactiveFunction) :
  (∀ f, fn_id fn = Some f →
        identifiers (declare_function fn) !! identifier_id f = Some fresh_node)
  ∧ (∀ p, p ∈ params fn →
          identifiers (declare_function fn) !! identifier_id (identifier p)
          = Some fresh_node).
Proof.
  unfold declare_function. split.
  - intros f Hf. rewrite foldl_declare_lookup, Hf. case_decide; [done|].
    simpl. apply lookup_insert_eq.
  - intros p Hp. rewrite foldl_declare_lookup, decide_True; [done|].
    apply list_elem_of_fmap. by exists p.
Qed.

Lemma declare_function_inv (fn : ReactiveFunction) : collector_inv (declare_function fn).
Proof.
  assert (definitions (declare_function fn) = ∅ ∧ state_scopes (declare_function fn) = ∅)
    as [Hd Hs].
  { unfold declare_function.
    match goal with |- context [foldl ?f ?s ?l] =>
      destruct (foldl_declare_other l s) as (Hd & Hs & _) end.
    simpl in *. rewrite Hd, Hs. by destruct (fn_id fn). }
  split_and!; [split|..].
  - intros x n Hn. by rewrite (declare_function_lookup _ _ _ Hn).
  - intros sid n. by rewrite Hs, lookup_empty.
  - intros x n Hn sid. rewrite (declare_function_lookup _ _ _ Hn). simpl.
    intros Hin. by apply not_elem_of_nil in Hin.
  - intros k. rewrite Hd, lookup_empty. by intros [? ?].
  - intros x n Hn. rewrite (declare_function_lookup _ _ _ Hn). apply not_elem_of_nil.
Qed.

Lemma declare_function_level (fn : ReactiveFunction) (x : IdentifierId) :
  level_of (declare_function fn) x = Never
  ∧ definitions (declare_function fn) = ∅.
Proof.
  split.
  - unfold level_of.
    destruct (identifiers (declare_function fn) !! x) as [n|] eqn:Hn; [|done].
    by rewrite (declare_function_lookup _ _ _ Hn).
  - unfold declare_function.
    match goal with |- context [foldl ?f ?s ?l] =>
      destruct (foldl_declare_other l s) as (Hd & _) end.
    simpl in *. rewrite Hd. by destruct (fn_id fn).
Qed.

(** Which identifiers have a node.  Only the loop over the lvalues stores
    new nodes, each under the identifier that its lvalue resolves to. *)
Lemma lvalue_levels_cons d lv lvs x :
  lvalue_levels d (lv :: lvs) x ≠ []
  ↔ resolve_with d (identifier_id (identifier (lv_place lv))) = x
    ∨ lvalue_levels d lvs x ≠ [].
Proof.
  unfold lvalue_levels. rewrite filter_cons. case_decide as Hres.
  - rewrite fmap_cons. split; [by left|done].
  - split; [by right|]. by intros [?|?].
Qed.

Lemma visit_lvalue_node_iff id rvalues lv st st' x :
  visit_lvalue getPlaceScope id rvalues lv st = Ok st' →
  is_Some (identifiers st' !! x)
  ↔ is_Some (identifiers st !! x)
    ∨ resolve st (identifier_id (identifier (lv_place lv))) = x.
Proof.
  rewrite visit_lvalue_unfold. intros Hrun.
  destruct (visitOperand_level _ _ _ _ _ x Hrun) as [_ ->]. simpl.
  rewrite lookup_insert. case_decide as Hres.
  - split; [by right|eauto].
  - split; [by left|]. by intros [?|?].
Qed.

Lemma visit_lvalues_node_iff id rvalues lvs st st' x :
  for_of (visit_lvalue getPlaceScope id rvalues) lvs st = Ok st' →
  is_Some (identifiers st' !! x)
  ↔ is_Some (identifiers st !! x) ∨ lvalue_levels (definitions st) lvs x ≠ [].
Proof.
  revert st. induction lvs as [|lv lvs IH]; intros st Hrun.
  - rewrite for_of_nil in Hrun. simplify_eq. split; [by left|]. by intros [?|?].
  - rewrite for_of_cons in Hrun. apply bind_Ok in Hrun as (st1 & Hlv & Hrest).
    rewrite (IH _ Hrest), (visit_lvalue_node_iff _ _ _ _ _ _ Hlv), lvalue_levels_cons.
    apply visit_lvalue_facts in Hlv as (_ & -> & _).
    rewrite resolve_resolve_with. tauto.
Qed.

Lemma collectInstruction_node_iff instruction st st' x :
  collectInstruction getPlaceScope eachReactiveValueOperand options instruction st = Ok st' →
  is_Some (identifiers st' !! x)
  ↔ is_Some (identifiers st !! x)
    ∨ instruction_levels eachReactiveValueOperand options (definitions st) instruction x
      ≠ [].
Proof.
  unfold collectInstruction. intros Hrun.
  apply bind_Ok in Hrun as (aliasing & Hal & Hrun).
  apply bind_Ok in Hrun as (st1 & Hrv & Hrun).
  apply bind_Ok in Hrun as (st2 & Hlv & Hrun). simplify_eq.
  destruct (record_definition_other instruction st2) as (-> & _).
  rewrite (visit_lvalues_node_iff _ _ _ _ _ _ Hlv).
  apply visit_rvalues_facts in Hrv as (_ & -> & _ & Hsame & _).
  destruct (Hsame x) as [_ ->]. unfold instruction_levels. by rewrite Hal.
Qed.

Lemma run_events_node_iff es st st' x :
  run_events getPlaceScope eachReactiveValueOperand options es st = Ok st' →
  is_Some (identifiers st' !! x)
  ↔ is_Some (identifiers st !! x) ∨ reported (definitions st) es x ≠ [].
Proof.
  revert st. induction es as [|e es IH]; intros st Hrun.
  - unfold run_events in Hrun. rewrite for_of_nil in Hrun. simplify_eq.
    split; [by left|]. by intros [?|?].
  - unfold run_events in Hrun. rewrite for_of_cons in Hrun.
    apply bind_Ok in Hrun as (st1 & He & Hrest). rewrite (IH _ Hrest).
    destruct e as [instruction|id]; simpl in He.
    + rewrite (collectInstruction_node_iff _ _ _ _ He).
      apply collectInstruction_facts in He as (_ & _ & _ & -> & _). simpl.
      destruct (instruction_levels _ _ (definitions st) instruction x); simpl; [tauto|].
      split; [intros _; by right|intros _; left; by right].
    + by simplify_eq.
Qed.

Lemma declare_function_node_iff (fn : ReactiveFunction) (x : IdentifierId) :
  is_Some (identifiers (declare_function fn) !! x)
  ↔ fn_id fn = Some (mkIdentifier x)
    ∨ x ∈ (λ p, identifier_id (identifier p)) <$> params fn.
Proof.
  unfold declare_function. rewrite foldl_declare_lookup. case_decide as Hin.
  - split; [by right|eauto].
  - destruct (fn_id fn) as [[f]|]; simpl.
    + rewrite lookup_insert. case_decide as Hf.
      * subst f. split; [by left|eauto].
      * rewrite lookup_empty. split; [by intros [? ?]|].
        intros [?|?]; [congruence|done].
    + rewrite lookup_empty. split; [by intros [? ?]|]. by intros [?|?].
Qed.

End CollectorFacts.

(** ** When the solver aborts *)

Lemma for_of_throw {A S : Type} (P : S → Prop) (body : A → S → result S)
    (xs : list A) (s : S) (e : error) :
  for_of body xs s = Throw e →
  P s →
  (∀ x s s', x ∈ xs → P s → body x s = Ok s' → P s') →
  ∃ x s', x ∈ xs ∧ P s' ∧ body x s' = Throw e.
Proof.
  revert s. induction xs as [|x xs IH]; intros s Hrun HP Hbody; [done|].
  rewrite for_of_cons in Hrun.
  destruct (body x s) as [s1| |] eqn:Hx; simpl in Hrun; [| |done].
  - destruct (IH s1 Hrun) as (y & s' & Hy & HP' & Hthrow).
    + eapply Hbody; [left|done..].
    + intros y t t' Hy. apply Hbody. by right.
    + exists y, s'. split_and!; [by right|done..].
  - simplify_eq. exists x, s. split_and!; [left|done..].
Qed.

Lemma scopes_closed_step s s' :
  solver_step s s' → scopes_closed (graph s) → scopes_closed (graph s').
Proof.
  intros Hstep Hclosed id n' Hn' sid Hsid.
  destruct (solver_step_lookup_inv _ _ _ _ Hstep Hn') as (n & Hn & _ & _ & Hscopes & _).
  rewrite Hscopes in Hsid. destruct (Hclosed _ _ Hn _ Hsid) as [m Hm].
  destruct (solver_step_scope_lookup _ _ _ _ Hstep Hm) as (m' & Hm' & _). eauto.
Qed.

Lemma identifiers_closed_step s s' :
  solver_step s s' → identifiers_closed (graph s) → identifiers_closed (graph s').
Proof.
  intros Hstep [Hdeps Hsdeps]. split.
  - intros id n' Hn' d Hd.
    destruct (solver_step_lookup_inv _ _ _ _ Hstep Hn') as (n & Hn & _ & Heq & _).
    rewrite Heq in Hd. destruct (Hdeps _ _ Hn _ Hd) as [m Hm].
    destruct (solver_step_lookup _ _ _ _ Hstep Hm) as (m' & Hm' & _). eauto.
  - intros sid n' Hn' d Hd.
    destruct (solver_step_scope_lookup_inv _ _ _ _ Hstep Hn') as (n & Hn & Heq & _).
    rewrite Heq in Hd. destruct (Hsdeps _ _ Hn _ Hd) as [m Hm].
    destruct (solver_step_lookup _ _ _ _ Hstep Hm) as (m' & Hm' & _). eauto.
Qed.

Lemma is_Some_step s s' id :
  solver_step s s' → is_Some (identifiers (graph s) !! id) →
  is_Some (identifiers (graph s') !! id).
Proof.
  intros Hstep [n Hn]. destruct (solver_step_lookup _ _ _ _ Hstep Hn) as (n' & Hn' & _).
  eauto.
Qed.

(** Marking or memoizing a node keeps the graph closed. *)
Lemma closed_update_identifier id f s :
  (∀ n, dependencies (f n) = dependencies n ∧ scopes (f n) = scopes n) →
  (scopes_closed (graph s) → scopes_closed (graph (update_identifier id f s)))
  ∧ (identifiers_closed (graph s) → identifiers_closed (graph (update_identifier id f s)))
  ∧ (∀ x, is_Some (identifiers (graph s) !! x) →
          is_Some (identifiers (graph (update_identifier id f s)) !! x)).
Proof.
  intros Hf.
  assert (∀ x, is_Some (identifiers (graph s) !! x) →
               is_Some (identifiers (graph (update_identifier id f s)) !! x)) as Hsome.
  { intros x [n Hn]. rewrite lookup_update_identifier. case_decide; [subst x|eauto].
    rewrite Hn. simpl. eauto. }
  split_and!; [| |done].
  - intros Hclosed x n. rewrite lookup_update_identifier. case_decide; [subst x|].
    + destruct (identifiers (graph s) !! id) as [m|] eqn:Hm; simpl; [|done].
      intros ? sid Hsid. simplify_eq. destruct (Hf m) as [_ Heq]. rewrite Heq in Hsid.
      by eapply Hclosed.
    + intros Hn sid Hsid. by eapply Hclosed.
  - intros [Hdeps Hsdeps]. split.
    + intros x n. rewrite lookup_update_identifier. case_decide; [subst x|].
      * destruct (identifiers (graph s) !! id) as [m|] eqn:Hm; simpl; [|done].
        intros ? d Hd. simplify_eq. destruct (Hf m) as [Heq _]. rewrite Heq in Hd.
        apply Hsome. by eapply Hdeps.
      * intros Hn d Hd. apply Hsome. by eapply Hdeps.
    + intros sid n Hn d Hd. apply Hsome. by eapply Hsdeps.
Qed.

Lemma visit_force_throw fuel :
  (∀ id force s e,
     scopes_closed (graph s) → visit fuel id force s = Throw e →
     e = ExpectedNodeForIdentifier
     ∧ (identifiers_closed (graph s) → identifiers (graph s) !! id = None))
  ∧ (∀ sid s e,
       scopes_closed (graph s) → is_Some (state_scopes (graph s) !! sid) →
       forceMemoizeScopeDependencies fuel sid s = Throw e →
       e = ExpectedNodeForIdentifier ∧ ¬ identifiers_closed (graph s)).
Proof.
  induction fuel as [|fuel [IHv IHf]]; [by split|].
  split.
  - intros id force s e Hsc Hrun. rewrite visit_S in Hrun.
    destruct (identifiers (graph s) !! id) as [node|] eqn:Hnode; [|by simplify_eq].
    destruct (seen node) eqn:Hseen; [done|].
    destruct (closed_update_identifier id mark_identifier_seen s) as (Hsc1 & Hic1 & Hsome1);
      [done|].
    destruct (visit_dependencies (visit fuel) (dependencies node)
                (update_identifier id mark_identifier_seen s)) as [d| |] eqn:Hdeps;
      simpl in Hrun; [| |done].
    + pose proof (visit_dependencies_step _ _ _ _ (visit_step fuel) Hdeps) as Hstep.
      destruct (should_memoize (level node) d.1 force); [|done].
      destruct (closed_update_identifier id mark_identifier_memoized d.2)
        as (Hsc2 & Hic2 & Hsome2); [done|].
      destruct (for_of (forceMemoizeScopeDependencies fuel) (scopes node)
                  (add_memoized id (update_identifier id mark_identifier_memoized d.2)))
        as [s3| |] eqn:Hscopes; simpl in Hrun; [done| |done].
      simplify_eq.
      apply (for_of_throw
               (λ acc, solver_step
                         (add_memoized id
                            (update_identifier id mark_identifier_memoized d.2)) acc))
        in Hscopes as (sid & acc & Hsid & Hacc & Hthrow); [|reflexivity|].
      * assert (scopes_closed (graph d.2)) as Hscd
          by (eapply scopes_closed_step; [done|auto]).
        destruct (IHf sid acc e) as [-> Hnot]; [| |done|].
        -- eapply scopes_closed_step; [done|]. rewrite graph_add_memoized. auto.
        -- destruct (Hsc _ _ Hnode _ Hsid) as [m Hm].
           destruct (solver_step_scope_lookup _ _ _ _ Hstep Hm) as (m' & Hm' & _).
           destruct (solver_step_scope_lookup _ _ _ _ Hacc Hm') as (m'' & Hm'' & _).
           eauto.
        -- split; [done|]. intros Hic. exfalso. apply Hnot.
           eapply identifiers_closed_step; [done|]. rewrite graph_add_memoized.
           apply Hic2. eapply identifiers_closed_step; [done|]. auto.
      * intros x a a' _ Ha Hbody. etransitivity; [done|].
        by eapply forceMemoizeScopeDependencies_step.
    + simplify_eq. unfold visit_dependencies in Hdeps.
      apply (for_of_throw
               (λ acc : bool * Solver,
                  solver_step (update_identifier id mark_identifier_seen s) acc.2))
        in Hdeps as (dep & acc & Hdep & Hacc & Hthrow); [|reflexivity|].
      * simpl in Hacc.
        destruct (visit fuel dep false acc.2) as [r| |] eqn:Hvisit; simpl in Hthrow;
          [done| |done].
        simplify_eq.
        destruct (IHv dep false acc.2 e) as [-> Hnone]; [|done|].
        -- eapply scopes_closed_step; [done|auto].
        -- split; [done|]. intros Hic. exfalso.
           assert (is_Some (identifiers (graph acc.2) !! dep)) as [m Hm].
           { eapply is_Some_step; [done|]. apply Hsome1.
             destruct Hic as [Hdeps _]. by eapply Hdeps. }
           rewrite Hnone in Hm; [done|].
           eapply identifiers_closed_step; [done|auto].
      * intros x a a' _ Ha Hbody. apply bind_Ok in Hbody as (r & Hr & Heq).
        simplify_eq. simpl in *. etransitivity; [done|]. by eapply visit_step.
  - intros sid s e Hsc [node Hnode] Hrun.
    rewrite forceMemoizeScopeDependencies_S, Hnode in Hrun.
    destruct (scope_seen node) eqn:Hseen; [done|].
    pose proof (update_scope_step _ _ _ Hnode) as Hstep0.
    apply (for_of_throw (λ acc, solver_step (update_scope sid mark_scope_seen s) acc))
      in Hrun as (dep & acc & Hdep & Hacc & Hthrow); [|reflexivity|].
    + destruct (visit fuel dep true acc) as [r| |] eqn:Hvisit; simpl in Hthrow;
        [done| |done].
      simplify_eq.
      assert (solver_step s acc) as Hstep by (by etransitivity).
      destruct (IHv dep true acc e) as [-> Hnone]; [|done|].
      * by eapply scopes_closed_step.
      * split; [done|]. intros Hic.
        assert (is_Some (identifiers (graph acc) !! dep)) as [m Hm].
        { eapply is_Some_step; [done|]. destruct Hic as [_ Hsdeps]. by eapply Hsdeps. }
        rewrite Hnone in Hm; [done|]. by eapply identifiers_closed_step.
    + intros x a a' _ Ha Hbody. apply bind_Ok in Hbody as (r & Hr & Heq).
      simplify_eq. etransitivity; [done|]. by eapply visit_step.
Qed.

Lemma solve_throw fuel state e :
  scopes_closed state → solve fuel state = Throw e →
  e = ExpectedNodeForIdentifier
  ∧ ¬ (identifiers_closed state
       ∧ ∀ id, id ∈ returned state → is_Some (identifiers state !! id)).
Proof.
  intros Hsc Hrun. unfold solve in Hrun.
  apply (for_of_throw (λ acc, solver_step {| graph := state; memoized_set := ∅ |} acc))
    in Hrun as (id & acc & Hid & Hacc & Hthrow); [|reflexivity|].
  - destruct (visit fuel id false acc) as [r| |] eqn:Hvisit; simpl in Hthrow;
      [done| |done].
    simplify_eq.
    destruct (proj1 (visit_force_throw fuel) id false acc e) as [-> Hnone]; [|done|].
    + by eapply (scopes_closed_step {| graph := state; memoized_set := ∅ |}).
    + split; [done|]. intros [Hic Hret].
      assert (is_Some (identifiers (graph acc) !! id)) as [m Hm].
      { eapply is_Some_step; [done|]. simpl. auto. }
      rewrite Hnone in Hm; [done|].
      by eapply (identifiers_closed_step {| graph := state; memoized_set := ∅ |}).
  - intros x a a' _ Ha Hbody. apply bind_Ok in Hbody as (r & Hr & Heq).
    simplify_eq. etransitivity; [done|]. by eapply visit_step.
Qed.

(** ** The classification of JSX *)

Lemma foldl_push {A B : Type} (f : B → A) (xs : list B) (acc : list A) :
  foldl (λ acc x, acc ++ [f x]) acc xs = acc ++ (f <$> xs).
Proof.
  revert acc. induction xs as [|x xs IH]; intros acc; simpl.
  - by rewrite app_nil_r.
  - rewrite IH. by rewrite <- app_assoc.
Qed.

Lemma jsx_operands_spec tag props children :
  jsx_operands tag props children
  = tag :: (jsx_prop_operand <$> props) ++ default [] children.
Proof.
  unfold jsx_operands.
  assert (∀ acc, foldl (λ operands prop,
                          match prop with
                          | JsxAttribute p => operands ++ [p]
                          | JsxSpreadAttribute a => operands ++ [a]
                          end) acc props
                 = acc ++ (jsx_prop_operand <$> props)) as ->.
  { induction props as [|prop props IH]; intros acc; simpl.
    - by rewrite app_nil_r.
    - rewrite IH. destruct prop; simpl; by rewrite <- app_assoc. }
  destruct children as [cs|]; simpl.
  - rewrite (foldl_push (λ c, c)). by rewrite list_fmap_id.
  - by rewrite app_nil_r.
Qed.

(** C6. For a [JsxExpression] or a [JsxFragment] with a non-null lvalue the
    only lvalue reported is that lvalue, at level [Memoized] when
    [memoizeJsxElements] is set and [Unmemoized] otherwise; the rvalues of an
    expression are its tag, then the place of every attribute or the
    argument of every spread, then every child, and the rvalues of a
    fragment are its children. *)
Theorem jsx_memoization_inputs
    (eachReactiveValueOperand : ReactiveValue → list Place)
    (options : MemoizationOptions) (lvalue : Place) :
  (∀ tag props children,
     computeMemoizationInputs eachReactiveValueOperand
       (JsxExpression tag props children) (Some lvalue) options
     = Ok {| lvalues :=
               [mkLValue lvalue
                  (if memoizeJsxElements options then Memoized else Unmemoized)];
             rvalues := tag :: (jsx_prop_operand <$> props) ++ default [] children |})
  ∧ (∀ children,
       computeMemoizationInputs eachReactiveValueOperand
         (JsxFragment children) (Some lvalue) options
       = Ok {| lvalues :=
                 [mkLValue lvalue
                    (if memoizeJsxElements options then Memoized else Unmemoized)];
               rvalues := children |}).
Proof.
  split.
  - intros tag props children. simpl. by rewrite jsx_operands_spec.
  - done.
Qed.

(** ** The pruning transform *)

Lemma hasMemoizedOutput_spec scope state :
  hasMemoizedOutput scope state = true ↔ has_memoized_output scope state.
Proof.
  unfold hasMemoizedOutput, has_memoized_output.
  rewrite orb_true_iff, !existsb_exists. split.
  - intros [(id & Hin & Hid)|(identifier & Hin & Hid)].
    + apply bool_decide_eq_true in Hid. exists id. split; [|done].
      left. by apply list_elem_of_In.
    + apply bool_decide_eq_true in Hid. exists (identifier_id identifier).
      split; [|done]. right. apply list_elem_of_fmap. exists identifier.
      split; [done|]. by apply list_elem_of_In.
  - intros (id & [Hin|Hin] & Hid).
    + left. exists id. split; [by apply list_elem_of_In|by apply bool_decide_eq_true].
    + right. apply list_elem_of_fmap in Hin as (identifier & -> & Hin).
      exists identifier. split; [by apply list_elem_of_In|by apply bool_decide_eq_true].
Qed.

Lemma block_scopes_app b1 b2 : block_scopes (b1 ++ b2) = block_scopes b1 ++ block_scopes b2.
Proof. unfold block_scopes. by rewrite map_app, concat_app. Qed.

Lemma splice_cons {A : Type} (f : A → list A) x xs :
  splice f (x :: xs) = f x ++ splice f xs.
Proof. reflexivity. Qed.

Lemma Forall_block_scopes_splice (P : ReactiveScope → Prop)
    (f : ReactiveStatement → list ReactiveStatement) (block : list ReactiveStatement) :
  Forall (λ stmt, Forall P (block_scopes (f stmt))) block →
  Forall P (block_scopes (splice f block)).
Proof.
  induction 1 as [|stmt block Hstmt Hblock IH]; [constructor|].
  rewrite splice_cons, block_scopes_app. apply Forall_app. by split.
Qed.

Fixpoint transformStatement_scopes (state : gset nat) (stmt : ReactiveStatement)
    {struct stmt} :
  Forall (λ scope, has_memoized_output scope state)
    (block_scopes (transformStatement state stmt))
with transformTerminal_scopes (state : gset nat) (terminal : ReactiveTerminal)
    {struct terminal} :
  Forall (λ scope, has_memoized_output scope state)
    (terminal_scopes (transformTerminal state terminal))
with transformTerminalChild_scopes (state : gset nat) (child : TerminalChild)
    {struct child} :
  Forall (λ scope, has_memoized_output scope state)
    (child_scopes (transformTerminalChild state child)).
Proof.
  - destruct stmt as [instruction|scope instructions|terminal]; simpl.
    + constructor.
    + assert (Forall (λ scope, has_memoized_output scope state)
                (block_scopes (splice (transformStatement state) instructions))) as Hin.
      { apply Forall_block_scopes_splice.
        induction instructions as [|i rest IH]; constructor; [|exact IH].
        apply transformStatement_scopes. }
      unfold transformScope.
      destruct (hasMemoizedOutput scope state) eqn:Hout; [|done].
      unfold block_scopes. simpl. rewrite app_nil_r.
      constructor; [by apply hasMemoizedOutput_spec|done].
    + unfold block_scopes. simpl. rewrite app_nil_r. apply transformTerminal_scopes.
  - destruct terminal as [value|children]; simpl; [constructor|].
    induction children as [|c rest IH]; simpl; [constructor|].
    apply Forall_app. split; [apply transformTerminalChild_scopes|exact IH].
  - destruct child as [value|block]; simpl; [constructor|].
    apply Forall_block_scopes_splice.
    induction block as [|i rest IH]; constructor; [|exact IH].
    apply transformStatement_scopes.
Qed.

(** C2. [transformScope] keeps a scope if and only if some identifier
    among the keys of its declarations or among its reassignments is in the
    memoized set, and otherwise replaces the scope statement by the scope's
    instructions, in their order; inside a block the statement stays in
    place or gives way to those instructions.  Consequently every scope
    left in a transformed block, at any depth, has a declared or reassigned
    identifier in the memoized set. *)
Theorem transformScope_keeps_memoized_outputs (state : gset nat) :
  (∀ scope instructions,
     (transformScope scope instructions state = Keep ↔ has_memoized_output scope state)
     ∧ (transformScope scope instructions state = ReplaceMany instructions
        ↔ ¬ has_memoized_output scope state))
  ∧ (∀ scope instructions rest,
       transformBlock state (ScopeStatement scope instructions :: rest)
       = (if hasMemoizedOutput scope state
          then [ScopeStatement scope (transformBlock state instructions)]
          else transformBlock state instructions)
         ++ transformBlock state rest)
  ∧ (∀ block scope,
       scope ∈ block_scopes (transformBlock state block) →
       has_memoized_output scope state).
Proof.
  split_and!.
  - intros scope instructions. rewrite <- hasMemoizedOutput_spec. unfold transformScope.
    destruct (hasMemoizedOutput scope state); split; split; done.
  - intros scope instructions rest. unfold transformBlock. rewrite splice_cons.
    simpl. unfold transformScope. by destruct (hasMemoizedOutput scope state).
  - intros block.
    assert (Forall (λ scope, has_memoized_output scope state)
              (block_scopes (transformBlock state block))) as Hall.
    { apply Forall_block_scopes_splice.
      induction block as [|i rest IH]; constructor; [|exact IH].
      apply transformStatement_scopes. }
    intros scope Hin. rewrite Forall_forall in Hall. by apply Hall.
Qed.

(** ** The collector: levels, definitions and nodes *)

Lemma foldl_joinAliases (a : MemoizationLevel) (ls : list MemoizationLevel) :
  foldl joinAliases a ls = joinAliases a (foldr joinAliases Never ls).
Proof.
  revert a. induction ls as [|l ls IH]; intros a; simpl.
  - by rewrite joinAliases_Never_r.
  - by rewrite IH, joinAliases_assoc.
Qed.

Lemma foldr_joinAliases_max (ls : list MemoizationLevel) :
  foldr joinAliases Never ls = foldr level_max Never ls.
Proof. induction ls as [|l ls IH]; simpl; [done|]. by rewrite IH, joinAliases_max. Qed.

Lemma level_rank_foldr_max (ls : list MemoizationLevel) :
  level_rank (foldr level_max Never ls) = max_list (level_rank <$> ls).
Proof.
  induction ls as [|l ls IH]; simpl; [done|].
  by rewrite <- joinAliases_max, level_rank_joinAliases, IH.
Qed.

(** C8. [joinAliases] is the maximum of its arguments in the order
    [Never < Unmemoized < Conditional < Memoized]: it is their least upper
    bound, and it is commutative, associative and idempotent.  Hence, when
    the collector has run over a function, the level of every identifier is
    the maximum of the levels that the instructions have reported for it,
    and [Never] when none has. *)
Theorem joinAliases_lattice_max :
  (∀ a b, joinAliases a b = level_max a b)
  ∧ (∀ a b, level_le a (joinAliases a b) ∧ level_le b (joinAliases a b)
            ∧ ∀ c, level_le a c → level_le b c → level_le (joinAliases a b) c)
  ∧ (∀ a b, joinAliases a b = joinAliases b a)
  ∧ (∀ a b c, joinAliases a (joinAliases b c) = joinAliases (joinAliases a b) c)
  ∧ (∀ a, joinAliases a a = a)
  ∧ (∀ getPlaceScope eachReactiveValueOperand options fn st x,
       collectDependencies getPlaceScope eachReactiveValueOperand fn options = Ok st →
       level_of st x
       = foldr level_max Never
           (classifications eachReactiveValueOperand options ∅
              (block_events (body fn)) x)
       ∧ level_rank (level_of st x)
         = max_list (level_rank <$>
                       classifications eachReactiveValueOperand options ∅
                         (block_events (body fn)) x)).
Proof.
  split_and!.
  - apply joinAliases_max.
  - intros a b. split_and!.
    + apply level_le_joinAliases_l.
    + apply level_le_joinAliases_r.
    + intros c. unfold level_le. rewrite level_rank_joinAliases. lia.
  - apply joinAliases_comm.
  - apply joinAliases_assoc.
  - apply joinAliases_idemp.
  - intros gps ops options fn st x Hrun.
    rewrite collectDependencies_events in Hrun.
    apply run_events_facts in Hrun as (_ & _ & Hlevel & _).
    destruct (declare_function_level fn x) as [Hnever Hdefs].
    assert (level_of st x
            = foldr level_max Never
                (classifications ops options ∅ (block_events (body fn)) x)) as Heq.
    { rewrite Hlevel, Hnever, Hdefs, foldl_joinAliases, joinAliases_Never_l.
      apply foldr_joinAliases_max. }
    split; [done|]. rewrite Heq. apply level_rank_foldr_max.
Qed.


(** C5 (amended). When the collector has finished, the function's own id
    and the parameters (declared with level [Never] before the traversal)
    and every identifier reported as an lvalue of an instruction have a
    node, no node is marked, and every scope recorded on a node has a scope
    node.  The check of [visitOperand] cannot fail on an lvalue, and the
    solver never fails for a missing scope node; it fails for a missing
    identifier node only if a dependency, a scope dependency or a returned
    identifier has no node, and it returns a set whenever all of them have
    one.  An identifier has a node exactly when it is the function's own
    id, a parameter, or the identifier under which some instruction records
    a reported lvalue, which is the lvalue's id after one lookup in
    [definitions] as they are at that instruction: an rvalue, a scope
    dependency or a return value has a node in these cases only. *)
Theorem collector_creates_nodes
    (getPlaceScope : InstructionId → Place → option ReactiveScope)
    (eachReactiveValueOperand : ReactiveValue → list Place)
    (options : MemoizationOptions) (fn : ReactiveFunction) (st : State) :
  collectDependencies getPlaceScope eachReactiveValueOperand fn options = Ok st →
  (∀ f, fn_id fn = Some f →
        level_of (declare_function fn) (identifier_id f) = Never
        ∧ is_Some (identifiers st !! identifier_id f))
  ∧ (∀ p, p ∈ params fn →
          level_of (declare_function fn) (identifier_id (identifier p)) = Never
          ∧ is_Some (identifiers st !! identifier_id (identifier p)))
  ∧ (∀ instruction aliasing lv,
       InstructionEvent instruction ∈ block_events (body fn) →
       computeMemoizationInputs eachReactiveValueOperand (instruction_value instruction)
         (instruction_lvalue instruction) options = Ok aliasing →
       lv ∈ lvalues aliasing →
       is_Some (identifiers st !! identifier_id (identifier (lv_place lv))))
  ∧ (∀ id rvalues lv st0, ∃ st1, visit_lvalue getPlaceScope id rvalues lv st0 = Ok st1)
  ∧ fresh_state st
  ∧ scopes_closed st
  ∧ (∀ e, computeMemoizedIdentifiers st = Throw e →
          e = ExpectedNodeForIdentifier
          ∧ ¬ (identifiers_closed st
               ∧ ∀ id, id ∈ returned st → is_Some (identifiers st !! id)))
  ∧ (identifiers_closed st →
     (∀ id, id ∈ returned st → is_Some (identifiers st !! id)) →
     ∃ memoized, computeMemoizedIdentifiers st = Ok memoized)
  ∧ (∀ x, is_Some (identifiers st !! x)
          ↔ fn_id fn = Some (mkIdentifier x)
            ∨ x ∈ (λ p, identifier_id (identifier p)) <$> params fn
            ∨ classifications eachReactiveValueOperand options ∅
                (block_events (body fn)) x ≠ []).
Proof.
  intros Hrun. rewrite collectDependencies_events in Hrun.
  pose proof (λ x, run_events_node_iff _ _ _ _ _ _ x Hrun) as Hnodes.
  apply run_events_facts in Hrun as (Hstep & Hinv & _ & Hlv & _).
  pose proof (Hinv (declare_function_inv fn)) as (Hfresh & Hclosed & _).
  destruct (declare_function_declared fn) as [Hf Hp].
  destruct Hstep as (Hids & _).
  assert (∀ e, computeMemoizedIdentifiers st = Throw e →
               e = ExpectedNodeForIdentifier
               ∧ ¬ (identifiers_closed st
                    ∧ ∀ id, id ∈ returned st → is_Some (identifiers st !! id)))
    as Hthrow.
  { intros e He. unfold computeMemoizedIdentifiers, computeMemoizedIdentifiers_fuel in He.
    destruct (solve (S (unseen_nodes st)) st) as [s| |] eqn:Hsolve; simpl in He; [done| |done].
    simplify_eq. by eapply solve_throw. }
  split_and!; try done.
  - intros f Hfn. split; [apply declare_function_level|].
    destruct (Hids _ _ (Hf f Hfn)) as (n' & Hn' & _). eauto.
  - intros p Hin. split; [apply declare_function_level|].
    destruct (Hids _ _ (Hp p Hin)) as (n' & Hn' & _). eauto.
  - intros instruction aliasing lv. apply Hlv. apply declare_function_inv.
  - intros id rvalues lv st0. apply visit_lvalue_Ok.
  - intros Hic Hret.
    destruct (computeMemoizedIdentifiers st) as [memoized|e|] eqn:Hcompute.
    + eauto.
    + destruct (Hthrow e eq_refl) as [_ Hnot]. exfalso. by apply Hnot.
    + exfalso. revert Hcompute. apply computeMemoizedIdentifiers_fuelled.
  - intros x. rewrite Hnodes, declare_function_node_iff.
    destruct (declare_function_level fn x) as [_ ->]. tauto.
Qed.

(** C10. An identifier whose node has level [Never] is never put into the
    memoized set by the solver, and a visit of it that is forced through a
    scope dependency leaves it non-memoized too.  [declare] gives the
    function's own id and the parameters a node of level [Never]; when no
    instruction reports a higher level for them, their level is still
    [Never] after the collector and the pass does not memoize them. *)
Theorem never_level_is_never_memoized :
  (∀ fuel state memo,
     computeMemoizedIdentifiers_fuel fuel state = Ok memo →
     ∀ id node, identifiers state !! id = Some node → level node = Never → id ∉ memo)
  ∧ (∀ fuel id s node r,
       identifiers (graph s) !! id = Some node → seen node = false →
       level node = Never → id ∉ memoized_set s →
       visit (S fuel) id true s = Ok r →
       r.1 = false ∧ read_memoized id r.2 = false ∧ id ∉ memoized_set r.2)
  ∧ (∀ id st, ∃ node, identifiers (declare id st) !! id = Some node ∧ level node = Never)
  ∧ (∀ getPlaceScope eachReactiveValueOperand options fn st memo id,
       collectDependencies getPlaceScope eachReactiveValueOperand fn options = Ok st →
       computeMemoizedIdentifiers st = Ok memo →
       (fn_id fn = Some (mkIdentifier id)
        ∨ id ∈ (λ p, identifier_id (identifier p)) <$> params fn) →
       (∀ l, l ∈ classifications eachReactiveValueOperand options ∅
                   (block_events (body fn)) id → l = Never) →
       level_of st id = Never ∧ id ∉ memo).
Proof.
  split; [|split; [|split]].
  - intros fuel state memo Hrun id node Hnode Hlevel Hin.
    unfold computeMemoizedIdentifiers_fuel in Hrun.
    apply bind_Ok in Hrun as (s & Hsolve & Heq). simplify_eq.
    destruct (solve_memoized _ _ _ _ Hsolve Hin)
      as (n & n' & Hn & Hseen & Hn' & Hseen' & Hmem & Hstep).
    destruct Hstep as (_ & _ & _ & _ & _ & Hnever & _).
    apply (Hnever Hseen Hseen' Hmem). congruence.
  - intros fuel id s node r Hnode Hseen Hlevel Hnotin Hrun.
    destruct (visit_unseen _ _ _ _ _ _ Hnode Hseen Hnotin Hrun)
      as (d & _ & Hdec & Hread & Hin).
    rewrite Hlevel, should_memoize_Never in Hdec.
    rewrite Hread, Hin, Hdec. done.
  - intros id st. exists fresh_node. split; [|done].
    unfold declare. simpl. apply lookup_insert_eq.
  - intros gps ops options fn st memo id Hcollect Hcompute Hdeclared Hlevels.
    rewrite collectDependencies_events in Hcollect.
    apply run_events_facts in Hcollect as ((Hids & _) & _ & Hlevel & _).
    destruct (declare_function_level fn id) as [Hnever Hdefs].
    destruct (declare_function_declared fn) as [Hf Hp].
    assert (level_of st id = Never) as Hl.
    { rewrite Hlevel, Hnever, Hdefs, foldl_joinAliases, joinAliases_Never_l.
      revert Hlevels. generalize (classifications ops options ∅ (block_events (body fn)) id).
      intros ls Hls. induction ls as [|l ls IH]; [done|].
      simpl. rewrite (Hls l), joinAliases_Never_l; [|by left].
      apply IH. intros l' Hl'. apply Hls. by right. }
    split; [done|].
    assert (is_Some (identifiers st !! id)) as [node Hnode].
    { destruct Hdeclared as [Hfn|Hin].
      - destruct (Hids _ _ (Hf _ Hfn)) as (n' & Hn' & _). simpl in Hn'. eauto.
      - apply list_elem_of_fmap in Hin as (p & -> & Hin).
        destruct (Hids _ _ (Hp _ Hin)) as (n' & Hn' & _). eauto. }
    unfold level_of in Hl. rewrite Hnode in Hl.
    unfold computeMemoizedIdentifiers, computeMemoizedIdentifiers_fuel in Hcompute.
    apply bind_Ok in Hcompute as (s & Hsolve & Heq). simplify_eq.
    intros Hin.
    destruct (solve_memoized _ _ _ _ Hsolve Hin)
      as (n & n' & Hn & Hseen & Hn' & Hseen' & Hmem & Hstep).
    destruct Hstep as (_ & _ & _ & _ & _ & Hnot & _).
    apply (Hnot Hseen Hseen' Hmem). congruence.
Qed.

(** * Further properties *)

(** ** Classification of values: further properties *)

Section Classification.

Variable eachReactiveValueOperand : ReactiveValue → list Place.

(** The classification never runs out of fuel and aborts with one error
    only. *)
Lemma computeMemoizationInputs_outcome value :
  ∀ lvalue options,
    if unsupported_result value
    then computeMemoizationInputs eachReactiveValueOperand value lvalue options
         = Throw UnexpectedUnsupportedNode
    else ∃ aliasing,
           computeMemoizationInputs eachReactiveValueOperand value lvalue options = Ok aliasing.
Proof.
  induction value; intros lvalue' options; simpl; eauto.
  - specialize (IHvalue2 None options). specialize (IHvalue3 None options).
    destruct (unsupported_result value2); simpl.
    + by rewrite IHvalue2.
    + destruct IHvalue2 as [c ->]. simpl.
      destruct (unsupported_result value3); [by rewrite IHvalue3|].
      destruct IHvalue3 as [a ->]. simpl. eauto.
  - specialize (IHvalue1 None options). specialize (IHvalue2 None options).
    destruct (unsupported_result value1); simpl.
    + by rewrite IHvalue1.
    + destruct IHvalue1 as [c ->]. simpl.
      destruct (unsupported_result value2); [by rewrite IHvalue2|].
      destruct IHvalue2 as [a ->]. simpl. eauto.
  - specialize (IHvalue None options).
    destruct (unsupported_result value); [by rewrite IHvalue|].
    destruct IHvalue as [v ->]. simpl. eauto.
Qed.

(** X1. [computeMemoizationInputs] aborts exactly when an unsupported node
    sits where it looks (the value, the branches of a conditional, the
    sides of a logical expression, the final value of a sequence), and then
    with [Unexpected unsupported node]; an unsupported node in the test of
    a conditional or among the instructions of a sequence does not make it
    abort. *)
Theorem computeMemoizationInputs_aborts value lvalue options :
  (computeMemoizationInputs eachReactiveValueOperand value lvalue options
   = Throw UnexpectedUnsupportedNode
   ↔ unsupported_result value = true)
  ∧ ((∃ aliasing,
        computeMemoizationInputs eachReactiveValueOperand value lvalue options = Ok aliasing)
     ↔ unsupported_result value = false)
  ∧ (∀ instructions consequent alternate,
       computeMemoizationInputs eachReactiveValueOperand
         (ConditionalExpression UnsupportedNode consequent alternate) lvalue options
       = computeMemoizationInputs eachReactiveValueOperand
           (ConditionalExpression Primitive consequent alternate) lvalue options
       ∧ computeMemoizationInputs eachReactiveValueOperand
           (SequenceExpression instructions value) lvalue options
         = computeMemoizationInputs eachReactiveValueOperand
             (SequenceExpression [] value) lvalue options).
Proof.
  pose proof (computeMemoizationInputs_outcome value lvalue options) as Hout.
  split_and!.
  - destruct (unsupported_result value); [done|].
    destruct Hout as [a Ha]. rewrite Ha. split; discriminate.
  - destruct (unsupported_result value).
    + rewrite Hout. split; [|discriminate]. by intros [a Ha].
    + done.
  - intros instructions consequent alternate. split; reflexivity.
Qed.

(** X2. The lvalue of the instruction contributes exactly one entry to the
    reported lvalues, and has no influence on the other lvalues or on the
    rvalues. *)
Theorem computeMemoizationInputs_lvalue value lvalue options aliasing :
  computeMemoizationInputs eachReactiveValueOperand value (Some lvalue) options = Ok aliasing →
  ∃ without level before after,
    computeMemoizationInputs eachReactiveValueOperand value None options = Ok without
    ∧ rvalues aliasing = rvalues without
    ∧ lvalues without = before ++ after
    ∧ lvalues aliasing = before ++ mkLValue lvalue level :: after.
Proof.
  intros Hrun.
  destruct value; simpl in Hrun |- *;
    try (apply bind_Ok in Hrun as (x1 & Hx1 & Hrun); rewrite Hx1; simpl);
    try (apply bind_Ok in Hrun as (x2 & Hx2 & Hrun); rewrite Hx2; simpl);
    try discriminate; simplify_eq; simpl;
    try (by eexists _, _, [], []; split_and!; [reflexivity|reflexivity..]).
  all: try (by eexists _, _, [_], []; split_and!; reflexivity).
  all: try (by eexists _, _, [], _; split_and!; reflexivity).
  all: by eexists _, _, _, []; split_and!;
         [reflexivity|reflexivity|symmetry; apply app_nil_r|rewrite app_nil_r; reflexivity].
Qed.

(** X3. For a value that may produce a new object, every operand is an
    rvalue, and the reported lvalues, all at level [Memoized], are the
    operands whose effect is [Capture], [Mutate] or [Store] and the lvalue
    of the instruction. *)
Theorem computeMemoizationInputs_allocating value lvalue options :
  allocates value = true →
  ∃ aliasing,
    computeMemoizationInputs eachReactiveValueOperand value lvalue options = Ok aliasing
    ∧ rvalues aliasing = eachReactiveValueOperand value
    ∧ ∀ lv, lv ∈ lvalues aliasing ↔
            lv_level lv = Memoized
            ∧ ((lv_place lv ∈ eachReactiveValueOperand value
                ∧ effect (lv_place lv) ∈ [Capture; Mutate; Store])
               ∨ lvalue = Some (lv_place lv)).
Proof.
  intros Halloc.
  assert (∀ e, isMutableEffect e = true ↔ e ∈ [Capture; Mutate; Store]) as Hmut.
  { intros e. rewrite !elem_of_cons, elem_of_nil. destruct e; simpl; naive_solver. }
  assert (∀ lv : LValueMemoization,
            lv ∈ map (λ place, mkLValue place Memoized)
                   (filter (λ operand, isMutableEffect (effect operand) = true)
                      (eachReactiveValueOperand value))
                 ++ lvalue_if_present lvalue Memoized
            ↔ lv_level lv = Memoized
              ∧ ((lv_place lv ∈ eachReactiveValueOperand value
                  ∧ effect (lv_place lv) ∈ [Capture; Mutate; Store])
                 ∨ lvalue = Some (lv_place lv))) as Hlvs.
  { intros [place l]. simpl. rewrite elem_of_app. split.
    - intros [Hin|Hin].
      + apply list_elem_of_fmap in Hin as (p & Heq & Hp). simplify_eq.
        apply list_elem_of_filter in Hp as [Hm Hp]. split; [done|]. left.
        split; [done|]. by apply Hmut.
      + destruct lvalue as [p|]; simpl in Hin; [|by apply elem_of_nil in Hin].
        apply list_elem_of_singleton in Hin. simplify_eq. by split; [|right].
    - intros [-> [[Hp He]| ->]].
      + left. apply list_elem_of_fmap. exists place. split; [done|].
        apply list_elem_of_filter. split; [by apply Hmut|done].
      + right. simpl. by apply list_elem_of_singleton. }
  destruct value; try discriminate; simpl; eexists; (split_and!; [reflexivity|reflexivity|]);
    exact Hlvs.
Qed.

Lemma computeMemoizationInputs_no_lvalue_options value :
  ∀ options1 options2,
    computeMemoizationInputs eachReactiveValueOperand value None options1
    = computeMemoizationInputs eachReactiveValueOperand value None options2.
Proof.
  induction value; intros options1 options2; simpl; try reflexivity.
  - by rewrite (IHvalue2 options1 options2), (IHvalue3 options1 options2).
  - by rewrite (IHvalue1 options1 options2), (IHvalue2 options1 options2).
  - by rewrite (IHvalue options1 options2).
Qed.

Lemma computeMemoizationInputs_options value lvalue options1 options2 :
  is_jsx value = false →
  computeMemoizationInputs eachReactiveValueOperand value lvalue options1
  = computeMemoizationInputs eachReactiveValueOperand value lvalue options2.
Proof.
  intros Hjsx. destruct value; try discriminate; simpl; try reflexivity.
  - by rewrite (computeMemoizationInputs_no_lvalue_options value2 options1 options2),
      (computeMemoizationInputs_no_lvalue_options value3 options1 options2).
  - by rewrite (computeMemoizationInputs_no_lvalue_options value1 options1 options2),
      (computeMemoizationInputs_no_lvalue_options value2 options1 options2).
  - by rewrite (computeMemoizationInputs_no_lvalue_options value options1 options2).
Qed.

(** X4. The option [memoizeJsxElements] changes nothing but the level
    reported for the lvalue of a JSX element or fragment: the rvalues and
    the places of the lvalues are the same under any two options, and so is
    the whole result for a value that is not JSX or has no lvalue. *)
Theorem memoizeJsxElements_only_changes_jsx_level value lvalue options1 options2 aliasing :
  computeMemoizationInputs eachReactiveValueOperand value lvalue options1 = Ok aliasing →
  ∃ aliasing',
    computeMemoizationInputs eachReactiveValueOperand value lvalue options2 = Ok aliasing'
    ∧ rvalues aliasing' = rvalues aliasing
    ∧ lv_place <$> lvalues aliasing' = lv_place <$> lvalues aliasing
    ∧ (is_jsx value = false ∨ lvalue = None ∨ memoizeJsxElements options1
                                                = memoizeJsxElements options2 →
       aliasing' = aliasing).
Proof.
  intros Hrun. destruct (is_jsx value) eqn:Hjsx.
  - destruct value; try discriminate; simpl in Hrun |- *; simplify_eq; simpl.
    + eexists. split_and!; [reflexivity|reflexivity|by destruct lvalue|].
      intros [?|[->|Heq]]; [done|done|]. unfold jsx_level. by rewrite Heq.
    + eexists. split_and!; [reflexivity|reflexivity|by destruct lvalue|].
      intros [?|[->|Heq]]; [done|done|]. unfold jsx_level. by rewrite Heq.
  - rewrite (computeMemoizationInputs_options value lvalue options2 options1 Hjsx), Hrun.
    by exists aliasing.
Qed.

End Classification.

Lemma computePatternLValues_map pattern :
  computePatternLValues pattern
  = match pattern with
    | ArrayPattern items => array_item_lvalue <$> items
    | ObjectPattern properties => object_property_lvalue <$> properties
    end.
Proof.
  assert (∀ {A} (f : A → LValueMemoization) (g : list LValueMemoization → A → _) xs acc,
            (∀ acc x, g acc x = acc ++ [f x]) → foldl g acc xs = acc ++ (f <$> xs)) as Hpush.
  { intros A f g xs. induction xs as [|x xs IH]; intros acc Hg; simpl.
    - by rewrite app_nil_r.
    - rewrite IH, Hg by done. by rewrite <- app_assoc. }
  destruct pattern as [items|properties]; simpl.
  - apply (Hpush _ array_item_lvalue). by intros acc [p|p].
  - apply (Hpush _ object_property_lvalue). by intros acc [p|p].
Qed.

(** X5. A destructuring reports one lvalue for every item or property of
    its pattern, in the order of the pattern, after the lvalue of the
    instruction: at level [Conditional] for an item or a property, at level
    [Memoized] for a spread (which creates a new array or object); the
    destructured value is the only rvalue. *)
Theorem destructure_lvalues
    (eachReactiveValueOperand : ReactiveValue → list Place)
    (pattern : Pattern) (value : Place) (lvalue : option Place)
    (options : MemoizationOptions) :
  ∃ aliasing,
    computeMemoizationInputs eachReactiveValueOperand (Destructure pattern value) lvalue options
    = Ok aliasing
    ∧ rvalues aliasing = [value]
    ∧ lvalues aliasing
      = lvalue_if_present lvalue Conditional
        ++ match pattern with
           | ArrayPattern items => array_item_lvalue <$> items
           | ObjectPattern properties => object_property_lvalue <$> properties
           end
    ∧ length (computePatternLValues pattern)
      = match pattern with
        | ArrayPattern items => length items
        | ObjectPattern properties => length properties
        end
    ∧ ∀ lv, lv ∈ computePatternLValues pattern →
            lv_level lv = Conditional ∨ lv_level lv = Memoized.
Proof.
  eexists. split; [reflexivity|]. simpl.
  rewrite computePatternLValues_map.
  split_and!; [done|done|..].
  - destruct pattern; apply length_fmap.
  - intros lv Hin. destruct pattern as [items|properties];
      apply list_elem_of_fmap in Hin as (x & -> & _); destruct x; simpl; auto.
Qed.

(** ** The collector: further properties *)

Lemma set_add_idemp x xs : set_add x (set_add x xs) = set_add x xs.
Proof.
  unfold set_add at 1. rewrite decide_True; [done|]. apply elem_of_set_add. by left.
Qed.

Lemma foldl_set_add_NoDup ids acc :
  NoDup acc → NoDup (foldl (λ acc id, set_add id acc) acc ids).
Proof.
  revert acc. induction ids as [|id ids IH]; intros acc Hacc; simpl; [done|].
  apply IH. by apply set_add_NoDup.
Qed.

Lemma elem_of_foldl_set_add ids acc x :
  x ∈ foldl (λ acc id, set_add id acc) acc ids ↔ x ∈ acc ∨ x ∈ ids.
Proof.
  revert acc. induction ids as [|id ids IH]; intros acc; simpl.
  - rewrite elem_of_nil. naive_solver.
  - rewrite IH, elem_of_set_add, elem_of_cons. naive_solver.
Qed.

Lemma elem_of_returned_ids es id : id ∈ returned_ids es ↔ ReturnEvent id ∈ es.
Proof.
  unfold returned_ids. rewrite list_elem_of_omap. split.
  - intros (e & He & Heq). destruct e; by simplify_eq.
  - intros Hin. by exists (ReturnEvent id).
Qed.

Section CollectorProperties.

Variable getPlaceScope : InstructionId → Place → option ReactiveScope.
Variable eachReactiveValueOperand : ReactiveValue → list Place.
Variable options : MemoizationOptions.

(** X6. [visitOperand] is idempotent: visiting the same operand of the
    same instruction a second time changes nothing, since the scope node is
    created once and the scopes of an identifier are a set. *)
Theorem visitOperand_idempotent id place identifier st st' :
  visitOperand getPlaceScope id place identifier st = Ok st' →
  visitOperand getPlaceScope id place identifier st' = Ok st'.
Proof.
  intros Hrun.
  destruct (visitOperand_Ok _ _ _ _ _ _ Hrun)
    as [[Hnone ->]|(scope & node & Hscope & Hnode & ->)]; unfold visitOperand.
  - by rewrite Hnone.
  - rewrite Hscope. simpl.
    destruct (with_scope_lookup scope st) as [sn Hsn]. rewrite Hsn. simpl.
    rewrite lookup_insert_eq. f_equal.
    unfold set_identifiers. simpl. f_equal.
    rewrite insert_insert_eq. f_equal.
    unfold add_scope. simpl. f_equal. apply set_add_idemp.
Qed.

(** X7. [visitOperand] leaves the state alone when the place has no active
    scope; otherwise it aborts exactly when the identifier has no node, and
    when it has one, the scope id is added to the scopes of that node and
    nothing else changes in the identifier map.  The scope map gets a node
    for the scope only if it has none for that scope id: an existing scope
    node is kept as it is, and a new one lists the identifier ids of the
    scope's dependencies, in their order, unmarked. *)
Theorem visitOperand_registers_scope id place identifier st :
  (getPlaceScope id place = None →
   visitOperand getPlaceScope id place identifier st = Ok st)
  ∧ (∀ scope,
       getPlaceScope id place = Some scope →
       (identifiers st !! identifier = None →
        visitOperand getPlaceScope id place identifier st
        = Throw ExpectedIdentifierInitialized)
       ∧ (∀ node,
            identifiers st !! identifier = Some node →
            ∃ st',
              visitOperand getPlaceScope id place identifier st = Ok st'
              ∧ identifiers st' = <[identifier := add_scope (scope_id scope) node]>
                                    (identifiers st)
              ∧ (∀ x, x ∈ scopes (add_scope (scope_id scope) node)
                      ↔ x = scope_id scope ∨ x ∈ scopes node)
              ∧ (∀ sn, state_scopes st !! scope_id scope = Some sn →
                       state_scopes st' = state_scopes st)
              ∧ (state_scopes st !! scope_id scope = None →
                 state_scopes st'
                 = <[scope_id scope :=
                       {| scope_dependencies :=
                            (λ dep, identifier_id (dependency_identifier dep))
                              <$> scope_scope_dependencies scope;
                          scope_seen := false |}]> (state_scopes st))
              ∧ definitions st' = definitions st
              ∧ returned st' = returned st)).
Proof.
  split.
  - intros Hnone. unfold visitOperand. by rewrite Hnone.
  - intros scope Hscope. split.
    + intros Hnone. unfold visitOperand. rewrite Hscope.
      by destruct (state_scopes st !! scope_id scope); simpl; rewrite Hnone.
    + intros node Hnode. unfold visitOperand. rewrite Hscope.
      destruct (state_scopes st !! scope_id scope) as [sn|] eqn:Hsn; simpl; rewrite Hnode.
      * eexists. split_and!; try reflexivity; [|done].
        intros x. apply elem_of_set_add.
      * eexists. split_and!; try reflexivity; [|done].
        intros x. apply elem_of_set_add.
Qed.

(** X8. After the collector, no node lists its own identifier among its
    dependencies, and every identifier that [definitions] redirects has a
    node. *)
Theorem collector_no_self_dependency (fn : ReactiveFunction) (st : State) :
  collectDependencies getPlaceScope eachReactiveValueOperand fn options = Ok st →
  (∀ id node, identifiers st !! id = Some node → id ∉ dependencies node)
  ∧ (∀ id, is_Some (definitions st !! id) → is_Some (identifiers st !! id)).
Proof.
  intros Hrun. rewrite collectDependencies_events in Hrun.
  apply run_events_facts in Hrun as (_ & Hinv & _).
  destruct (Hinv (declare_function_inv fn)) as (_ & _ & Hdefs & Hself).
  split; [exact Hself|exact Hdefs].
Qed.

Lemma run_events_returned es :
  ∀ st st',
    run_events getPlaceScope eachReactiveValueOperand options es st = Ok st' →
    returned st' = foldl (λ acc id, set_add id acc) (returned st) (returned_ids es).
Proof.
  induction es as [|e es IH]; intros st st' Hrun; unfold run_events in Hrun.
  - rewrite for_of_nil in Hrun. by simplify_eq.
  - rewrite for_of_cons in Hrun. apply bind_Ok in Hrun as (st1 & He & Hrest).
    apply IH in Hrest. rewrite Hrest. destruct e as [instruction|id]; simpl in He |- *.
    + apply collectInstruction_facts in He as (_ & _ & _ & _ & Hret & _). by rewrite Hret.
    + by simplify_eq.
Qed.

(** X9. The set of returned identifiers that the collector builds holds
    exactly the identifiers of the [return] terminals with a value, each
    once, in the order of their first occurrence. *)
Theorem collector_returned (fn : ReactiveFunction) (st : State) :
  collectDependencies getPlaceScope eachReactiveValueOperand fn options = Ok st →
  returned st
  = foldl (λ acc id, set_add id acc) [] (returned_ids (block_events (body fn)))
  ∧ NoDup (returned st)
  ∧ ∀ id, id ∈ returned st ↔ ReturnEvent id ∈ block_events (body fn).
Proof.
  intros Hrun. rewrite collectDependencies_events in Hrun.
  apply run_events_returned in Hrun.
  assert (returned (declare_function fn) = []) as Hnil.
  { unfold declare_function.
    destruct (foldl_declare_other (params fn)
                match fn_id fn with
                | Some f => declare (identifier_id f) empty_State
                | None => empty_State
                end) as (_ & _ & Hret).
    rewrite Hret. by destruct (fn_id fn). }
  rewrite Hnil in Hrun. rewrite Hrun. split_and!; [done| |].
  - apply foldl_set_add_NoDup. constructor.
  - intros id. rewrite elem_of_foldl_set_add, elem_of_returned_ids, elem_of_nil.
    naive_solver.
Qed.

(** What an iteration of the loop over the lvalues leaves at the node of
    its lvalue. *)
Lemma visit_lvalue_node id rvalues lv st st' :
  visit_lvalue getPlaceScope id rvalues lv st = Ok st' →
  ∃ node, identifiers st' !! resolve st (identifier_id (identifier (lv_place lv))) = Some node
    ∧ level_le (lv_level lv) (level node)
    ∧ (∀ operand, operand ∈ rvalues →
         resolve st (identifier_id (identifier operand))
         ≠ resolve st (identifier_id (identifier (lv_place lv))) →
         resolve st (identifier_id (identifier operand)) ∈ dependencies node)
    ∧ (∀ scope, getPlaceScope id (lv_place lv) = Some scope →
         scope_id scope ∈ scopes node ∧ is_Some (state_scopes st' !! scope_id scope)).
Proof.
  rewrite visit_lvalue_unfold. intros Hrun.
  set (lvalueId := resolve st (identifier_id (identifier (lv_place lv)))) in *.
  assert (level_le (lv_level lv) (level (lvalue_node st rvalues lv))
          ∧ ∀ operand, operand ∈ rvalues →
              resolve st (identifier_id (identifier operand)) ≠ lvalueId →
              resolve st (identifier_id (identifier operand))
              ∈ dependencies (lvalue_node st rvalues lv)) as [Hlevel Hdeps].
  { unfold lvalue_node. fold lvalueId.
    match goal with
    | |- context [add_dependencies st lvalueId ?n rvalues] =>
        destruct (add_dependencies_facts st lvalueId rvalues n) as (Hl & _ & _ & _ & Hd)
    end.
    split.
    - rewrite Hl. simpl. apply level_le_joinAliases_r.
    - intros operand Hin Hne. apply Hd. right. split; [done|]. by exists operand. }
  destruct (visitOperand_Ok _ _ _ _ _ _ Hrun)
    as [[Hnone ->]|(scope & node & Hscope & Hnode & ->)]; simpl in *.
  - exists (lvalue_node st rvalues lv). rewrite lookup_insert_eq.
    split_and!; [done|done|done|]. intros scope Hscope. congruence.
  - rewrite lookup_insert_eq in Hnode. simplify_eq.
    exists (add_scope (scope_id scope) (lvalue_node st rvalues lv)).
    rewrite lookup_insert_eq. split_and!; [done|done|done|].
    intros scope' Hscope'. simplify_eq. split.
    + simpl. apply elem_of_set_add. by left.
    + apply with_scope_lookup.
Qed.

(** What the node of an identifier holds is kept by the later steps of the
    collector. *)
Lemma collect_step_node (st st' : State) (x : IdentifierId) (l : MemoizationLevel)
    (D : IdentifierId → Prop) (S : ScopeId → Prop) :
  collect_step st st' →
  (∃ node, identifiers st !! x = Some node
     ∧ level_le l (level node)
     ∧ (∀ d, D d → d ∈ dependencies node)
     ∧ (∀ sid, S sid → sid ∈ scopes node ∧ is_Some (state_scopes st !! sid))) →
  ∃ node, identifiers st' !! x = Some node
    ∧ level_le l (level node)
    ∧ (∀ d, D d → d ∈ dependencies node)
    ∧ (∀ sid, S sid → sid ∈ scopes node ∧ is_Some (state_scopes st' !! sid)).
Proof.
  intros (Hids & Hscs & _) (node & Hnode & Hl & Hd & Hs).
  destruct (Hids _ _ Hnode) as (node' & Hnode' & Hl' & Hd' & Hs' & _).
  exists node'. split_and!; [done| | |].
  - unfold level_le in *. lia.
  - intros d Hin. apply Hd'. auto.
  - intros sid Hin. destruct (Hs sid Hin) as [Hin' [sn Hsn]].
    split; [by apply Hs'|]. exists sn. by apply Hscs.
Qed.

Lemma visit_lvalues_nodes id rvalues lvs st st' :
  for_of (visit_lvalue getPlaceScope id rvalues) lvs st = Ok st' →
  ∀ lv, lv ∈ lvs →
    ∃ node,
      identifiers st' !! resolve st (identifier_id (identifier (lv_place lv))) = Some node
      ∧ level_le (lv_level lv) (level node)
      ∧ (∀ d, (∃ operand, operand ∈ rvalues
                          ∧ resolve st (identifier_id (identifier operand)) = d
                          ∧ d ≠ resolve st (identifier_id (identifier (lv_place lv)))) →
              d ∈ dependencies node)
      ∧ (∀ sid, (∃ scope, getPlaceScope id (lv_place lv) = Some scope
                          ∧ scope_id scope = sid) →
                sid ∈ scopes node ∧ is_Some (state_scopes st' !! sid)).
Proof.
  intros Hrun.
  pose proof (visit_lvalues_facts _ _ _ _ _ _ Hrun) as (_ & Hdefs & _).
  set (Q := λ (lv : LValueMemoization) (s : State),
         definitions s = definitions st →
         ∃ node,
           identifiers s !! resolve st (identifier_id (identifier (lv_place lv))) = Some node
           ∧ level_le (lv_level lv) (level node)
           ∧ (∀ d, (∃ operand, operand ∈ rvalues
                               ∧ resolve st (identifier_id (identifier operand)) = d
                               ∧ d ≠ resolve st (identifier_id (identifier (lv_place lv)))) →
                   d ∈ dependencies node)
           ∧ (∀ sid, (∃ scope, getPlaceScope id (lv_place lv) = Some scope
                               ∧ scope_id scope = sid) →
                     sid ∈ scopes node ∧ is_Some (state_scopes s !! sid))).
  assert (∀ lv, lv ∈ lvs → Q lv st') as HQ.
  { apply (for_of_each Q _ _ _ _ Hrun); unfold Q.
    - intros lv s s' Hbody Hd'.
      pose proof (visit_lvalue_facts _ _ _ _ _ _ Hbody) as (_ & Hd2 & _).
      destruct (visit_lvalue_node _ _ _ _ _ Hbody) as (node & Hnode & Hl & Hdeps & Hsc).
      assert (∀ x, resolve s x = resolve st x) as Hres.
      { intros x. unfold resolve. by replace (definitions s) with (definitions st)
          by congruence. }
      rewrite !Hres in Hnode. exists node. split_and!; [done|done| |].
      + intros d (operand & Hop & <- & Hne). specialize (Hdeps operand Hop).
        rewrite !Hres in Hdeps. by apply Hdeps.
      + intros sid (scope & Hscope & <-). by apply Hsc.
    - intros lv y s s' Hs Hbody Hd'.
      pose proof (visit_lvalue_facts _ _ _ _ _ _ Hbody) as (Hstep & Hd2 & _).
      eapply collect_step_node; [exact Hstep|]. apply Hs. congruence. }
  intros lv Hin. by apply HQ.
Qed.

Lemma visit_rvalues_scopes id rvalues st st' :
  visit_rvalues getPlaceScope id rvalues st = Ok st' →
  ∀ operand scope,
    operand ∈ rvalues → getPlaceScope id operand = Some scope →
    ∃ node,
      identifiers st' !! resolve st (identifier_id (identifier operand)) = Some node
      ∧ level_le Never (level node)
      ∧ (∀ d, False → d ∈ dependencies node)
      ∧ (∀ sid, sid = scope_id scope →
                sid ∈ scopes node ∧ is_Some (state_scopes st' !! sid)).
Proof.
  intros Hrun.
  pose proof (visit_rvalues_facts _ _ _ _ _ Hrun) as (_ & Hdefs & _).
  set (Q := λ (operand : Place) (s : State),
         definitions s = definitions st →
         ∀ scope, getPlaceScope id operand = Some scope →
         ∃ node,
           identifiers s !! resolve st (identifier_id (identifier operand)) = Some node
           ∧ level_le Never (level node)
           ∧ (∀ d, False → d ∈ dependencies node)
           ∧ (∀ sid, sid = scope_id scope →
                     sid ∈ scopes node ∧ is_Some (state_scopes s !! sid))).
  assert (∀ operand, operand ∈ rvalues → Q operand st') as HQ.
  { apply (for_of_each Q _ _ _ _ Hrun); unfold Q.
    - intros operand s s' Hbody Hd' scope Hscope.
      destruct (visitOperand_definitions _ _ _ _ _ _ Hbody) as [Hd2 _].
      assert (resolve s (identifier_id (identifier operand))
              = resolve st (identifier_id (identifier operand))) as Hres.
      { unfold resolve. by replace (definitions s) with (definitions st) by congruence. }
      rewrite Hres in Hbody. clear Hd2 Hd'.
      destruct (visitOperand_Ok _ _ _ _ _ _ Hbody)
        as [[Hnone ->]|(scope' & node & Hscope' & Hnode & ->)]; [congruence|].
      simplify_eq.
      exists (add_scope (scope_id scope) node). simpl. rewrite lookup_insert_eq.
      split_and!; [done|unfold level_le; simpl; lia|done|].
      intros sid ->. split.
      + apply elem_of_set_add. by left.
      + apply with_scope_lookup.
    - intros operand y s s' Hs Hbody Hd' scope Hscope.
      destruct (visitOperand_definitions _ _ _ _ _ _ Hbody) as [Hd2 _].
      eapply collect_step_node; [by eapply visitOperand_step|].
      apply Hs; [congruence|done]. }
  intros operand scope Hin. by apply HQ.
Qed.

(** X10. After an instruction has been collected, every lvalue that the
    classification reports has a node under its resolved identifier: the
    level of the node is at least the reported level, its dependencies
    contain the resolved identifier of every reported rvalue other than
    itself, and its scopes contain the scope that is active for the lvalue
    at the instruction.  Every rvalue with an active scope has that scope
    among the scopes of its node, and each such scope has a scope node. *)
Theorem collectInstruction_records instruction st st' :
  collectInstruction getPlaceScope eachReactiveValueOperand options instruction st = Ok st' →
  ∃ aliasing,
    computeMemoizationInputs eachReactiveValueOperand (instruction_value instruction)
      (instruction_lvalue instruction) options = Ok aliasing
    ∧ (∀ lv, lv ∈ lvalues aliasing →
         ∃ node,
           identifiers st' !! resolve st (identifier_id (identifier (lv_place lv)))
           = Some node
           ∧ level_le (lv_level lv) (level node)
           ∧ (∀ operand, operand ∈ rvalues aliasing →
                resolve st (identifier_id (identifier operand))
                ≠ resolve st (identifier_id (identifier (lv_place lv))) →
                resolve st (identifier_id (identifier operand)) ∈ dependencies node)
           ∧ (∀ scope, getPlaceScope (instruction_id instruction) (lv_place lv) = Some scope →
                scope_id scope ∈ scopes node
                ∧ is_Some (state_scopes st' !! scope_id scope)))
    ∧ (∀ operand scope,
         operand ∈ rvalues aliasing →
         getPlaceScope (instruction_id instruction) operand = Some scope →
         ∃ node,
           identifiers st' !! resolve st (identifier_id (identifier operand)) = Some node
           ∧ scope_id scope ∈ scopes node
           ∧ is_Some (state_scopes st' !! scope_id scope)).
Proof.
  unfold collectInstruction. intros Hrun.
  apply bind_Ok in Hrun as (aliasing & Hal & Hrun).
  apply bind_Ok in Hrun as (st1 & Hrv & Hrun).
  apply bind_Ok in Hrun as (st2 & Hlv & Hrun). simplify_eq.
  exists aliasing. split; [done|].
  destruct (record_definition_other instruction st2) as (Hids & Hscs & _).
  rewrite Hids, Hscs.
  pose proof (visit_rvalues_facts _ _ _ _ _ Hrv) as (_ & Hd1 & _).
  pose proof (visit_lvalues_facts _ _ _ _ _ _ Hlv) as (Hstep2 & _).
  assert (∀ x, resolve st1 x = resolve st x) as Hres.
  { intros x. unfold resolve. by rewrite Hd1. }
  split.
  - intros lv Hin.
    destruct (visit_lvalues_nodes _ _ _ _ _ Hlv lv Hin) as (node & Hnode & Hl & Hdeps & Hsc).
    rewrite Hres in Hnode. exists node. split_and!; [done|done| |].
    + intros operand Hop Hne. apply Hdeps. exists operand. by rewrite !Hres.
    + intros scope Hscope. apply Hsc. by exists scope.
  - intros operand scope Hin Hscope.
    destruct (collect_step_node st1 st2 (resolve st (identifier_id (identifier operand)))
                Never (λ _, False) (λ sid, sid = scope_id scope) Hstep2)
      as (node & Hnode & _ & _ & Hsc).
    { by apply (visit_rvalues_scopes _ _ _ _ Hrv). }
    exists node. split; [done|]. by apply Hsc.
Qed.

End CollectorProperties.

(** ** The pruning transform: further properties *)

Lemma splice_app {A : Type} (f : A → list A) (xs ys : list A) :
  splice f (xs ++ ys) = splice f xs ++ splice f ys.
Proof.
  induction xs as [|x xs IH]; [done|].
  rewrite <- app_comm_cons, !splice_cons, IH. by rewrite app_assoc.
Qed.

(** What a function of the statements sees of a rebuilt block, from what it
    sees of every rebuilt statement. *)
Lemma concat_map_splice {A B : Type} (g h : A → list B) (f : A → list A) (xs : list A) :
  Forall (λ x, concat (map g (f x)) = h x) xs →
  concat (map g (splice f xs)) = concat (map h xs).
Proof.
  induction 1 as [|x xs Hx Hxs IH]; [done|].
  rewrite splice_cons, map_app, concat_app, Hx, IH. done.
Qed.

Lemma splice_fixed {A : Type} (f : A → list A) (xs : list A) :
  Forall (λ x, f x = [x]) xs → splice f xs = xs.
Proof.
  induction 1 as [|x xs Hx Hxs IH]; [done|].
  by rewrite splice_cons, Hx, IH.
Qed.

Lemma splice_splice {A : Type} (f : A → list A) (xs : list A) :
  Forall (λ x, splice f (f x) = f x) xs → splice f (splice f xs) = splice f xs.
Proof.
  induction 1 as [|x xs Hx Hxs IH]; [done|].
  by rewrite splice_cons, splice_app, Hx, IH.
Qed.

Lemma Forall_all {A : Type} (P : A → Prop) (xs : list A) : (∀ x, P x) → Forall P xs.
Proof. intros HP. induction xs; constructor; auto. Qed.

Lemma filter_concat_map {A B : Type} (P : B → Prop) `{!∀ x, Decision (P x)}
    (g : A → list B) (xs : list A) :
  filter P (concat (map g xs)) = concat (map (λ x, filter P (g x)) xs).
Proof.
  induction xs as [|x xs IH]; [done|]. simpl. by rewrite filter_app, IH.
Qed.

Lemma filter_eq_Forall {A : Type} (P : A → Prop) `{!∀ x, Decision (P x)} (xs : list A) :
  filter P xs = xs ↔ Forall P xs.
Proof.
  split.
  - intros Heq. rewrite <- Heq. apply Forall_forall.
    intros x Hx. by apply list_elem_of_filter in Hx as [HP _].
  - induction 1 as [|x xs Hx Hxs IH]; [done|].
    rewrite filter_cons, decide_True by done. by rewrite IH.
Qed.

(** The transform never drops, duplicates or reorders an instruction or a
    [return]. *)
Fixpoint transformStatement_events (state : gset nat) (stmt : ReactiveStatement)
    {struct stmt} :
  block_events (transformStatement state stmt) = statement_events stmt
with transformTerminal_events (state : gset nat) (terminal : ReactiveTerminal)
    {struct terminal} :
  terminal_events (transformTerminal state terminal) = terminal_events terminal
with transformTerminalChild_events (state : gset nat) (child : TerminalChild)
    {struct child} :
  child_events (transformTerminalChild state child) = child_events child.
Proof.
  - destruct stmt as [instruction|scope instructions|terminal]; simpl.
    + unfold block_events. simpl. apply app_nil_r.
    + assert (block_events (splice (transformStatement state) instructions)
              = concat (map statement_events instructions)) as Hin.
      { apply concat_map_splice.
        induction instructions as [|i rest IH]; constructor; [|exact IH].
        apply transformStatement_events. }
      unfold transformScope.
      destruct (hasMemoizedOutput scope state); [|done].
      unfold block_events. simpl. rewrite app_nil_r. exact Hin.
    + unfold block_events. simpl. rewrite app_nil_r. apply transformTerminal_events.
  - destruct terminal as [value|children]; simpl; [done|].
    induction children as [|c rest IH]; simpl; [done|].
    by rewrite transformTerminalChild_events, IH.
  - destruct child as [value|block]; simpl; [done|].
    apply concat_map_splice.
    induction block as [|i rest IH]; constructor; [|exact IH].
    apply transformStatement_events.
Qed.

Lemma transformBlock_events (state : gset nat) (block : list ReactiveStatement) :
  block_events (transformBlock state block) = block_events block.
Proof.
  apply concat_map_splice, Forall_all. intros stmt. apply transformStatement_events.
Qed.

(** The scopes that the transform leaves, in order. *)
Fixpoint transformStatement_kept (state : gset nat) (stmt : ReactiveStatement)
    {struct stmt} :
  block_scopes (transformStatement state stmt)
  = filter (λ scope, hasMemoizedOutput scope state = true) (statement_scopes stmt)
with transformTerminal_kept (state : gset nat) (terminal : ReactiveTerminal)
    {struct terminal} :
  terminal_scopes (transformTerminal state terminal)
  = filter (λ scope, hasMemoizedOutput scope state = true) (terminal_scopes terminal)
with transformTerminalChild_kept (state : gset nat) (child : TerminalChild)
    {struct child} :
  child_scopes (transformTerminalChild state child)
  = filter (λ scope, hasMemoizedOutput scope state = true) (child_scopes child).
Proof.
  - destruct stmt as [instruction|scope instructions|terminal]; simpl.
    + done.
    + assert (block_scopes (splice (transformStatement state) instructions)
              = filter (λ scope, hasMemoizedOutput scope state = true)
                  (concat (map statement_scopes instructions))) as Hin.
      { rewrite filter_concat_map. apply concat_map_splice.
        induction instructions as [|i rest IH]; constructor; [|exact IH].
        apply transformStatement_kept. }
      unfold transformScope. rewrite filter_cons.
      destruct (hasMemoizedOutput scope state) eqn:Hout.
      * rewrite decide_True by done.
        unfold block_scopes. simpl. rewrite app_nil_r. by f_equal.
      * rewrite decide_False by done. exact Hin.
    + unfold block_scopes. simpl. rewrite app_nil_r. apply transformTerminal_kept.
  - destruct terminal as [value|children]; simpl; [done|].
    induction children as [|c rest IH]; simpl; [done|].
    by rewrite filter_app, transformTerminalChild_kept, IH.
  - destruct child as [value|block]; simpl; [done|].
    rewrite filter_concat_map. apply concat_map_splice.
    induction block as [|i rest IH]; constructor; [|exact IH].
    apply transformStatement_kept.
Qed.

Lemma transformBlock_kept (state : gset nat) (block : list ReactiveStatement) :
  block_scopes (transformBlock state block)
  = filter (λ scope, hasMemoizedOutput scope state = true) (block_scopes block).
Proof.
  unfold block_scopes at 2. rewrite filter_concat_map.
  apply concat_map_splice, Forall_all. intros stmt. apply transformStatement_kept.
Qed.

(** Transforming what the transform returns changes nothing. *)
Fixpoint transformStatement_again (state : gset nat) (stmt : ReactiveStatement)
    {struct stmt} :
  splice (transformStatement state) (transformStatement state stmt)
  = transformStatement state stmt
with transformTerminal_again (state : gset nat) (terminal : ReactiveTerminal)
    {struct terminal} :
  transformTerminal state (transformTerminal state terminal)
  = transformTerminal state terminal
with transformTerminalChild_again (state : gset nat) (child : TerminalChild)
    {struct child} :
  transformTerminalChild state (transformTerminalChild state child)
  = transformTerminalChild state child.
Proof.
  - destruct stmt as [instruction|scope instructions|terminal]; simpl.
    + done.
    + assert (splice (transformStatement state)
                (splice (transformStatement state) instructions)
              = splice (transformStatement state) instructions) as Hin.
      { apply splice_splice.
        induction instructions as [|i rest IH]; constructor; [|exact IH].
        apply transformStatement_again. }
      unfold transformScope.
      destruct (hasMemoizedOutput scope state) eqn:Hout; [|exact Hin].
      simpl. unfold transformScope. by rewrite Hout, Hin.
    + by rewrite transformTerminal_again.
  - destruct terminal as [value|children]; simpl; [done|]. f_equal.
    induction children as [|c rest IH]; simpl; [done|].
    by rewrite transformTerminalChild_again, IH.
  - destruct child as [value|block]; simpl; [done|]. f_equal.
    apply splice_splice.
    induction block as [|i rest IH]; constructor; [|exact IH].
    apply transformStatement_again.
Qed.

(** A statement all of whose scopes have a memoized output is left as it
    is. *)
Fixpoint transformStatement_unchanged (state : gset nat) (stmt : ReactiveStatement)
    {struct stmt} :
  Forall (λ scope, hasMemoizedOutput scope state = true) (statement_scopes stmt) →
  transformStatement state stmt = [stmt]
with transformTerminal_unchanged (state : gset nat) (terminal : ReactiveTerminal)
    {struct terminal} :
  Forall (λ scope, hasMemoizedOutput scope state = true) (terminal_scopes terminal) →
  transformTerminal state terminal = terminal
with transformTerminalChild_unchanged (state : gset nat) (child : TerminalChild)
    {struct child} :
  Forall (λ scope, hasMemoizedOutput scope state = true) (child_scopes child) →
  transformTerminalChild state child = child.
Proof.
  - destruct stmt as [instruction|scope instructions|terminal]; simpl.
    + done.
    + intros Hall. apply Forall_cons in Hall as [Hout Hall].
      assert (splice (transformStatement state) instructions = instructions) as Hin.
      { apply splice_fixed. revert Hall.
        induction instructions as [|i rest IH]; simpl; intros Hall; constructor.
        - apply transformStatement_unchanged. by apply Forall_app in Hall as [? _].
        - apply IH. by apply Forall_app in Hall as [_ ?]. }
      unfold transformScope. by rewrite Hout, Hin.
    + intros Hall. by rewrite transformTerminal_unchanged.
  - destruct terminal as [value|children]; simpl; [done|]. intros Hall. f_equal.
    induction children as [|c rest IH]; simpl in *; [done|].
    apply Forall_app in Hall as [Hc Hrest].
    by rewrite transformTerminalChild_unchanged, IH.
  - destruct child as [value|block]; simpl; [done|]. intros Hall. f_equal.
    apply splice_fixed. revert Hall.
    induction block as [|i rest IH]; simpl; intros Hall; constructor.
    + apply transformStatement_unchanged. by apply Forall_app in Hall as [? _].
    + apply IH. by apply Forall_app in Hall as [_ ?].
Qed.

(** X11. The scopes of a transformed block, at any depth, are exactly the
    scopes of the block that have a declared or reassigned identifier in
    the memoized set, in the order and number in which the block has them:
    the transform keeps every such scope and no other. *)
Theorem transformBlock_scopes (state : gset nat) (block : list ReactiveStatement) :
  block_scopes (transformBlock state block)
  = filter (λ scope, hasMemoizedOutput scope state = true) (block_scopes block)
  ∧ ∀ scope, scope ∈ block_scopes (transformBlock state block)
             ↔ scope ∈ block_scopes block ∧ has_memoized_output scope state.
Proof.
  pose proof (transformBlock_kept state block) as Hkept.
  split; [exact Hkept|].
  intros scope. rewrite Hkept, list_elem_of_filter, hasMemoizedOutput_spec. tauto.
Qed.

(** X12. The transform is idempotent: transforming a transformed block
    with the same memoized set returns it unchanged. *)
Theorem transformBlock_idempotent (state : gset nat) (block : list ReactiveStatement) :
  transformBlock state (transformBlock state block) = transformBlock state block.
Proof.
  unfold transformBlock. apply splice_splice, Forall_all.
  intros stmt. apply transformStatement_again.
Qed.

(** X13. The transform returns the block unchanged if and only if every
    scope of the block, at any depth, has a declared or reassigned
    identifier in the memoized set. *)
Theorem transformBlock_fixed_point (state : gset nat) (block : list ReactiveStatement) :
  transformBlock state block = block
  ↔ ∀ scope, scope ∈ block_scopes block → has_memoized_output scope state.
Proof.
  rewrite <- Forall_forall. split.
  - intros Heq. pose proof (transformBlock_kept state block) as Hkept.
    rewrite Heq in Hkept. symmetry in Hkept. apply filter_eq_Forall in Hkept.
    eapply Forall_impl; [exact Hkept|]. intros scope. apply hasMemoizedOutput_spec.
  - intros Hall. unfold transformBlock. apply splice_fixed.
    assert (Forall (λ scope, hasMemoizedOutput scope state = true) (block_scopes block))
      as Hall'.
    { eapply Forall_impl; [exact Hall|]. intros scope. apply hasMemoizedOutput_spec. }
    clear Hall. revert Hall'. unfold block_scopes.
    induction block as [|stmt rest IH]; simpl; intros Hall; constructor.
    + apply transformStatement_unchanged. by apply Forall_app in Hall as [? _].
    + apply IH. by apply Forall_app in Hall as [_ ?].
Qed.

(** ** Pruning, as a relation between blocks: what the transform does *)

Lemma transformBlock_cons_scope (state : gset nat) scope instructions rest :
  transformBlock state (ScopeStatement scope instructions :: rest)
  = (if hasMemoizedOutput scope state
     then [ScopeStatement scope (transformBlock state instructions)]
     else transformBlock state instructions)
    ++ transformBlock state rest.
Proof.
  unfold transformBlock. rewrite splice_cons. simpl. unfold transformScope.
  by destruct (hasMemoizedOutput scope state).
Qed.

Fixpoint transformStatement_pruned (state : gset nat) (stmt : ReactiveStatement)
    {struct stmt} :
  ∀ rest rest',
    pruned_block state rest rest' →
    pruned_block state (stmt :: rest) (transformStatement state stmt ++ rest')
with transformTerminal_pruned (state : gset nat) (terminal : ReactiveTerminal)
    {struct terminal} :
  pruned_terminal state terminal (transformTerminal state terminal)
with transformTerminalChild_pruned (state : gset nat) (child : TerminalChild)
    {struct child} :
  ∀ rest rest',
    pruned_children state rest rest' →
    pruned_children state (child :: rest) (transformTerminalChild state child :: rest').
Proof.
  - destruct stmt as [instruction|scope instructions|terminal]; intros rest rest' Hrest.
    + simpl. by constructor.
    + assert (pruned_block state instructions
                (splice (transformStatement state) instructions)) as Hin.
      { induction instructions as [|i instructions IH]; [constructor|].
        rewrite splice_cons. by apply transformStatement_pruned. }
      simpl. unfold transformScope.
      destruct (hasMemoizedOutput scope state) eqn:Hout.
      * simpl. apply pruned_block_kept; [by apply hasMemoizedOutput_spec|done..].
      * apply pruned_block_gone; [|done..].
        rewrite <- hasMemoizedOutput_spec, Hout. done.
    + simpl. constructor; [apply transformTerminal_pruned|done].
  - destruct terminal as [value|children]; simpl; constructor.
    induction children as [|c children IH]; [constructor|].
    simpl. by apply transformTerminalChild_pruned.
  - destruct child as [value|block]; intros rest rest' Hrest; simpl.
    + by constructor.
    + constructor; [|done].
      induction block as [|i block IH]; [constructor|].
      rewrite splice_cons. by apply transformStatement_pruned.
Qed.

Lemma transformBlock_pruned (state : gset nat) (block : list ReactiveStatement) :
  pruned_block state block (transformBlock state block).
Proof.
  unfold transformBlock. induction block as [|stmt block IH]; [constructor|].
  rewrite splice_cons. by apply transformStatement_pruned.
Qed.

(** The relation leaves one result only. *)
Fixpoint pruned_block_transformBlock (state : gset nat)
    (block block' : list ReactiveStatement) (H : pruned_block state block block')
    {struct H} :
  block' = transformBlock state block
with pruned_terminal_transformTerminal (state : gset nat)
    (terminal terminal' : ReactiveTerminal) (H : pruned_terminal state terminal terminal')
    {struct H} :
  terminal' = transformTerminal state terminal
with pruned_children_transformTerminalChild (state : gset nat)
    (children children' : list TerminalChild) (H : pruned_children state children children')
    {struct H} :
  children' = map (transformTerminalChild state) children.
Proof.
  - destruct H as [|instruction rest rest' Hrest
                   |scope instructions instructions' rest rest' Hout Hin Hrest
                   |scope instructions instructions' rest rest' Hout Hin Hrest
                   |terminal terminal' rest rest' Hterminal Hrest].
    + done.
    + apply pruned_block_transformBlock in Hrest. by subst rest'.
    + apply pruned_block_transformBlock in Hin, Hrest. subst instructions' rest'.
      rewrite transformBlock_cons_scope.
      apply hasMemoizedOutput_spec in Hout. by rewrite Hout.
    + apply pruned_block_transformBlock in Hin, Hrest. subst instructions' rest'.
      rewrite transformBlock_cons_scope.
      destruct (hasMemoizedOutput scope state) eqn:Hb; [|done].
      exfalso. apply Hout. by apply hasMemoizedOutput_spec.
    + apply pruned_terminal_transformTerminal in Hterminal.
      apply pruned_block_transformBlock in Hrest. by subst terminal' rest'.
  - destruct H as [value|children children' Hchildren]; [done|].
    apply pruned_children_transformTerminalChild in Hchildren. by subst children'.
  - destruct H as [|value rest rest' Hrest|block block' rest rest' Hblock Hrest].
    + done.
    + apply pruned_children_transformTerminalChild in Hrest. by subst rest'.
    + apply pruned_block_transformBlock in Hblock.
      apply pruned_children_transformTerminalChild in Hrest. by subst block' rest'.
Qed.

(** ** The pass: further properties *)

Section Pass.

Variable getPlaceScope : InstructionId → Place → option ReactiveScope.
Variable eachReactiveValueOperand : ReactiveValue → list Place.

Lemma pruneNonEscapingScopes_Ok fn options fn' :
  pruneNonEscapingScopes getPlaceScope eachReactiveValueOperand fn options = Ok fn' ↔
    ∃ state memoized,
      collectDependencies getPlaceScope eachReactiveValueOperand fn options = Ok state
      ∧ computeMemoizedIdentifiers state = Ok memoized
      ∧ fn' = {| fn_id := fn_id fn; params := params fn;
                 body := transformBlock memoized (body fn) |}.
Proof.
  unfold pruneNonEscapingScopes. split.
  - intros Hrun. apply bind_Ok in Hrun as (state & Hstate & Hrun).
    apply bind_Ok in Hrun as (memoized & Hmemo & Hrun). simplify_eq. eauto.
  - intros (state & memoized & -> & Hmemo & ->). simpl. by rewrite Hmemo.
Qed.

(** X14. When the pass succeeds, the function it returns has the same
    id and parameters, and its body is the input's body pruned: every scope
    with an output in the memoized set is still there, around its own pruned
    instructions; every other scope has given way, where it was, to its
    pruned instructions; every instruction, terminal and value is what and
    where it was.  No other block is the input's body pruned, so this is
    the only change.  In particular the instructions and [return]s are the
    input's, in the same order, and the scopes are the input's scopes with
    a memoized output. *)
Theorem pruneNonEscapingScopes_preserves fn options fn' :
  pruneNonEscapingScopes getPlaceScope eachReactiveValueOperand fn options = Ok fn' →
  ∃ state memoized,
    collectDependencies getPlaceScope eachReactiveValueOperand fn options = Ok state
    ∧ computeMemoizedIdentifiers state = Ok memoized
    ∧ fn_id fn' = fn_id fn
    ∧ params fn' = params fn
    ∧ block_events (body fn') = block_events (body fn)
    ∧ block_scopes (body fn')
      = filter (λ scope, hasMemoizedOutput scope memoized = true) (block_scopes (body fn))
    ∧ pruned_block memoized (body fn) (body fn')
    ∧ (∀ block', pruned_block memoized (body fn) block' → block' = body fn').
Proof.
  intros Hrun. apply pruneNonEscapingScopes_Ok in Hrun as (state & memoized & Hs & Hm & ->).
  exists state, memoized. simpl. split_and!; [done|done|done|done|..].
  - apply transformBlock_events.
  - apply transformBlock_kept.
  - apply transformBlock_pruned.
  - apply pruned_block_transformBlock.
Qed.

(** X15. The pass is idempotent: run on its own result, with the same
    scopes of places, it returns that result unchanged. *)
Theorem pruneNonEscapingScopes_idempotent fn options fn' :
  pruneNonEscapingScopes getPlaceScope eachReactiveValueOperand fn options = Ok fn' →
  pruneNonEscapingScopes getPlaceScope eachReactiveValueOperand fn' options = Ok fn'.
Proof.
  intros Hrun. apply pruneNonEscapingScopes_Ok in Hrun as (state & memoized & Hs & Hm & ->).
  apply pruneNonEscapingScopes_Ok. exists state, memoized. split_and!; [|done|].
  - rewrite collectDependencies_events in Hs |- *. simpl.
    rewrite transformBlock_events. exact Hs.
  - simpl. f_equal. symmetry. unfold transformBlock. apply splice_splice, Forall_all.
    intros stmt. apply transformStatement_again.
Qed.

(** X16. A function without a [return] of a value has an empty memoized
    set, and the pass removes every scope from it. *)
Theorem pruneNonEscapingScopes_no_return fn options fn' :
  returned_ids (block_events (body fn)) = [] →
  pruneNonEscapingScopes getPlaceScope eachReactiveValueOperand fn options = Ok fn' →
  (∃ state,
     collectDependencies getPlaceScope eachReactiveValueOperand fn options = Ok state
     ∧ computeMemoizedIdentifiers state = Ok ∅)
  ∧ block_scopes (body fn') = [].
Proof.
  intros Hnone Hrun.
  apply pruneNonEscapingScopes_Ok in Hrun as (state & memoized & Hs & Hm & ->).
  assert (returned state = []) as Hret.
  { rewrite collectDependencies_events in Hs. apply run_events_returned in Hs.
    rewrite Hs, Hnone. simpl.
    unfold declare_function.
    destruct (foldl_declare_other (params fn)
                match fn_id fn with
                | Some f => declare (identifier_id f) empty_State
                | None => empty_State
                end) as (_ & _ & Hr).
    rewrite Hr. by destruct (fn_id fn). }
  assert (memoized = ∅) as ->.
  { unfold computeMemoizedIdentifiers, computeMemoizedIdentifiers_fuel, solve in Hm.
    rewrite Hret in Hm. simpl in Hm. by simplify_eq. }
  split; [by exists state|]. simpl. rewrite transformBlock_kept.
  induction (block_scopes (body fn)) as [|scope rest IH]; [done|].
  rewrite filter_cons, decide_False; [exact IH|].
  intros Hout. apply hasMemoizedOutput_spec in Hout as (id & _ & Hin).
  by apply not_elem_of_empty in Hin.
Qed.

Lemma run_events_options options1 options2 es :
  (∀ instruction, InstructionEvent instruction ∈ es →
                  is_jsx (instruction_value instruction) = false) →
  ∀ st, run_events getPlaceScope eachReactiveValueOperand options1 es st
        = run_events getPlaceScope eachReactiveValueOperand options2 es st.
Proof.
  unfold run_events. induction es as [|e es IH]; intros Hjsx st; [done|].
  rewrite !for_of_cons.
  assert (run_event getPlaceScope eachReactiveValueOperand options1 e st
          = run_event getPlaceScope eachReactiveValueOperand options2 e st) as ->.
  { destruct e as [instruction|id]; [|done]. simpl. unfold collectInstruction.
    rewrite (computeMemoizationInputs_options _ _ _ options1 options2); [done|].
    apply Hjsx. left. }
  destruct (run_event _ _ options2 e st) as [st1| |]; simpl; [|done..].
  apply IH. intros instruction Hin. apply Hjsx. by right.
Qed.

(** X17. The options are irrelevant to a function without JSX: when no
    instruction of the function, at any depth, has a JSX element or
    fragment as its value, the pass gives the same result under any two
    options. *)
Theorem pruneNonEscapingScopes_options fn options1 options2 :
  (∀ instruction, InstructionEvent instruction ∈ block_events (body fn) →
                  is_jsx (instruction_value instruction) = false) →
  collectDependencies getPlaceScope eachReactiveValueOperand fn options1
  = collectDependencies getPlaceScope eachReactiveValueOperand fn options2
  ∧ pruneNonEscapingScopes getPlaceScope eachReactiveValueOperand fn options1
    = pruneNonEscapingScopes getPlaceScope eachReactiveValueOperand fn options2.
Proof.
  intros Hjsx.
  assert (collectDependencies getPlaceScope eachReactiveValueOperand fn options1
          = collectDependencies getPlaceScope eachReactiveValueOperand fn options2) as Heq.
  { rewrite !collectDependencies_events. by apply run_events_options. }
  split; [exact Heq|]. unfold pruneNonEscapingScopes. by rewrite Heq.
Qed.

End Pass.

(** ** The solver: what it visits *)

(** A loop whose iterations each respect a preorder: an invariant may rely
    on the state after an iteration being below the final state. *)
Lemma for_of_invariant_to {A S : Type} (R : S → S → Prop) `{!PreOrder R} (P : S → Prop)
    (body : A → S → result S) (xs : list A) (s s' : S) :
  for_of body xs s = Ok s' →
  (∀ x a a', body x a = Ok a' → R a a') →
  P s →
  (∀ x a a', x ∈ xs → P a → body x a = Ok a' → R a' s' → P a') →
  P s'.
Proof.
  intros Hrun HR. revert s Hrun. induction xs as [|x xs IH]; intros s Hrun HP Hstep.
  - rewrite for_of_nil in Hrun. by simplify_eq.
  - rewrite for_of_cons in Hrun. apply bind_Ok in Hrun as (s1 & H1 & H2).
    apply (IH s1 H2).
    + apply (Hstep x s s1); [left|done|done|].
      apply (for_of_preorder body R xs); [|done]. intros y a a' _. apply HR.
    + intros y a a' Hy. apply Hstep. by right.
Qed.

#[global] Instance same_edges_preorder : PreOrder same_edges.
Proof.
  split.
  - intros g. split; eauto.
  - intros g1 g2 g3 [H1 H1'] [H2 H2']. split.
    + intros id n3 Hn3. destruct (H2 id n3 Hn3) as (n2 & Hn2 & Hd2 & Hs2).
      destruct (H1 id n2 Hn2) as (n1 & Hn1 & Hd1 & Hs1).
      exists n1. split_and!; [done|congruence..].
    + intros sid n3 Hn3. destruct (H2' sid n3 Hn3) as (n2 & Hn2 & Hd2).
      destruct (H1' sid n2 Hn2) as (n1 & Hn1 & Hd1).
      exists n1. split; [done|congruence].
Qed.

Lemma solver_step_same_edges s s' : solver_step s s' → same_edges (graph s) (graph s').
Proof.
  intros Hstep. split.
  - intros id n' Hn'. destruct (solver_step_lookup_inv _ _ _ _ Hstep Hn')
      as (n & Hn & _ & Hd & Hs & _). exists n. by split_and!.
  - intros sid n' Hn'. destruct (solver_step_scope_lookup_inv _ _ _ _ Hstep Hn')
      as (n & Hn & Hd & _). exists n. by split.
Qed.

Lemma update_identifier_same_edges id f s :
  (∀ n, dependencies (f n) = dependencies n ∧ scopes (f n) = scopes n) →
  same_edges (graph s) (graph (update_identifier id f s)).
Proof.
  intros Hf. split; [|by eauto].
  intros x n' Hn'. rewrite lookup_update_identifier in Hn'. case_decide; [|by eauto].
  subst x. destruct (identifiers (graph s) !! id) as [n|]; [|done].
  simpl in Hn'. simplify_eq. exists n. destruct (Hf n) as [-> ->]. done.
Qed.

Lemma update_scope_same_edges sid s :
  same_edges (graph s) (graph (update_scope sid mark_scope_seen s)).
Proof.
  split; [by eauto|].
  intros x n' Hn'. rewrite lookup_update_scope in Hn'. case_decide; [|by eauto].
  subst x. destruct (state_scopes (graph s) !! sid) as [n|]; [|done].
  simpl in Hn'. simplify_eq. by exists n.
Qed.

Lemma identifier_seen_step s s' id :
  solver_step s s' → identifier_seen s id → identifier_seen s' id.
Proof.
  intros Hstep (n & Hn & Hseen). exists n. split; [|done]. by eapply solver_step_seen.
Qed.

Lemma scope_forced_step s s' sid :
  solver_step s s' → scope_forced s sid → scope_forced s' sid.
Proof.
  intros Hstep (n & Hn & Hseen).
  destruct (solver_step_scope_lookup _ _ _ _ Hstep Hn) as (n' & Hn' & _ & Hs).
  exists n'. auto.
Qed.

Lemma identifier_seen_update id f s x :
  (∀ n, seen n = true → seen (f n) = true) →
  identifier_seen s x → identifier_seen (update_identifier id f s) x.
Proof.
  intros Hf (n & Hn & Hseen). unfold identifier_seen.
  rewrite lookup_update_identifier. case_decide.
  - subst x. rewrite Hn. simpl. eauto.
  - eauto.
Qed.

Lemma force_loop_step fuel deps s s' :
  for_of (λ dep acc, r ← visit fuel dep true acc; Ok r.2) deps s = Ok s' →
  solver_step s s'.
Proof.
  apply (for_of_preorder _ solver_step). intros x a a' _ Hbody.
  apply bind_Ok in Hbody as (r & Hr & Heq). simplify_eq. by eapply visit_step.
Qed.

Lemma scopes_loop_step fuel sids s s' :
  for_of (forceMemoizeScopeDependencies fuel) sids s = Ok s' → solver_step s s'.
Proof.
  apply (for_of_preorder _ solver_step). intros x a a' _ Hbody.
  by eapply forceMemoizeScopeDependencies_step.
Qed.

Lemma forceMemoizeScopeDependencies_result fuel sid s s' :
  forceMemoizeScopeDependencies fuel sid s = Ok s' → scope_forced s' sid.
Proof.
  destruct fuel as [|fuel]; [done|]. rewrite forceMemoizeScopeDependencies_S.
  destruct (state_scopes (graph s) !! sid) as [node|] eqn:Hnode; [|done].
  destruct (scope_seen node) eqn:Hseen.
  - intros ?. simplify_eq. by exists node.
  - intros Hrun. apply (scope_forced_step (update_scope sid mark_scope_seen s)).
    + by eapply force_loop_step.
    + exists (mark_scope_seen node). split; [|done].
      by rewrite lookup_update_scope, decide_True, Hnode.
Qed.

(** The marked nodes stay within a set that contains the visited
    identifier and is closed under the moves of the solver. *)
Lemma visit_force_sound (g0 : State) (memo : gset nat) (T : IdentifierId → Prop) fuel :
  (∀ a b, T a → solver_edge g0 memo a b → T b) →
  (∀ id force s r,
     same_edges g0 (graph s) → T id → seen_in T s →
     visit fuel id force s = Ok r → memoized_set r.2 ⊆ memo →
     seen_in T r.2)
  ∧ (∀ sid s s',
       same_edges g0 (graph s) →
       (∀ sn d, state_scopes g0 !! sid = Some sn → d ∈ scope_dependencies sn → T d) →
       seen_in T s →
       forceMemoizeScopeDependencies fuel sid s = Ok s' → memoized_set s' ⊆ memo →
       seen_in T s').
Proof.
  intros Hclosed. induction fuel as [|fuel [IHv IHf]]; [by split|]. split.
  - intros id force s r Hshape HT Hin Hrun Hmemo. rewrite visit_S in Hrun.
    destruct (identifiers (graph s) !! id) as [node|] eqn:Hnode; [|done].
    destruct (seen node) eqn:Hseen; [by simplify_eq|].
    apply bind_Ok in Hrun as (d & Hdeps & Hrun).
    set (s1 := update_identifier id mark_identifier_seen s) in *.
    destruct (proj1 Hshape id node Hnode) as (n0 & Hn0 & Hd0 & Hs0).
    assert (same_edges g0 (graph s1)) as Hshape1.
    { etransitivity; [exact Hshape|]. by apply update_identifier_same_edges. }
    assert (seen_in T s1) as Hin1.
    { intros x n Hn Hs. unfold s1 in Hn. rewrite lookup_update_identifier in Hn.
      case_decide; [by subst x|]. by eapply Hin. }
    pose proof (visit_dependencies_step _ _ _ _ (visit_step fuel) Hdeps) as Hstep1.
    assert (memoized_set d.2 ⊆ memo → seen_in T d.2) as Hind.
    { intros Hmd. unfold visit_dependencies in Hdeps.
      enough (same_edges g0 (graph d.2) ∧ seen_in T d.2) as [_ Hd]; [exact Hd|].
      apply (for_of_invariant_to (λ a b : bool * Solver, solver_step a.2 b.2)
               (λ acc : bool * Solver, same_edges g0 (graph acc.2) ∧ seen_in T acc.2)
               _ _ _ _ Hdeps); [|done|].
      - intros x a a' Hbody. apply bind_Ok in Hbody as (r' & Hr' & Heq). simplify_eq.
        simpl. by eapply visit_step.
      - intros x a a' Hx [Hsh Hi] Hbody Hto.
        apply bind_Ok in Hbody as (r' & Hr' & Heq). simplify_eq. simpl in *. split.
        + etransitivity; [exact Hsh|]. apply solver_step_same_edges. by eapply visit_step.
        + eapply (IHv x false a.2 r'); [done| |done|done|].
          * apply (Hclosed id); [done|]. eapply edge_dependency; [exact Hn0|]. by rewrite Hd0.
          * destruct Hto as (_ & _ & Hsub & _). set_solver. }
    destruct (should_memoize (level node) d.1 force) eqn:Hdec; [|by simplify_eq; auto].
    apply bind_Ok in Hrun as (s3 & Hscopes & Hrun). simplify_eq. simpl in Hmemo |- *.
    set (s2 := add_memoized id (update_identifier id mark_identifier_memoized d.2)) in *.
    assert (solver_step s2 s3) as Hstep3.
    { by eapply scopes_loop_step. }
    assert (memoized_set s2 ⊆ memo) as Hm2.
    { destruct Hstep3 as (_ & _ & Hsub & _). set_solver. }
    assert (id ∈ memo) as Hid by (apply Hm2; unfold s2; simpl; set_solver).
    assert (seen_in T d.2) as Hind' by (apply Hind; unfold s2 in Hm2; simpl in Hm2; set_solver).
    enough (same_edges g0 (graph s3) ∧ seen_in T s3) as [_ H3]; [exact H3|].
    apply (for_of_invariant_to solver_step
             (λ acc : Solver, same_edges g0 (graph acc) ∧ seen_in T acc)
             _ _ _ _ Hscopes).
    + intros x a a' Hbody. by eapply forceMemoizeScopeDependencies_step.
    + split.
      * transitivity (graph s1); [exact Hshape1|]. transitivity (graph d.2).
        { apply solver_step_same_edges. exact Hstep1. }
        unfold s2. rewrite graph_add_memoized. by apply update_identifier_same_edges.
      * intros x n Hn Hs. unfold s2 in Hn. rewrite graph_add_memoized in Hn.
        rewrite lookup_update_identifier in Hn. case_decide; [by subst x|]. by eapply Hind'.
    + intros sid a a' Hsid [Hsh Hi] Hbody Hto. split.
      * etransitivity; [exact Hsh|]. apply solver_step_same_edges.
        by eapply forceMemoizeScopeDependencies_step.
      * eapply (IHf sid a a'); [done| |done|done|].
        -- intros sn x Hsn Hx. apply (Hclosed id); [done|].
           eapply edge_scope; [done|exact Hn0| |exact Hsn|done]. by rewrite Hs0.
        -- destruct Hto as (_ & _ & Hsub & _). set_solver.
  - intros sid s s' Hshape Hdeps Hin Hrun Hmemo.
    rewrite forceMemoizeScopeDependencies_S in Hrun.
    destruct (state_scopes (graph s) !! sid) as [node|] eqn:Hnode; [|done].
    destruct (scope_seen node) eqn:Hseen; [by simplify_eq|].
    destruct (proj2 Hshape sid node Hnode) as (n0 & Hn0 & Hd0).
    enough (same_edges g0 (graph s') ∧ seen_in T s') as [_ H']; [exact H'|].
    apply (for_of_invariant_to solver_step
             (λ acc : Solver, same_edges g0 (graph acc) ∧ seen_in T acc)
             _ _ _ _ Hrun).
    + intros x a a' Hbody. apply bind_Ok in Hbody as (r' & Hr' & Heq). simplify_eq.
      by eapply visit_step.
    + split; [|exact Hin]. etransitivity; [exact Hshape|]. apply update_scope_same_edges.
    + intros x a a' Hx [Hsh Hi] Hbody Hto.
      apply bind_Ok in Hbody as (r' & Hr' & Heq). simplify_eq. split.
      * etransitivity; [exact Hsh|]. apply solver_step_same_edges. by eapply visit_step.
      * eapply (IHv x true a r'); [done| |done|done|].
        -- apply (Hdeps n0); [done|]. by rewrite Hd0.
        -- destruct Hto as (_ & _ & Hsub & _). set_solver.
Qed.

Lemma solve_sound fuel state s :
  fresh_state state → solve fuel state = Ok s →
  seen_in (solver_reaches state (memoized_set s)) s.
Proof.
  intros [Hfresh _] Hsolve. unfold solve in Hsolve.
  enough (same_edges state (graph s) ∧ seen_in (solver_reaches state (memoized_set s)) s)
    as [_ Hs]; [exact Hs|].
  assert (∀ a b, solver_reaches state (memoized_set s) a →
                 solver_edge state (memoized_set s) a b →
                 solver_reaches state (memoized_set s) b) as Hclosed.
  { intros a b (root & Hroot & Hpath) Hedge. exists root. split; [done|].
    by eapply rtc_r. }
  apply (for_of_invariant_to solver_step
           (λ acc : Solver, same_edges state (graph acc)
                            ∧ seen_in (solver_reaches state (memoized_set s)) acc)
           _ _ _ _ Hsolve).
  - intros x a a' Hbody. apply bind_Ok in Hbody as (r & Hr & Heq). simplify_eq.
    by eapply visit_step.
  - split; [reflexivity|]. intros id n Hn Hseen. destruct (Hfresh id n Hn). congruence.
  - intros root a a' Hroot [Hsh Hi] Hbody Hto.
    apply bind_Ok in Hbody as (r & Hr & Heq). simplify_eq. split.
    + etransitivity; [exact Hsh|]. apply solver_step_same_edges. by eapply visit_step.
    + eapply (proj1 (visit_force_sound state (memoized_set s) _ fuel Hclosed)
                root false a r); [done| |done|done|].
      * exists root. split; [done|reflexivity].
      * destruct Hto as (_ & _ & Hsub & _). set_solver.
Qed.

(** The walk is complete wherever no visit is under way. *)
Lemma visit_force_closed fuel :
  (∀ id force s r (P : IdentifierId → Prop) (PS : ScopeId → Prop),
     visited_closed P PS s → visit fuel id force s = Ok r → visited_closed P PS r.2)
  ∧ (∀ sid s s' (P : IdentifierId → Prop) (PS : ScopeId → Prop),
       visited_closed P PS s → forceMemoizeScopeDependencies fuel sid s = Ok s' →
       visited_closed P PS s').
Proof.
  induction fuel as [|fuel [IHv IHf]]; [by split|]. split.
  - intros id force s r P PS [Hids Hscs] Hrun. rewrite visit_S in Hrun.
    destruct (identifiers (graph s) !! id) as [node|] eqn:Hnode; [|done].
    destruct (seen node) eqn:Hseen; [by simplify_eq|].
    apply bind_Ok in Hrun as (d & Hdeps & Hrun).
    set (s1 := update_identifier id mark_identifier_seen s) in *.
    pose proof (visit_dependencies_step _ _ _ _ (visit_step fuel) Hdeps) as Hstep1.
    pose proof (visit_dependencies_keep _ _ _ _ Hnode Hstep1) as Hkeep.
    assert (∀ x, identifier_seen s x → identifier_seen s1 x) as Hmono1.
    { intros x. by apply identifier_seen_update. }
    assert (visited_closed (λ x, P x ∨ x = id) PS s1) as Hc1.
    { split.
      - intros x Hx n Hn. unfold s1 in Hn. rewrite lookup_update_identifier in Hn.
        case_decide; [by destruct Hx; right|].
        destruct (Hids x (λ HP, Hx (or_introl HP)) n Hn) as [HD HM]. split.
        + intros Hs y Hy. apply Hmono1. by apply HD.
        + exact HM.
      - intros sid Hsid n Hn Hs y Hy. apply Hmono1. by eapply (Hscs sid Hsid n). }
    assert (visited_closed (λ x, P x ∨ x = id) PS d.2) as Hcd.
    { unfold visit_dependencies in Hdeps.
      apply (for_of_invariant
               (λ acc : bool * Solver, visited_closed (λ x, P x ∨ x = id) PS acc.2)
               _ _ _ _ Hdeps); [done|].
      intros x a a' _ Ha Hbody. apply bind_Ok in Hbody as (r' & Hr' & Heq). simplify_eq.
      simpl. by eapply IHv. }
    assert (∀ x, x ∈ dependencies node → identifier_seen d.2 x) as Hdseen.
    { unfold visit_dependencies in Hdeps.
      apply (for_of_each (λ x (acc : bool * Solver), identifier_seen acc.2 x)
               _ _ _ _ Hdeps).
      - intros x a a' Hbody. apply bind_Ok in Hbody as (r' & Hr' & Heq). simplify_eq.
        simpl. destruct (visit_result _ _ _ _ _ Hr') as (n' & Hn' & Hs' & _). by exists n'.
      - intros x y a a' Hx Hbody. apply bind_Ok in Hbody as (r' & Hr' & Heq). simplify_eq.
        simpl. eapply identifier_seen_step; [by eapply visit_step|done]. }
    destruct (should_memoize (level node) d.1 force) eqn:Hdec.
    + apply bind_Ok in Hrun as (s3 & Hscopes & Hrun). simplify_eq. simpl.
      set (s2 := add_memoized id (update_identifier id mark_identifier_memoized d.2)) in *.
      assert (solver_step s2 s3) as Hstep3.
      { by eapply scopes_loop_step. }
      assert (∀ x, identifier_seen d.2 x → identifier_seen s2 x) as Hmono2.
      { intros x Hx. unfold s2, identifier_seen. rewrite graph_add_memoized.
        by apply identifier_seen_update. }
      assert (visited_closed (λ x, P x ∨ x = id) PS s2) as Hc2.
      { destruct Hcd as [Hids2 Hscs2]. split.
        - intros x Hx n Hn. unfold s2 in Hn. rewrite graph_add_memoized in Hn.
          rewrite lookup_update_identifier in Hn.
          case_decide; [by destruct Hx; right|].
          destruct (Hids2 x Hx n Hn) as [HD HM]. split.
          + intros Hs y Hy. apply Hmono2. by apply HD.
          + exact HM.
        - intros sid Hsid n Hn Hs y Hy. apply Hmono2. by eapply (Hscs2 sid Hsid n). }
      assert (visited_closed (λ x, P x ∨ x = id) PS s3) as [Hids3 Hscs3].
      { apply (for_of_invariant
                 (λ acc : Solver, visited_closed (λ x, P x ∨ x = id) PS acc)
                 _ _ _ _ Hscopes); [done|].
        intros x a a' _ Ha Hbody. by eapply IHf. }
      assert (∀ sid, sid ∈ scopes node → scope_forced s3 sid) as Hforced.
      { apply (for_of_each (λ sid (acc : Solver), scope_forced acc sid) _ _ _ _ Hscopes).
        - intros x a a' Hbody. by eapply forceMemoizeScopeDependencies_result.
        - intros x y a a' Hx Hbody.
          eapply scope_forced_step; [by eapply forceMemoizeScopeDependencies_step|done]. }
      pose proof (visit_scopes_keep _ _ _ _ _ Hnode Hstep1 Hstep3) as Hkeep3.
      split; [|exact Hscs3].
      intros x Hx. destruct (decide (x = id)) as [->|Hne].
      * intros n Hn. rewrite Hkeep3 in Hn. simplify_eq. simpl. split.
        -- intros _ y Hy. eapply identifier_seen_step; [exact Hstep3|].
           apply Hmono2. by apply Hdseen.
        -- intros _ sid Hsid. by apply Hforced.
      * apply Hids3. by intros [?|?].
    + simplify_eq. simpl. destruct Hcd as [Hids2 Hscs2]. split; [|exact Hscs2].
      intros x Hx. destruct (decide (x = id)) as [->|Hne].
      * intros n Hn. rewrite Hkeep in Hn. simplify_eq. simpl. split; [|done].
        intros _ y Hy. by apply Hdseen.
      * apply Hids2. by intros [?|?].
  - intros sid s s' P PS [Hids Hscs] Hrun.
    rewrite forceMemoizeScopeDependencies_S in Hrun.
    destruct (state_scopes (graph s) !! sid) as [node|] eqn:Hnode; [|done].
    destruct (scope_seen node) eqn:Hseen; [by simplify_eq|].
    set (s1 := update_scope sid mark_scope_seen s) in *.
    assert (solver_step s1 s') as Hstep.
    { by eapply force_loop_step. }
    assert (visited_closed P (λ x, PS x ∨ x = sid) s1) as Hc1.
    { split.
      - intros x Hx n Hn. destruct (Hids x Hx n Hn) as [HD HM]. split; [exact HD|].
        intros Hm y Hy. destruct (HM Hm y Hy) as (sn & Hsn & Hss).
        unfold scope_forced, s1. rewrite lookup_update_scope. case_decide.
        + subst y. rewrite Hsn. simpl. eauto.
        + eauto.
      - intros x Hx n Hn Hs y Hy. unfold s1 in Hn. rewrite lookup_update_scope in Hn.
        case_decide; [by destruct Hx; right|].
        by eapply (Hscs x (λ HP, Hx (or_introl HP)) n). }
    assert (visited_closed P (λ x, PS x ∨ x = sid) s') as [Hids' Hscs'].
    { apply (for_of_invariant (λ acc : Solver, visited_closed P (λ x, PS x ∨ x = sid) acc)
               _ _ _ _ Hrun); [done|].
      intros x a a' _ Ha Hbody. apply bind_Ok in Hbody as (r' & Hr' & Heq). simplify_eq.
      by eapply IHv. }
    assert (∀ x, x ∈ scope_dependencies node → identifier_seen s' x) as Hdseen.
    { apply (for_of_each (λ x (acc : Solver), identifier_seen acc x) _ _ _ _ Hrun).
      - intros x a a' Hbody. apply bind_Ok in Hbody as (r' & Hr' & Heq). simplify_eq.
        destruct (visit_result _ _ _ _ _ Hr') as (n' & Hn' & Hs' & _). by exists n'.
      - intros x y a a' Hx Hbody. apply bind_Ok in Hbody as (r' & Hr' & Heq). simplify_eq.
        eapply identifier_seen_step; [by eapply visit_step|done]. }
    split; [exact Hids'|].
    intros x Hx. destruct (decide (x = sid)) as [->|Hne].
    + intros n Hn Hs y Hy. apply Hdseen.
      assert (state_scopes (graph s1) !! sid = Some (mark_scope_seen node)) as Hn1.
      { unfold s1. by rewrite lookup_update_scope, decide_True, Hnode. }
      destruct (solver_step_scope_lookup _ _ _ _ Hstep Hn1) as (n' & Hn' & Hd' & _).
      rewrite Hn in Hn'. simplify_eq. simpl in Hd'. by rewrite <- Hd'.
    + apply Hscs'. by intros [?|?].
Qed.

Lemma solve_closed fuel state s :
  fresh_state state → solve fuel state = Ok s →
  visited_closed (λ _, False) (λ _, False) s.
Proof.
  intros [Hfresh Hfresh'] Hsolve. unfold solve in Hsolve.
  apply (for_of_invariant (λ acc : Solver, visited_closed (λ _, False) (λ _, False) acc)
           _ _ _ _ Hsolve).
  - split.
    + intros id _ n Hn. destruct (Hfresh id n Hn) as [Hs Hm]. simpl in *.
      split; intros ?; congruence.
    + intros sid _ n Hn Hs. simpl in *. rewrite (Hfresh' sid n Hn) in Hs. done.
  - intros x a a' _ Ha Hbody. apply bind_Ok in Hbody as (r & Hr & Heq). simplify_eq.
    by eapply (proj1 (visit_force_closed fuel)).
Qed.

Lemma solve_complete fuel state s id :
  fresh_state state → solve fuel state = Ok s →
  solver_reaches state (memoized_set s) id → identifier_seen s id.
Proof.
  intros Hfresh Hsolve (root & Hroot & Hpath).
  destruct (solve_closed _ _ _ Hfresh Hsolve) as [Hids Hscs].
  pose proof (solve_step _ _ _ Hsolve) as Hstep.
  assert (identifier_seen s root) as Hr.
  { destruct (solve_returned_seen _ _ _ _ Hsolve Hroot) as (n' & Hn' & Hseen').
    by exists n'. }
  clear Hroot. revert Hr. induction Hpath as [a|a b c Hedge Hpath IH]; [done|].
  intros (n' & Hn' & Hseen'). apply IH.
  destruct (Hids a (λ H, H) n' Hn') as [HD HM].
  destruct Hedge as [node Hnode Hb|node sid scope Hmemo Hnode Hsid Hscope Hb].
  - destruct (solver_step_lookup _ _ _ _ Hstep Hnode) as (n'' & Hn'' & _ & Hdeps & _).
    rewrite Hn' in Hn''. simplify_eq. apply HD; [done|]. by rewrite Hdeps.
  - destruct (solver_step_lookup _ _ _ _ Hstep Hnode) as (n'' & Hn'' & _ & _ & Hsc & _).
    rewrite Hn' in Hn''. simplify_eq.
    destruct (solve_memoized _ _ _ _ Hsolve Hmemo) as (_ & m & _ & _ & Hm & _ & Hmem & _).
    rewrite Hn' in Hm. simplify_eq.
    destruct (HM Hmem sid) as (sn & Hsn & Hss); [by rewrite Hsc|].
    destruct (solver_step_scope_lookup _ _ _ _ Hstep Hscope) as (sn' & Hsn' & Hsd & _).
    rewrite Hsn in Hsn'. simplify_eq.
    apply (Hscs sid (λ H, H) sn' Hsn Hss). by rewrite Hsd.
Qed.

(** X18. The solver visits exactly the identifiers that can be reached
    from a returned identifier by going from an identifier to a dependency
    of its node, or from a memoized identifier to a dependency of a scope
    recorded on its node.  So nothing is memoized that cannot be reached
    in this way, and every identifier of level [Memoized] that can be
    reached is memoized. *)
Theorem solver_visits_reachable (state : State) (memo : gset nat) :
  fresh_state state →
  computeMemoizedIdentifiers state = Ok memo →
  ∃ s,
    solve (S (unseen_nodes state)) state = Ok s
    ∧ memo = memoized_set s
    ∧ (∀ id, identifier_seen s id ↔ solver_reaches state memo id)
    ∧ (∀ id, id ∈ memo → solver_reaches state memo id)
    ∧ (∀ id, solver_reaches state memo id → level_of state id = Memoized → id ∈ memo).
Proof.
  intros Hfresh Hrun. unfold computeMemoizedIdentifiers in Hrun.
  apply computeMemoizedIdentifiers_fuel_solve in Hrun as (s & Hsolve & ->).
  exists s. split; [done|]. split; [done|].
  pose proof (solve_sound _ _ _ Hfresh Hsolve) as Hsound.
  pose proof (solve_step _ _ _ Hsolve) as Hstep.
  destruct (solve_justified _ _ _ Hfresh Hsolve) as [Hflags _].
  split_and!.
  - intros id. split.
    + intros (n & Hn & Hseen). by eapply Hsound.
    + by eapply solve_complete.
  - intros id Hin.
    destruct (solve_memoized _ _ _ _ Hsolve Hin) as (_ & n' & _ & _ & Hn' & Hseen' & _).
    by eapply Hsound.
  - intros id Hreach Hlevel.
    destruct (solve_complete _ _ _ _ Hfresh Hsolve Hreach) as (n' & Hn' & Hseen').
    destruct (solver_step_lookup_inv _ _ _ _ Hstep Hn')
      as (n & Hn & _ & _ & _ & _ & Hmemoized & _).
    simpl in Hn. unfold level_of in Hlevel. rewrite Hn in Hlevel.
    destruct (proj1 Hfresh id n Hn) as [Hunseen _].
    eapply Hflags; [exact Hn'|]. by apply Hmemoized.
Qed.

(** X19. When the solver has finished, every scope recorded on a memoized
    identifier has been forced, and every dependency of a forced scope has
    been visited; such a dependency is memoized if its level is
    [Memoized], and is not if its level is [Never]. *)
Theorem memoized_scopes_are_forced (fuel : nat) (state : State) (s : Solver) :
  fresh_state state →
  solve fuel state = Ok s →
  (∀ id node sid,
     id ∈ memoized_set s → identifiers state !! id = Some node → sid ∈ scopes node →
     scope_forced s sid)
  ∧ (∀ sid scope d,
       scope_forced s sid → state_scopes state !! sid = Some scope →
       d ∈ scope_dependencies scope →
       identifier_seen s d
       ∧ (level_of state d = Memoized → d ∈ memoized_set s)
       ∧ (level_of state d = Never → d ∉ memoized_set s)).
Proof.
  intros Hfresh Hsolve.
  destruct (solve_closed _ _ _ Hfresh Hsolve) as [Hids Hscs].
  pose proof (solve_step _ _ _ Hsolve) as Hstep.
  destruct (solve_justified _ _ _ Hfresh Hsolve) as [Hflags _].
  split.
  - intros id node sid Hin Hnode Hsid.
    destruct (solve_memoized _ _ _ _ Hsolve Hin)
      as (n & n' & Hn & _ & Hn' & _ & Hmem & _ & _ & Hsc & _).
    rewrite Hnode in Hn. simplify_eq.
    destruct (Hids id (λ H, H) n' Hn') as [_ HM]. apply HM; [done|]. by rewrite Hsc.
  - intros sid scope d (sn & Hsn & Hss) Hscope Hd.
    destruct (solver_step_scope_lookup _ _ _ _ Hstep Hscope) as (sn' & Hsn' & Hsd & _).
    rewrite Hsn in Hsn'. simplify_eq.
    assert (identifier_seen s d) as Hseen.
    { apply (Hscs sid (λ H, H) sn' Hsn Hss). by rewrite Hsd. }
    split; [done|]. destruct Hseen as (n' & Hn' & Hseen').
    destruct (solver_step_lookup_inv _ _ _ _ Hstep Hn')
      as (n & Hn & _ & _ & _ & _ & Hmemoized & Hnever & _).
    simpl in Hn. unfold level_of. rewrite Hn.
    destruct (proj1 Hfresh d n Hn) as [Hunseen _]. split.
    + intros Hlevel. eapply Hflags; [exact Hn'|]. by apply Hmemoized.
    + intros Hlevel Hin.
      destruct (solve_memoized _ _ _ _ Hsolve Hin) as (_ & m & _ & _ & Hm & _ & Hmem & _).
      rewrite Hn' in Hm. simplify_eq. by apply (Hnever Hunseen Hseen' Hmem).
Qed.

(** X20. The solver changes nothing in the state but the [seen] and
    [memoized] flags: it adds and removes no node, and leaves levels,
    dependencies, scopes, [definitions] and [returned] as they are.  When
    it has finished, the identifiers of the set it returns are exactly
    those whose node has the [memoized] flag set, and only visited nodes
    have it set. *)
Theorem solver_only_sets_flags (fuel : nat) (state : State) (s : Solver) :
  fresh_state state →
  solve fuel state = Ok s →
  definitions (graph s) = definitions state
  ∧ returned (graph s) = returned state
  ∧ dom (identifiers (graph s)) = dom (identifiers state)
  ∧ dom (state_scopes (graph s)) = dom (state_scopes state)
  ∧ (∀ id n', identifiers (graph s) !! id = Some n' →
       ∃ n, identifiers state !! id = Some n
            ∧ level n' = level n ∧ dependencies n' = dependencies n
            ∧ scopes n' = scopes n
            ∧ (seen n' = false → n' = n))
  ∧ (∀ sid n', state_scopes (graph s) !! sid = Some n' →
       ∃ n, state_scopes state !! sid = Some n
            ∧ scope_dependencies n' = scope_dependencies n)
  ∧ (∀ id, id ∈ memoized_set s
           ↔ ∃ n', identifiers (graph s) !! id = Some n' ∧ memoized n' = true)
  ∧ (∀ id n', identifiers (graph s) !! id = Some n' → memoized n' = true →
              seen n' = true).
Proof.
  intros Hfresh Hsolve.
  pose proof (solve_step _ _ _ Hsolve) as Hstep.
  destruct (solve_justified _ _ _ Hfresh Hsolve) as [Hflags _].
  pose proof Hstep as (Hids & Hscs & _ & Hdefs & Hret & _).
  split_and!; [exact Hdefs|exact Hret|..].
  - apply set_eq. intros id. rewrite !elem_of_dom.
    specialize (Hids id). simpl in Hids.
    destruct Hids as [n n' _|]; split; intros [? ?]; done || eauto.
  - apply set_eq. intros sid. rewrite !elem_of_dom.
    specialize (Hscs sid). simpl in Hscs.
    destruct Hscs as [n n' _|]; split; intros [? ?]; done || eauto.
  - intros id n' Hn'.
    destruct (solver_step_lookup_inv _ _ _ _ Hstep Hn')
      as (n & Hn & Hl & Hd & Hsc & _ & _ & _ & Hsame).
    exists n. by split_and!.
  - intros sid n' Hn'.
    destruct (solver_step_scope_lookup_inv _ _ _ _ Hstep Hn') as (n & Hn & Hd & _).
    exists n. by split.
  - intros id. split.
    + intros Hin.
      destruct (solve_memoized _ _ _ _ Hsolve Hin) as (_ & n' & _ & _ & Hn' & _ & Hmem & _).
      by exists n'.
    + intros (n' & Hn' & Hmem). by eapply Hflags.
  - intros id n' Hn' Hmem.
    destruct (solver_step_lookup_inv _ _ _ _ Hstep Hn')
      as (n & Hn & _ & _ & _ & _ & _ & _ & Hsame).
    destruct (seen n') eqn:Hseen'; [done|]. rewrite (Hsame eq_refl) in Hmem.
    simpl in Hn. destruct (proj1 Hfresh id n Hn). congruence.
Qed.

(** ** The pass: how it can end *)

Section Outcome.

Variable getPlaceScope : InstructionId → Place → option ReactiveScope.
Variable eachReactiveValueOperand : ReactiveValue → list Place.
Variable options : MemoizationOptions.

(** A loop ends as its iterations do. *)
Lemma for_of_outcome {A S : Type} (E : error → Prop) (body : A → S → result S)
    (xs : list A) :
  (∀ x s, body x s ≠ OutOfFuel ∧ ∀ e, body x s = Throw e → E e) →
  ∀ s, for_of body xs s ≠ OutOfFuel ∧ ∀ e, for_of body xs s = Throw e → E e.
Proof.
  intros Hbody. induction xs as [|x xs IH]; intros s; [done|].
  rewrite for_of_cons. destruct (Hbody x s) as [Hfuel Hthrow].
  destruct (body x s) as [s1|e|]; simpl; [apply IH| |done].
  split; [done|]. intros e' ?. simplify_eq. by apply Hthrow.
Qed.

Lemma visitOperand_outcome id place identifier st :
  visitOperand getPlaceScope id place identifier st ≠ OutOfFuel
  ∧ ∀ e, visitOperand getPlaceScope id place identifier st = Throw e →
         e = ExpectedIdentifierInitialized.
Proof.
  unfold visitOperand. destruct (getPlaceScope id place) as [scope|]; [|done].
  match goal with |- context [identifiers ?st' !! identifier] =>
    destruct (identifiers st' !! identifier) end; [done|].
  split; [done|]. by intros e ?; simplify_eq.
Qed.

Lemma collectInstruction_outcome instruction st :
  collectInstruction getPlaceScope eachReactiveValueOperand options instruction st ≠ OutOfFuel
  ∧ ∀ e, collectInstruction getPlaceScope eachReactiveValueOperand options instruction st
         = Throw e →
         e = UnexpectedUnsupportedNode ∨ e = ExpectedIdentifierInitialized.
Proof.
  unfold collectInstruction.
  pose proof (computeMemoizationInputs_outcome eachReactiveValueOperand
                (instruction_value instruction) (instruction_lvalue instruction) options)
    as Hout.
  destruct (unsupported_result (instruction_value instruction)).
  { rewrite Hout. simpl. split; [done|]. intros e ?. simplify_eq. by left. }
  destruct Hout as [aliasing ->]. simpl.
  destruct (for_of_outcome (λ e, e = ExpectedIdentifierInitialized)
              (λ operand st,
                 visitOperand getPlaceScope (instruction_id instruction) operand
                   (resolve st (identifier_id (identifier operand))) st)
              (rvalues aliasing)
              (λ x s, visitOperand_outcome _ _ _ _) st) as [Hfuel1 Hthrow1].
  unfold visit_rvalues.
  destruct (for_of _ (rvalues aliasing) st) as [st1|e|]; simpl; [| |done].
  - destruct (for_of_outcome (λ e, e = ExpectedIdentifierInitialized)
                (visit_lvalue getPlaceScope (instruction_id instruction) (rvalues aliasing))
                (lvalues aliasing)
                (λ x s, visitOperand_outcome _ _ _ _) st1) as [Hfuel2 Hthrow2].
    destruct (for_of _ (lvalues aliasing) st1) as [st2|e|]; simpl; [done| |done].
    split; [done|]. intros e' ?. simplify_eq. right. by apply Hthrow2.
  - split; [done|]. intros e' ?. simplify_eq. right. by apply Hthrow1.
Qed.

Lemma collectDependencies_outcome fn :
  collectDependencies getPlaceScope eachReactiveValueOperand fn options ≠ OutOfFuel
  ∧ ∀ e, collectDependencies getPlaceScope eachReactiveValueOperand fn options = Throw e →
         e = UnexpectedUnsupportedNode ∨ e = ExpectedIdentifierInitialized.
Proof.
  rewrite collectDependencies_events. unfold run_events. apply for_of_outcome.
  intros [instruction|id] s; simpl; [apply collectInstruction_outcome|done].
Qed.

(** X21. The pass always ends.  It aborts only when one of three checks
    fails: the collector's check of an unsupported node or of an operand in
    a scope whose identifier has no node, or
    the solver's check of an identifier without a node.  The solver's
    check of a scope without a node never fails in the pass. *)
Theorem pruneNonEscapingScopes_outcome fn :
  pruneNonEscapingScopes getPlaceScope eachReactiveValueOperand fn options ≠ OutOfFuel
  ∧ (∀ e,
       pruneNonEscapingScopes getPlaceScope eachReactiveValueOperand fn options = Throw e →
       (collectDependencies getPlaceScope eachReactiveValueOperand fn options = Throw e
        ∧ (e = UnexpectedUnsupportedNode ∨ e = ExpectedIdentifierInitialized))
       ∨ (∃ state,
            collectDependencies getPlaceScope eachReactiveValueOperand fn options = Ok state
            ∧ computeMemoizedIdentifiers state = Throw e
            ∧ e = ExpectedNodeForIdentifier))
  ∧ pruneNonEscapingScopes getPlaceScope eachReactiveValueOperand fn options
    ≠ Throw ExpectedNodeForScope.
Proof.
  destruct (collectDependencies_outcome fn) as [Hfuel Hthrow].
  assert (∀ state,
            collectDependencies getPlaceScope eachReactiveValueOperand fn options = Ok state →
            ∀ e, computeMemoizedIdentifiers state = Throw e → e = ExpectedNodeForIdentifier)
    as Hsolver.
  { intros state Hcollect e He. rewrite collectDependencies_events in Hcollect.
    apply run_events_facts in Hcollect as (_ & Hinv & _).
    destruct (Hinv (declare_function_inv fn)) as (_ & Hclosed & _).
    unfold computeMemoizedIdentifiers, computeMemoizedIdentifiers_fuel in He.
    destruct (solve (S (unseen_nodes state)) state) as [s|e'|] eqn:Hsolve;
      simpl in He; [done| |done].
    simplify_eq. by eapply solve_throw. }
  unfold pruneNonEscapingScopes.
  destruct (collectDependencies getPlaceScope eachReactiveValueOperand fn options)
    as [state|e|] eqn:Hcollect; simpl; [| |by destruct Hfuel].
  - pose proof (computeMemoizedIdentifiers_fuelled state) as Hfuel'.
    specialize (Hsolver state eq_refl).
    destruct (computeMemoizedIdentifiers state) as [memoized|e|] eqn:Hmemo; simpl;
      [by split_and!| |by destruct Hfuel'].
    specialize (Hsolver e eq_refl). subst e.
    split_and!; [done| |done].
    intros e' ?. simplify_eq. right. by exists state.
  - split_and!; [done| |].
    + intros e' ?. simplify_eq. left. split; [done|]. by apply Hthrow.
    + intros ?. simplify_eq. by destruct (Hthrow _ eq_refl).
Qed.

End Outcome.

(** ** The pass: which scopes it keeps *)

Lemma memoized_reachable state memo :
  fresh_state state →
  computeMemoizedIdentifiers state = Ok memo →
  (∀ id, id ∈ memo → solver_reaches state memo id ∧ level_of state id ≠ Never)
  ∧ (∀ id, solver_reaches state memo id → level_of state id = Memoized → id ∈ memo).
Proof.
  intros Hfresh Hrun. unfold computeMemoizedIdentifiers in Hrun.
  apply computeMemoizedIdentifiers_fuel_solve in Hrun as (s & Hsolve & ->).
  pose proof (solve_sound _ _ _ Hfresh Hsolve) as Hsound.
  pose proof (solve_step _ _ _ Hsolve) as Hstep.
  destruct (solve_justified _ _ _ Hfresh Hsolve) as [Hflags _].
  split.
  - intros id Hin.
    destruct (solve_memoized _ _ _ _ Hsolve Hin)
      as (n & n' & Hn & Hunseen & Hn' & Hseen' & Hmem & Hnode).
    split; [by eapply Hsound|].
    unfold level_of. rewrite Hn.
    destruct Hnode as (_ & _ & _ & _ & _ & Hnever & _). by apply Hnever.
  - intros id Hreach Hlevel.
    destruct (solve_complete _ _ _ _ Hfresh Hsolve Hreach) as (n' & Hn' & Hseen').
    destruct (solver_step_lookup_inv _ _ _ _ Hstep Hn')
      as (n & Hn & _ & _ & _ & _ & Hmemoized & _).
    simpl in Hn. unfold level_of in Hlevel. rewrite Hn in Hlevel.
    destruct (proj1 Hfresh id n Hn) as [Hunseen _].
    eapply Hflags; [exact Hn'|]. by apply Hmemoized.
Qed.

Lemma has_memoized_output_outputs scope memo :
  has_memoized_output scope memo ↔ ∃ id, id ∈ scope_outputs scope ∧ id ∈ memo.
Proof.
  unfold has_memoized_output, scope_outputs. by setoid_rewrite elem_of_app.
Qed.

(** X22. When the pass succeeds, it keeps every scope that declares or
    reassigns an identifier of level [Memoized] that can be reached from a
    returned identifier, and it keeps a scope only if the scope declares or
    reassigns an identifier that can be reached from a returned identifier
    and whose level is not [Never]. *)
Theorem pruneNonEscapingScopes_keeps_escaping_scopes
    (getPlaceScope : InstructionId → Place → option ReactiveScope)
    (eachReactiveValueOperand : ReactiveValue → list Place)
    (fn : ReactiveFunction) (options : MemoizationOptions) (fn' : ReactiveFunction) :
  pruneNonEscapingScopes getPlaceScope eachReactiveValueOperand fn options = Ok fn' →
  ∃ state memo,
    collectDependencies getPlaceScope eachReactiveValueOperand fn options = Ok state
    ∧ computeMemoizedIdentifiers state = Ok memo
    ∧ (∀ scope id,
         scope ∈ block_scopes (body fn) →
         id ∈ scope_outputs scope →
         solver_reaches state memo id →
         level_of state id = Memoized →
         scope ∈ block_scopes (body fn'))
    ∧ (∀ scope,
         scope ∈ block_scopes (body fn') →
         scope ∈ block_scopes (body fn)
         ∧ ∃ id, id ∈ scope_outputs scope
                 ∧ solver_reaches state memo id
                 ∧ level_of state id ≠ Never).
Proof.
  intros Hrun.
  apply pruneNonEscapingScopes_Ok in Hrun as (state & memo & Hstate & Hmemo & ->).
  exists state, memo. split; [done|]. split; [done|]. simpl.
  assert (fresh_state state) as Hfresh.
  { rewrite collectDependencies_events in Hstate.
    apply run_events_facts in Hstate as (_ & Hinv & _).
    by destruct (Hinv (declare_function_inv fn)) as (? & _). }
  destruct (memoized_reachable state memo Hfresh Hmemo) as [Hsound Hcomplete].
  split.
  - intros scope id Hscope Hid Hreach Hlevel.
    rewrite transformBlock_kept. apply list_elem_of_filter. split; [|done].
    apply hasMemoizedOutput_spec, has_memoized_output_outputs.
    exists id. split; [done|]. by apply Hcomplete.
  - intros scope Hscope. rewrite transformBlock_kept in Hscope.
    apply list_elem_of_filter in Hscope as [Hout Hscope]. split; [done|].
    apply hasMemoizedOutput_spec, has_memoized_output_outputs in Hout as (id & Hid & Hin).
    exists id. destruct (Hsound id Hin). done.
Qed.

(** ** The pass on functions that define what they use *)

Section DefinedProperties.

Variable getPlaceScope : InstructionId → Place → option ReactiveScope.
Variable eachReactiveValueOperand : ReactiveValue → list Place.
Variable options : MemoizationOptions.
Variable R : IdentifierId → Prop.
Hypothesis scope_dependencies_in :
  ∀ id place scope dep,
    getPlaceScope id place = Some scope →
    dep ∈ scope_scope_dependencies scope →
    R (identifier_id (dependency_identifier dep)).

Lemma visitOperand_mentions id place identifier st st' :
  visitOperand getPlaceScope id place identifier st = Ok st' →
  mentions_only R st → mentions_only R st'.
Proof using scope_dependencies_in.
  intros Hrun (Hids & Hdefs & Hscs).
  destruct (visitOperand_Ok _ _ _ _ _ _ Hrun)
    as [[Hnone ->]|(scope & node & Hscope & Hnode & ->)]; [done|].
  assert (∀ sid n, state_scopes (with_scope scope st) !! sid = Some n →
                   ∀ d, d ∈ scope_dependencies n → R d) as Hscs'.
  { intros sid n Hn d Hd. apply with_scope_new in Hn as [Hn| ->]; [by eapply Hscs|].
    simpl in Hd. apply list_elem_of_fmap in Hd as (dep & -> & Hdep).
    by eapply scope_dependencies_in. }
  assert (identifiers (with_scope scope st) = identifiers st
          ∧ definitions (with_scope scope st) = definitions st) as [Hi Hd].
  { unfold with_scope. by destruct (state_scopes st !! scope_id scope). }
  split_and!; simpl.
  - intros x n Hn d Hdep. rewrite lookup_insert in Hn. case_decide.
    + simplify_eq. simpl in Hdep. by eapply Hids.
    + rewrite Hi in Hn. by eapply Hids.
  - intros k v Hk. rewrite Hd in Hk. by eapply Hdefs.
  - exact Hscs'.
Qed.

Lemma visit_rvalues_mentions id rvalues st st' :
  visit_rvalues getPlaceScope id rvalues st = Ok st' →
  mentions_only R st → mentions_only R st'.
Proof using scope_dependencies_in.
  unfold visit_rvalues. intros Hrun Hst.
  apply (for_of_invariant (mentions_only R) _ _ _ _ Hrun); [done|].
  intros operand a a' _ Ha Hbody. by eapply visitOperand_mentions.
Qed.

Lemma visit_lvalue_mentions id rvalues lv st st' :
  (∀ operand, operand ∈ rvalues → R (resolve st (identifier_id (identifier operand)))) →
  visit_lvalue getPlaceScope id rvalues lv st = Ok st' →
  mentions_only R st → mentions_only R st'.
Proof using scope_dependencies_in.
  intros Hrv Hrun Hst. rewrite visit_lvalue_unfold in Hrun.
  eapply visitOperand_mentions; [exact Hrun|].
  destruct Hst as (Hids & Hdefs & Hscs). split_and!; simpl; [|done|done].
  intros x n Hn d Hd. rewrite lookup_insert in Hn. case_decide; [|by eapply Hids].
  simplify_eq. unfold lvalue_node in Hd.
  match type of Hd with
  | d ∈ dependencies (add_dependencies st ?l ?n0 rvalues) =>
      destruct (add_dependencies_facts st l rvalues n0) as (_ & _ & _ & _ & Hdeps)
  end.
  apply Hdeps in Hd as [Hd|(_ & operand & Hop & <-)]; [|by apply Hrv].
  simpl in Hd.
  destruct (identifiers st !! resolve st (identifier_id (identifier (lv_place lv))))
    as [n0|] eqn:Hn0; [by eapply Hids|by apply elem_of_nil in Hd].
Qed.

Lemma collectInstruction_mentions instruction st st' :
  (∀ aliasing operand,
     computeMemoizationInputs eachReactiveValueOperand (instruction_value instruction)
       (instruction_lvalue instruction) options = Ok aliasing →
     operand ∈ rvalues aliasing → R (identifier_id (identifier operand))) →
  collectInstruction getPlaceScope eachReactiveValueOperand options instruction st = Ok st' →
  mentions_only R st → mentions_only R st'.
Proof using scope_dependencies_in.
  intros Hraw Hrun Hst. unfold collectInstruction in Hrun.
  apply bind_Ok in Hrun as (aliasing & Hal & Hrun).
  apply bind_Ok in Hrun as (st1 & Hrv & Hrun).
  apply bind_Ok in Hrun as (st2 & Hlv & Hrun). simplify_eq.
  pose proof (visit_rvalues_mentions _ _ _ _ Hrv Hst) as Hst1.
  pose proof (visit_rvalues_facts _ _ _ _ _ Hrv) as (_ & Hd1 & _).
  assert (∀ d operand, d = definitions st → operand ∈ rvalues aliasing →
                       R (resolve_with d (identifier_id (identifier operand)))) as Hres.
  { intros d operand -> Hop. unfold resolve_with.
    destruct (definitions st !! identifier_id (identifier operand)) as [v|] eqn:Hv.
    - destruct Hst as (_ & Hdefs & _). by eapply Hdefs.
    - by eapply Hraw. }
  assert (mentions_only R st2 ∧ definitions st2 = definitions st) as [Hst2 Hd2].
  { apply (for_of_invariant (λ s, mentions_only R s ∧ definitions s = definitions st)
             _ _ _ _ Hlv); [done|].
    intros lv a a' _ [Ha Hda] Hbody.
    pose proof (visit_lvalue_facts _ _ _ _ _ _ Hbody) as (_ & Hda' & _).
    split; [|congruence].
    eapply visit_lvalue_mentions; [|exact Hbody|exact Ha].
    intros operand Hop. rewrite resolve_resolve_with. by apply Hres. }
  destruct (record_definition_other instruction st2) as (Hids & Hscs & _).
  destruct Hst2 as (Hi2 & Hdf2 & Hs2).
  split_and!; rewrite ?Hids, ?Hscs; [done| |done].
  intros k v. rewrite record_definition_definitions. unfold definitions_after.
  destruct (instruction_value instruction) eqn:Hv; try apply Hdf2.
  destruct (instruction_lvalue instruction) as [lvalue|] eqn:Hl; [|apply Hdf2].
  rewrite lookup_insert. case_decide; [|apply Hdf2].
  intros ?. simplify_eq. apply (Hraw aliasing); [done|].
  rewrite ?Hv, ?Hl in Hal. simpl in Hal. simplify_eq. simpl. left.
Qed.

End DefinedProperties.

Section DefinedPass.

Variable getPlaceScope : InstructionId → Place → option ReactiveScope.
Variable eachReactiveValueOperand : ReactiveValue → list Place.
Variable options : MemoizationOptions.

(** X23. When every identifier that a function uses (the rvalues of its
    instructions, its returned identifiers and the dependencies of the
    scopes of its places) is the function's own id, a parameter or an
    lvalue of one of its instructions, the solver cannot abort: if the
    collector succeeds, every dependency in the graph and every returned
    identifier has a node, and the pass returns a function. *)
Theorem pruneNonEscapingScopes_succeeds (fn : ReactiveFunction) (state : State) :
  uses_defined getPlaceScope eachReactiveValueOperand options fn →
  collectDependencies getPlaceScope eachReactiveValueOperand fn options = Ok state →
  identifiers_closed state
  ∧ (∀ id, id ∈ returned state → is_Some (identifiers state !! id))
  ∧ ∃ memoized,
      computeMemoizedIdentifiers state = Ok memoized
      ∧ pruneNonEscapingScopes getPlaceScope eachReactiveValueOperand fn options
        = Ok {| fn_id := fn_id fn; params := params fn;
                body := transformBlock memoized (body fn) |}.
Proof.
  intros (Hrvalues & Hreturned & Hscopes) Hcollect.
  pose proof Hcollect as Hrun. rewrite collectDependencies_events in Hrun.
  pose proof (run_events_facts _ _ _ _ _ _ Hrun) as (Hstep & Hinv & _ & Hlv & _).
  destruct (Hinv (declare_function_inv fn)) as (_ & Hclosed & _).
  destruct (declare_function_declared fn) as [Hf Hp].
  assert (∀ x, defined_in eachReactiveValueOperand options fn x →
               is_Some (identifiers state !! x)) as Hnode.
  { intros x [Hx|[Hx|(instruction & aliasing & lv & Hin & Hal & Hlvin & <-)]].
    - destruct (proj1 Hstep _ _ (Hf _ Hx)) as (n & Hn & _). by exists n.
    - apply list_elem_of_fmap in Hx as (p & -> & Hx).
      destruct (proj1 Hstep _ _ (Hp _ Hx)) as (n & Hn & _). by exists n.
    - eapply Hlv; [apply declare_function_inv|done..]. }
  assert (mentions_only (defined_in eachReactiveValueOperand options fn) state)
    as (Hdeps & _ & Hsdeps).
  { unfold run_events in Hrun.
    apply (for_of_invariant
             (mentions_only (defined_in eachReactiveValueOperand options fn))
             _ _ _ _ Hrun).
    - split_and!.
      + intros id n Hn d Hd. apply declare_function_lookup in Hn as ->.
        by apply elem_of_nil in Hd.
      + intros k v. rewrite (proj2 (declare_function_level fn 0)). by rewrite lookup_empty.
      + intros sid n. unfold declare_function.
        destruct (foldl_declare_other (params fn)
                    match fn_id fn with
                    | Some f => declare (identifier_id f) empty_State
                    | None => empty_State
                    end) as (_ & -> & _).
        destruct (fn_id fn); simpl; by rewrite lookup_empty.
    - intros [instruction|id] a a' Hin Ha Hbody; simpl in Hbody.
      + eapply collectInstruction_mentions; [exact Hscopes| |exact Hbody|exact Ha].
        intros aliasing operand. by apply Hrvalues.
      + by simplify_eq. }
  assert (identifiers_closed state) as Hic.
  { split.
    - intros id n Hn d Hd. apply Hnode. by eapply Hdeps.
    - intros sid n Hn d Hd. apply Hnode. by eapply Hsdeps. }
  assert (∀ id, id ∈ returned state → is_Some (identifiers state !! id)) as Hret.
  { intros id Hid. apply Hnode, Hreturned.
    apply run_events_returned in Hrun. rewrite Hrun in Hid.
    apply elem_of_foldl_set_add in Hid as [Hid|Hid]; [|by apply elem_of_returned_ids].
    unfold declare_function in Hid.
    destruct (foldl_declare_other (params fn)
                match fn_id fn with
                | Some f => declare (identifier_id f) empty_State
                | None => empty_State
                end) as (_ & _ & Hr).
    rewrite Hr in Hid. destruct (fn_id fn); by apply elem_of_nil in Hid. }
  split; [exact Hic|]. split; [exact Hret|].
  destruct (computeMemoizedIdentifiers state) as [memoized|e|] eqn:Hmemo.
  - exists memoized. split; [done|]. unfold pruneNonEscapingScopes.
    rewrite Hcollect. simpl. by rewrite Hmemo.
  - exfalso. unfold computeMemoizedIdentifiers, computeMemoizedIdentifiers_fuel in Hmemo.
    destruct (solve (S (unseen_nodes state)) state) as [s|e'|] eqn:Hsolve;
      simpl in Hmemo; [done| |done].
    simplify_eq. destruct (solve_throw _ _ _ Hclosed Hsolve) as [_ Hnot]. by apply Hnot.
  - exfalso. revert Hmemo. apply computeMemoizedIdentifiers_fuelled.
Qed.

End DefinedPass.

(** * The properties on concrete inputs *)

#[global] Instance fresh_state_dec (state : State) : Decision (fresh_state state).
Proof.
  change (Decision
            (map_Forall (λ _ n, seen n = false ∧ memoized n = false) (identifiers state)
             ∧ map_Forall (λ _ n, scope_seen n = false) (state_scopes state))).
  apply _.
Defined.

Example identity_fn_collected :
  collectDependencies (example_getPlaceScope ∅) example_operands identity_fn default_options
  = Ok identity_state.
Proof. vm_compute. reflexivity. Qed.

Example identity_fn_memoized : computeMemoizedIdentifiers identity_state = Ok ∅.
Proof. vm_compute. reflexivity. Qed.

Example free_variable_fn_collected :
  collectDependencies (example_getPlaceScope ∅) example_operands free_variable_fn
    default_options
  = Ok free_variable_state.
Proof. vm_compute. reflexivity. Qed.

(** The store into the temporary [1] gives a node to [7], which the
    function mentions as an rvalue only. *)
Example alias_store_fn_collected :
  collectDependencies (example_getPlaceScope ∅) example_operands alias_store_fn
    default_options
  = Ok alias_store_state
  ∧ classifications example_operands default_options ∅
      (block_events (body alias_store_fn)) 7 = [Memoized].
Proof. split; vm_compute; reflexivity. Qed.

Example jsx_in_array_fn_collected :
  collectDependencies (example_getPlaceScope jsx_scopes) example_operands jsx_in_array_fn
    default_options
  = Ok jsx_in_array_state.
Proof. vm_compute. reflexivity. Qed.

Example jsx_in_array_fn_memoized :
  computeMemoizedIdentifiers jsx_in_array_state = Ok {[2]}.
Proof. vm_compute. reflexivity. Qed.

Example cyclic_state_memoized : computeMemoizedIdentifiers cyclic_state = Ok ∅.
Proof. vm_compute. reflexivity. Qed.

(** The body of the function is pruned to one block only: not to the block
    in which the scope that is kept has been emptied and its instruction
    moved behind it, which has the same instructions in the same order and
    the same scopes. *)
Example jsx_in_array_fn_pruned_block :
  pruned_block {[2]} (body jsx_in_array_fn) (body jsx_in_array_pruned)
  ∧ ¬ pruned_block {[2]} (body jsx_in_array_fn)
        [InstructionStatement jsx_instruction;
         ScopeStatement scope_m [];
         InstructionStatement array_instruction;
         TerminalStatement (ReturnTerminal (Some array_m))].
Proof.
  split.
  - change (body jsx_in_array_pruned) with (transformBlock {[2]} (body jsx_in_array_fn)).
    apply transformBlock_pruned.
  - intros Hpruned. apply pruned_block_transformBlock in Hpruned.
    vm_compute in Hpruned. discriminate.
Qed.

(** With JSX memoization on, the same function keeps both scopes. *)
Example jsx_in_array_fn_memoizeJsx :
  pruneNonEscapingScopes (example_getPlaceScope jsx_scopes) example_operands
    jsx_in_array_fn {| memoizeJsxElements := true |}
  = Ok jsx_in_array_fn.
Proof. vm_compute. reflexivity. Qed.

(** A chain in [definitions] is followed for one step only. *)
Example resolve_chain :
  resolve {| definitions := {[1 := 2; 2 := 3]}; identifiers := ∅; state_scopes := ∅;
             returned := [] |} 1 = 2.
Proof. vm_compute. reflexivity. Qed.

(** The check of [visitOperand] fails when an rvalue that is in a scope has
    no node. *)
Example free_variable_in_scope :
  collectDependencies (example_getPlaceScope {[7 := scope_u]}) example_operands
    free_variable_fn default_options
  = Throw ExpectedIdentifierInitialized.
Proof. vm_compute. reflexivity. Qed.

(** ** The claims on the concrete inputs *)


Lemma transformScope_keeps_memoized_outputs_witness :
  scope_m ∈ block_scopes (transformBlock {[2]} (body jsx_in_array_fn))
  ∧ has_memoized_output scope_m {[2]}.
Proof.
  assert (scope_m ∈ block_scopes (transformBlock {[2]} (body jsx_in_array_fn))) as Hin.
  { vm_compute. left. }
  split; [exact Hin|].
  exact (proj2 (proj2 (transformScope_keeps_memoized_outputs {[2]}))
           (body jsx_in_array_fn) scope_m Hin).
Defined.

(** C3 (code bug). On [jsx_in_array_fn] the transform keeps the scope of
    the array, the solver forces that scope, and the JSX identifier, which
    is a dependency of the scope and has level [Unmemoized], is not in the
    memoized set: it was visited as a dependency of the array before the
    scope was forced, and the forced visit found it marked. *)
Theorem forced_dependency_not_memoized :
  ∃ s,
    collectDependencies (example_getPlaceScope jsx_scopes) example_operands
      jsx_in_array_fn default_options = Ok jsx_in_array_state
    ∧ solve (S (unseen_nodes jsx_in_array_state)) jsx_in_array_state = Ok s
    ∧ computeMemoizedIdentifiers jsx_in_array_state = Ok (memoized_set s)
    ∧ pruneNonEscapingScopes (example_getPlaceScope jsx_scopes) example_operands
        jsx_in_array_fn default_options = Ok jsx_in_array_pruned
    ∧ scope_m ∈ block_scopes (body jsx_in_array_pruned)
    ∧ mkDependency (mkIdentifier 1) ∈ scope_scope_dependencies scope_m
    ∧ level_of jsx_in_array_state 1 = Unmemoized
    ∧ forced_by_scope s 1
    ∧ 1 ∉ memoized_set s.
Proof.
  eexists. split_and!.
  - vm_compute. reflexivity.
  - vm_compute. reflexivity.
  - vm_compute. reflexivity.
  - vm_compute. reflexivity.
  - vm_compute. left.
  - left.
  - reflexivity.
  - exists 2, {| scope_dependencies := [1]; scope_seen := true |}.
    split_and!; [vm_compute; reflexivity|reflexivity|left].
  - apply (bool_decide_unpack _). vm_compute. exact I.
Qed.

Lemma return_coverage_counterexample : ¬ return_coverage_as_stated identity_state.
Proof.
  intros Hclaim.
  destruct (solve (S (unseen_nodes identity_state)) identity_state) as [s| |] eqn:Hsolve;
    [|vm_compute in Hsolve; discriminate..].
  destruct (Hclaim s Hsolve 1
              {| level := Conditional; memoized := false; dependencies := [0];
                 scopes := []; seen := false |})
    as [Hnever|[[Hun _]|Hin]].
  - left.
  - reflexivity.
  - discriminate.
  - discriminate.
  - vm_compute in Hsolve. injection Hsolve as <-. revert Hin.
    apply (bool_decide_unpack _). vm_compute. exact I.
Qed.

Lemma returned_coverage_witness :
  ∃ s, solve 3 jsx_in_array_state = Ok s ∧ 2 ∈ memoized_set s.
Proof.
  destruct (solve 3 jsx_in_array_state) as [s| |] eqn:Hsolve;
    [|vm_compute in Hsolve; discriminate..].
  exists s. split; [reflexivity|].
  destruct (returned_coverage 3 jsx_in_array_state s 2) as (node & Hnode & Hmem & _).
  - apply (bool_decide_unpack _). vm_compute. exact I.
  - exact Hsolve.
  - left.
  - apply Hmem. vm_compute in Hnode. injection Hnode as <-. reflexivity.
Defined.

Lemma nodes_for_all_operands_counterexample :
  collectDependencies (example_getPlaceScope ∅) example_operands free_variable_fn
    default_options = Ok free_variable_state
  ∧ ¬ nodes_for_all_operands_as_stated example_operands default_options
        free_variable_fn free_variable_state
  ∧ computeMemoizedIdentifiers free_variable_state = Throw ExpectedNodeForIdentifier.
Proof.
  split_and!.
  - vm_compute. reflexivity.
  - intros Hclaim.
    destruct (Hclaim free_load
                {| lvalues := [mkLValue identity_t Conditional]; rvalues := [free_x] |})
      as [_ Hrvalues].
    + left.
    + reflexivity.
    + destruct (Hrvalues free_x) as [n Hn]; [left|].
      vm_compute in Hn. discriminate.
  - vm_compute. reflexivity.
Qed.

Lemma collector_creates_nodes_witness :
  collectDependencies (example_getPlaceScope jsx_scopes) example_operands jsx_in_array_fn
    default_options = Ok jsx_in_array_state
  ∧ scopes_closed jsx_in_array_state
  ∧ is_Some (identifiers jsx_in_array_state !! 2).
Proof.
  assert (collectDependencies (example_getPlaceScope jsx_scopes) example_operands
            jsx_in_array_fn default_options = Ok jsx_in_array_state) as Hrun
    by (vm_compute; reflexivity).
  destruct (collector_creates_nodes _ _ _ _ _ Hrun) as (_ & _ & Hlv & _ & _ & Hclosed & _).
  split_and!; [exact Hrun|exact Hclosed|].
  apply (Hlv array_instruction
           {| lvalues := [mkLValue array_m Memoized]; rvalues := [jsx_u] |}
           (mkLValue array_m Memoized)).
  - vm_compute. right. left.
  - reflexivity.
  - left.
Defined.


Lemma joinAliases_lattice_max_witness :
  collectDependencies (example_getPlaceScope jsx_scopes) example_operands jsx_in_array_fn
    default_options = Ok jsx_in_array_state
  ∧ level_of jsx_in_array_state 2
    = foldr level_max Never
        (classifications example_operands default_options ∅
           (block_events (body jsx_in_array_fn)) 2).
Proof.
  assert (collectDependencies (example_getPlaceScope jsx_scopes) example_operands
            jsx_in_array_fn default_options = Ok jsx_in_array_state) as Hrun
    by (vm_compute; reflexivity).
  split; [exact Hrun|].
  destruct joinAliases_lattice_max as (_ & _ & _ & _ & _ & Hlevel).
  exact (proj1 (Hlevel _ _ _ _ _ 2 Hrun)).
Defined.


Lemma never_level_is_never_memoized_witness :
  computeMemoizedIdentifiers_fuel 4 jsx_in_array_state = Ok {[2]}
  ∧ identifiers jsx_in_array_state !! 0 = Some fresh_node
  ∧ 0 ∉ ({[2]} : gset nat).
Proof.
  assert (computeMemoizedIdentifiers_fuel 4 jsx_in_array_state = Ok {[2]}) as Hrun
    by (vm_compute; reflexivity).
  assert (identifiers jsx_in_array_state !! 0 = Some fresh_node) as Hnode
    by (vm_compute; reflexivity).
  split_and!; [exact Hrun|exact Hnode|].
  exact (proj1 never_level_is_never_memoized 4 jsx_in_array_state {[2]} Hrun
           0 fresh_node Hnode eq_refl).
Defined.

(** ** The further properties on the concrete inputs *)

Lemma computeMemoizationInputs_lvalue_witness :
  ∃ without level before after,
    computeMemoizationInputs example_operands destructure_value None default_options
    = Ok without
    ∧ [identity_x] = rvalues without
    ∧ lvalues without = before ++ after
    ∧ [mkLValue identity_t Conditional; mkLValue destructure_a Conditional;
       mkLValue destructure_b Memoized]
      = before ++ mkLValue identity_t level :: after.
Proof.
  apply (computeMemoizationInputs_lvalue example_operands destructure_value identity_t
           default_options
           {| lvalues := [mkLValue identity_t Conditional; mkLValue destructure_a Conditional;
                          mkLValue destructure_b Memoized];
              rvalues := [identity_x] |}).
  reflexivity.
Defined.

Lemma computeMemoizationInputs_allocating_witness :
  allocates (ArrayExpression [jsx_u; destructure_a]) = true
  ∧ ∃ aliasing,
      computeMemoizationInputs example_operands (ArrayExpression [jsx_u; destructure_a])
        (Some array_m) default_options = Ok aliasing
      ∧ rvalues aliasing = [jsx_u; destructure_a]
      ∧ mkLValue destructure_a Memoized ∈ lvalues aliasing
      ∧ mkLValue jsx_u Memoized ∉ lvalues aliasing.
Proof.
  split; [reflexivity|].
  destruct (computeMemoizationInputs_allocating example_operands
              (ArrayExpression [jsx_u; destructure_a]) (Some array_m) default_options
              eq_refl) as (aliasing & Hrun & Hrv & Hlv).
  exists aliasing. split_and!; [exact Hrun|exact Hrv| |].
  - apply Hlv. split; [reflexivity|]. left. split; [right; left|right; right; left].
  - intros Hin. apply Hlv in Hin as [_ [[_ Heffect]|Heq]].
    + vm_compute in Heffect. by repeat (apply elem_of_cons in Heffect as [?|Heffect]);
        try apply elem_of_nil in Heffect.
    + discriminate.
Defined.

Lemma memoizeJsxElements_only_changes_jsx_level_witness :
  ∃ aliasing',
    computeMemoizationInputs example_operands (JsxFragment [identity_x]) (Some jsx_u)
      {| memoizeJsxElements := true |} = Ok aliasing'
    ∧ rvalues aliasing' = [identity_x]
    ∧ lv_place <$> lvalues aliasing' = [jsx_u].
Proof.
  destruct (memoizeJsxElements_only_changes_jsx_level example_operands
              (JsxFragment [identity_x]) (Some jsx_u) default_options
              {| memoizeJsxElements := true |}
              {| lvalues := [mkLValue jsx_u Unmemoized]; rvalues := [identity_x] |}
              eq_refl) as (aliasing' & Hrun & Hrv & Hlv & _).
  exists aliasing'. split_and!; [exact Hrun|exact Hrv|exact Hlv].
Defined.

Lemma visitOperand_idempotent_witness :
  ∃ st',
    visitOperand (example_getPlaceScope jsx_scopes) 1 jsx_u 1 (declare 1 empty_State) = Ok st'
    ∧ visitOperand (example_getPlaceScope jsx_scopes) 1 jsx_u 1 st' = Ok st'.
Proof.
  destruct (visitOperand (example_getPlaceScope jsx_scopes) 1 jsx_u 1 (declare 1 empty_State))
    as [st'| |] eqn:Hrun; [|vm_compute in Hrun; discriminate..].
  exists st'. split; [reflexivity|].
  exact (visitOperand_idempotent (example_getPlaceScope jsx_scopes) 1 jsx_u 1 _ st' Hrun).
Defined.

Lemma collector_no_self_dependency_witness :
  collectDependencies (example_getPlaceScope jsx_scopes) example_operands jsx_in_array_fn
    default_options = Ok jsx_in_array_state
  ∧ (∀ id node, identifiers jsx_in_array_state !! id = Some node → id ∉ dependencies node).
Proof.
  assert (collectDependencies (example_getPlaceScope jsx_scopes) example_operands
            jsx_in_array_fn default_options = Ok jsx_in_array_state) as Hrun
    by (vm_compute; reflexivity).
  split; [exact Hrun|].
  exact (proj1 (collector_no_self_dependency _ _ _ _ _ Hrun)).
Defined.

Lemma collector_returned_witness :
  collectDependencies (example_getPlaceScope jsx_scopes) example_operands jsx_in_array_fn
    default_options = Ok jsx_in_array_state
  ∧ NoDup (returned jsx_in_array_state)
  ∧ (2 ∈ returned jsx_in_array_state
     ↔ ReturnEvent 2 ∈ block_events (body jsx_in_array_fn)).
Proof.
  assert (collectDependencies (example_getPlaceScope jsx_scopes) example_operands
            jsx_in_array_fn default_options = Ok jsx_in_array_state) as Hrun
    by (vm_compute; reflexivity).
  destruct (collector_returned _ _ _ _ _ Hrun) as (_ & Hnodup & Hin).
  split_and!; [exact Hrun|exact Hnodup|exact (Hin 2)].
Defined.

Lemma collectInstruction_records_witness :
  ∃ st' node,
    collectInstruction (example_getPlaceScope jsx_scopes) example_operands default_options
      array_instruction
      (declare 1 (declare 0 empty_State)) = Ok st'
    ∧ identifiers st' !! 2 = Some node
    ∧ level_le Memoized (level node)
    ∧ 1 ∈ dependencies node
    ∧ 2 ∈ scopes node.
Proof.
  destruct (collectInstruction (example_getPlaceScope jsx_scopes) example_operands
              default_options array_instruction (declare 1 (declare 0 empty_State)))
    as [st'| |] eqn:Hrun; [|vm_compute in Hrun; discriminate..].
  destruct (collectInstruction_records _ _ _ _ _ _ Hrun) as (aliasing & Hal & Hlv & _).
  vm_compute in Hal. injection Hal as <-.
  destruct (Hlv (mkLValue array_m Memoized)) as (node & Hnode & Hlevel & Hdeps & Hscopes);
    [left|].
  exists st', node. split_and!; [reflexivity|exact Hnode|exact Hlevel| |].
  - apply (Hdeps jsx_u); [left|]. vm_compute. discriminate.
  - apply (Hscopes scope_m). vm_compute. reflexivity.
Defined.

Lemma pruneNonEscapingScopes_preserves_witness :
  ∃ state memoized,
    collectDependencies (example_getPlaceScope jsx_scopes) example_operands jsx_in_array_fn
      default_options = Ok state
    ∧ computeMemoizedIdentifiers state = Ok memoized
    ∧ block_events (body jsx_in_array_pruned) = block_events (body jsx_in_array_fn)
    ∧ block_scopes (body jsx_in_array_pruned)
      = filter (λ scope, hasMemoizedOutput scope memoized = true)
          (block_scopes (body jsx_in_array_fn))
    ∧ pruned_block memoized (body jsx_in_array_fn) (body jsx_in_array_pruned).
Proof.
  destruct (pruneNonEscapingScopes_preserves (example_getPlaceScope jsx_scopes)
              example_operands jsx_in_array_fn default_options jsx_in_array_pruned)
    as (state & memoized & Hs & Hm & _ & _ & He & Hsc & Hpruned & _).
  - vm_compute. reflexivity.
  - exists state, memoized. split_and!; [exact Hs|exact Hm|exact He|exact Hsc|exact Hpruned].
Defined.

Lemma pruneNonEscapingScopes_idempotent_witness :
  pruneNonEscapingScopes (example_getPlaceScope jsx_scopes) example_operands
    jsx_in_array_fn default_options = Ok jsx_in_array_pruned
  ∧ pruneNonEscapingScopes (example_getPlaceScope jsx_scopes) example_operands
      jsx_in_array_pruned default_options = Ok jsx_in_array_pruned.
Proof.
  assert (pruneNonEscapingScopes (example_getPlaceScope jsx_scopes) example_operands
            jsx_in_array_fn default_options = Ok jsx_in_array_pruned) as Hrun
    by (vm_compute; reflexivity).
  split; [exact Hrun|].
  exact (pruneNonEscapingScopes_idempotent _ _ _ _ _ Hrun).
Defined.

Lemma pruneNonEscapingScopes_no_return_witness :
  returned_ids (block_events (body no_return_fn)) = []
  ∧ pruneNonEscapingScopes (example_getPlaceScope jsx_scopes) example_operands
      no_return_fn default_options = Ok no_return_pruned
  ∧ block_scopes (body no_return_pruned) = [].
Proof.
  assert (pruneNonEscapingScopes (example_getPlaceScope jsx_scopes) example_operands
            no_return_fn default_options = Ok no_return_pruned) as Hrun
    by (vm_compute; reflexivity).
  split_and!; [reflexivity|exact Hrun|].
  exact (proj2 (pruneNonEscapingScopes_no_return _ _ no_return_fn _ _ eq_refl Hrun)).
Defined.

Lemma pruneNonEscapingScopes_options_witness :
  pruneNonEscapingScopes (example_getPlaceScope ∅) example_operands identity_fn
    default_options
  = pruneNonEscapingScopes (example_getPlaceScope ∅) example_operands identity_fn
      {| memoizeJsxElements := true |}.
Proof.
  apply (pruneNonEscapingScopes_options (example_getPlaceScope ∅) example_operands
           identity_fn default_options {| memoizeJsxElements := true |}).
  intros instruction Hin. vm_compute in Hin.
  apply elem_of_cons in Hin as [Heq|Hin]; [by simplify_eq|].
  apply elem_of_cons in Hin as [Heq|Hin]; [by simplify_eq|].
  by apply elem_of_nil in Hin.
Defined.

Lemma solver_visits_reachable_witness :
  fresh_state jsx_in_array_state
  ∧ computeMemoizedIdentifiers jsx_in_array_state = Ok {[2]}
  ∧ solver_reaches jsx_in_array_state {[2]} 2
  ∧ ∃ s, solve (S (unseen_nodes jsx_in_array_state)) jsx_in_array_state = Ok s
         ∧ identifier_seen s 1.
Proof.
  assert (fresh_state jsx_in_array_state) as Hfresh
    by (apply (bool_decide_unpack _); vm_compute; exact I).
  assert (computeMemoizedIdentifiers jsx_in_array_state = Ok {[2]}) as Hrun
    by (vm_compute; reflexivity).
  destruct (solver_visits_reachable jsx_in_array_state {[2]} Hfresh Hrun)
    as (s & Hsolve & _ & Hseen & Hsound & _).
  split_and!; [exact Hfresh|exact Hrun| |].
  - apply Hsound. apply (bool_decide_unpack _). vm_compute. exact I.
  - exists s. split; [exact Hsolve|]. apply Hseen.
    exists 2. split; [left|].
    eapply rtc_l; [|apply rtc_refl].
    eapply edge_dependency; [vm_compute; reflexivity|left].
Defined.

Lemma memoized_scopes_are_forced_witness :
  ∃ s, solve 4 jsx_in_array_state = Ok s
       ∧ scope_forced s 2
       ∧ identifier_seen s 1.
Proof.
  destruct (solve 4 jsx_in_array_state) as [s| |] eqn:Hsolve;
    [|vm_compute in Hsolve; discriminate..].
  assert (fresh_state jsx_in_array_state) as Hfresh
    by (apply (bool_decide_unpack _); vm_compute; exact I).
  destruct (memoized_scopes_are_forced 4 jsx_in_array_state s Hfresh Hsolve)
    as [Hforced Hdeps].
  assert (scope_forced s 2) as H2.
  { apply (Hforced 2 {| level := Memoized; memoized := false; dependencies := [1];
                        scopes := [2]; seen := false |}); [|vm_compute; reflexivity|left].
    pose proof Hsolve as Hs. vm_compute in Hs. injection Hs as <-.
    apply (bool_decide_unpack _). vm_compute. exact I. }
  exists s. split_and!; [reflexivity|exact H2|].
  apply (Hdeps 2 {| scope_dependencies := [1]; scope_seen := false |} 1 H2);
    [vm_compute; reflexivity|left].
Defined.

Lemma solver_only_sets_flags_witness :
  ∃ s, solve 4 jsx_in_array_state = Ok s
       ∧ returned (graph s) = [2]
       ∧ dom (identifiers (graph s)) = dom (identifiers jsx_in_array_state).
Proof.
  destruct (solve 4 jsx_in_array_state) as [s| |] eqn:Hsolve;
    [|vm_compute in Hsolve; discriminate..].
  assert (fresh_state jsx_in_array_state) as Hfresh
    by (apply (bool_decide_unpack _); vm_compute; exact I).
  destruct (solver_only_sets_flags 4 jsx_in_array_state s Hfresh Hsolve)
    as (_ & Hret & Hdom & _).
  exists s. split_and!; [reflexivity|exact Hret|exact Hdom].
Defined.

Lemma pruneNonEscapingScopes_keeps_escaping_scopes_witness :
  pruneNonEscapingScopes (example_getPlaceScope jsx_scopes) example_operands
    jsx_in_array_fn default_options = Ok jsx_in_array_pruned
  ∧ scope_m ∈ block_scopes (body jsx_in_array_fn)
  ∧ ∃ id, id ∈ scope_outputs scope_m.
Proof.
  assert (pruneNonEscapingScopes (example_getPlaceScope jsx_scopes) example_operands
            jsx_in_array_fn default_options = Ok jsx_in_array_pruned) as Hrun
    by (vm_compute; reflexivity).
  split; [exact Hrun|].
  destruct (pruneNonEscapingScopes_keeps_escaping_scopes _ _ _ _ _ Hrun)
    as (state & memo & _ & _ & _ & Hkept).
  destruct (Hkept scope_m) as (Hin & id & Hid & _); [vm_compute; left|].
  split; [exact Hin|]. by exists id.
Defined.

Lemma jsx_in_array_fn_defined (x : IdentifierId) :
  x = 1 ∨ x = 2 → defined_in example_operands default_options jsx_in_array_fn x.
Proof.
  intros [->| ->]; right; right.
  - exists jsx_instruction, {| lvalues := [mkLValue jsx_u Unmemoized]; rvalues := [] |},
      (mkLValue jsx_u Unmemoized).
    split_and!; [vm_compute; left|reflexivity|left|reflexivity].
  - exists array_instruction,
      {| lvalues := [mkLValue array_m Memoized]; rvalues := [jsx_u] |},
      (mkLValue array_m Memoized).
    split_and!; [vm_compute; right; left|reflexivity|left|reflexivity].
Qed.

Lemma jsx_in_array_fn_uses_defined :
  uses_defined (example_getPlaceScope jsx_scopes) example_operands default_options
    jsx_in_array_fn.
Proof.
  split_and!.
  - intros instruction aliasing operand Hin Hal Hop. vm_compute in Hin.
    apply elem_of_cons in Hin as [Heq|Hin]; [|apply elem_of_cons in Hin as [Heq|Hin]].
    + simplify_eq. vm_compute in Hal. simplify_eq. by apply elem_of_nil in Hop.
    + simplify_eq. vm_compute in Hal. simplify_eq.
      apply list_elem_of_singleton in Hop as ->. apply jsx_in_array_fn_defined. by left.
    + apply elem_of_cons in Hin as [Heq|Hin]; [done|by apply elem_of_nil in Hin].
  - intros id Hin. vm_compute in Hin.
    apply elem_of_cons in Hin as [Heq|Hin]; [done|].
    apply elem_of_cons in Hin as [Heq|Hin]; [done|].
    apply elem_of_cons in Hin as [Heq|Hin]; [|by apply elem_of_nil in Hin].
    simplify_eq. apply jsx_in_array_fn_defined. by right.
  - intros id place scope dep Hscope Hdep. unfold example_getPlaceScope in Hscope.
    destruct (jsx_scopes !! identifier_id (identifier place)) as [scope'|] eqn:Hlookup;
      [|done].
    destruct (scope_active scope' id); [|done]. simplify_eq.
    unfold jsx_scopes in Hlookup.
    apply lookup_insert_Some in Hlookup as [[_ <-]|[_ Hlookup]].
    + by apply elem_of_nil in Hdep.
    + apply lookup_singleton_Some in Hlookup as [_ <-].
      apply list_elem_of_singleton in Hdep as ->. apply jsx_in_array_fn_defined. by left.
Qed.

Lemma pruneNonEscapingScopes_succeeds_witness :
  ∃ memoized,
    computeMemoizedIdentifiers jsx_in_array_state = Ok memoized
    ∧ pruneNonEscapingScopes (example_getPlaceScope jsx_scopes) example_operands
        jsx_in_array_fn default_options
      = Ok {| fn_id := fn_id jsx_in_array_fn; params := params jsx_in_array_fn;
              body := transformBlock memoized (body jsx_in_array_fn) |}.
Proof.
  destruct (pruneNonEscapingScopes_succeeds (example_getPlaceScope jsx_scopes)
              example_operands default_options jsx_in_array_fn jsx_in_array_state)
    as (_ & _ & Hresult).
  - exact jsx_in_array_fn_uses_defined.
  - vm_compute. reflexivity.
  - exact Hresult.
Defined.
